(** * tnnlr: the tunnel connection lifecycle

    A shallow embedding of the client-side tunnelling agent:
    - [src/lib/tunnel.ts]: [authenticateRemote], [waitForReady],
      [createTunnel], [createHeaderHostTransformer];
    - [src/lib/tnnlr.ts]: [retryAsync], the endpoint acquisition of [tnnlr],
      the tunnels it starts and [runPersistentTunnel];
    - [src/lib/utils.ts]: [isErrnoException].

    Buffers are lists of bytes, JavaScript strings are lists of code points,
    and every observable action of the program (a socket write, a log call,
    the settling of a promise) is an entry of an ordered trace. Event handlers
    are functions from a state and an event to a new state and the trace of
    the actions they perform, in program order. *)

From Equations Require Import Equations.
From Stdlib Require Import String Ascii.
From Stdlib Require DecimalString.
From Stdlib.Strings Require Import Byte.
From Stdlib Require Import List Bool Arith ZArith NArith Lia.
Import ListNotations.

(** ** Buffers and strings *)

Definition bytes := list byte.

(** A JavaScript string, as the sequence of its code points. *)
Definition jsstring := list N.

(** The bytes of an ASCII literal. *)
Definition bytes_of (s : string) : bytes := list_byte_of_string s.

Definition inspect {A} (a : A) : {b | a = b} := exist _ a eq_refl.

Module Text.

Local Open Scope N_scope.

(** A string literal of the source (ASCII). *)
Definition lit (s : string) : jsstring :=
  map N_of_ascii (list_ascii_of_string s).

Definition byte_of_N (n : N) : byte :=
  match Byte.of_N (n mod 256) with
  | Some b => b
  | None => x00
  end.

Definition jseq (a b : jsstring) : bool :=
  if list_eq_dec N.eq_dec a b then true else false.

(** *** [Buffer.prototype.toString()]: UTF-8 decoding

    The decoder of the WHATWG Encoding standard, which Node follows: an
    ill-formed sequence yields U+FFFD and decoding resumes at the
    offending byte. A pending sequence is
    (continuation bytes still needed, code point so far, lower and upper
    bound of the next byte). *)

Definition pending := (nat * N * N * N)%type.

Definition REPLACEMENT : N := 0xFFFD.

Definition decode_lead (n : N) : list N * option pending :=
  if n <=? 0x7F then ([n], None)
  else if (0xC2 <=? n) && (n <=? 0xDF)
    then ([], Some (1%nat, N.land n 0x1F, 0x80, 0xBF))
  else if (0xE0 <=? n) && (n <=? 0xEF)
    then ([], Some (2%nat, N.land n 0xF,
                    (if n =? 0xE0 then 0xA0 else 0x80),
                    (if n =? 0xED then 0x9F else 0xBF)))
  else if (0xF0 <=? n) && (n <=? 0xF4)
    then ([], Some (3%nat, N.land n 0x7,
                    (if n =? 0xF0 then 0x90 else 0x80),
                    (if n =? 0xF4 then 0x8F else 0xBF)))
  else ([REPLACEMENT], None).

Definition decode_step (st : option pending) (b : byte)
  : list N * option pending :=
  let n := Byte.to_N b in
  match st with
  | None => decode_lead n
  | Some (needed, cp, lower, upper) =>
      if (lower <=? n) && (n <=? upper) then
        let cp' := N.lor (N.shiftl cp 6) (N.land n 0x3F) in
        match needed with
        | S (S k) => ([], Some (S k, cp', 0x80, 0xBF))
        | _ => ([cp'], None)
        end
      else
        let '(out, st') := decode_lead n in (REPLACEMENT :: out, st')
  end.

Fixpoint decode_from (st : option pending) (bs : bytes) : jsstring :=
  match bs with
  | [] => match st with None => [] | Some _ => [REPLACEMENT] end
  | b :: rest =>
      let '(out, st') := decode_step st b in out ++ decode_from st' rest
  end.

Definition toString (buf : bytes) : jsstring := decode_from None buf.

(** *** Writing a string to a stream with encoding ['utf8'] *)

Definition is_surrogate (c : N) : bool := (0xD800 <=? c) && (c <=? 0xDFFF).

Definition encode_cp (c : N) : bytes :=
  if c <? 0x80 then [byte_of_N c]
  else if c <? 0x800 then
    [byte_of_N (N.lor 0xC0 (N.shiftr c 6));
     byte_of_N (N.lor 0x80 (N.land c 0x3F))]
  else if is_surrogate c then [xef; xbf; xbd]
  else if c <? 0x10000 then
    [byte_of_N (N.lor 0xE0 (N.shiftr c 12));
     byte_of_N (N.lor 0x80 (N.land (N.shiftr c 6) 0x3F));
     byte_of_N (N.lor 0x80 (N.land c 0x3F))]
  else
    [byte_of_N (N.lor 0xF0 (N.shiftr c 18));
     byte_of_N (N.lor 0x80 (N.land (N.shiftr c 12) 0x3F));
     byte_of_N (N.lor 0x80 (N.land (N.shiftr c 6) 0x3F));
     byte_of_N (N.lor 0x80 (N.land c 0x3F))].

Definition utf8 (s : jsstring) : bytes := flat_map encode_cp s.

(** *** White space: [String.prototype.trim] and the regex classes
    [\s] and [\S] (ECMAScript WhiteSpace and LineTerminator). *)

Definition is_ws (c : N) : bool :=
  ((0x09 <=? c) && (c <=? 0x0D))
  || (c =? 0x20) || (c =? 0xA0) || (c =? 0x1680)
  || ((0x2000 <=? c) && (c <=? 0x200A))
  || (c =? 0x2028) || (c =? 0x2029) || (c =? 0x202F)
  || (c =? 0x205F) || (c =? 0x3000) || (c =? 0xFEFF).

Fixpoint trimStart (s : jsstring) : jsstring :=
  match s with
  | c :: rest => if is_ws c then trimStart rest else s
  | [] => []
  end.

Definition trimEnd (s : jsstring) : jsstring :=
  rev (trimStart (rev s)).

Definition trim (s : jsstring) : jsstring := trimEnd (trimStart s).

(** The regex class [\w]. *)
Definition is_word (c : N) : bool :=
  ((0x30 <=? c) && (c <=? 0x39))
  || ((0x41 <=? c) && (c <=? 0x5A))
  || (c =? 0x5F)
  || ((0x61 <=? c) && (c <=? 0x7A)).

(** Longest prefix whose elements satisfy [p], and what follows it. *)
Fixpoint span {A} (p : A -> bool) (s : list A) : list A * list A :=
  match s with
  | c :: rest =>
      if p c then let '(a, b) := span p rest in (c :: a, b) else ([], s)
  | [] => ([], [])
  end.

(** Does [s] start with [p]?  What follows, if so. *)
Fixpoint strip_prefix (p s : jsstring) : option jsstring :=
  match p, s with
  | [], _ => Some s
  | a :: p', b :: s' => if a =? b then strip_prefix p' s' else None
  | _ :: _, [] => None
  end.

(** ASCII case folding, the canonicalisation of the [i] flag on the
    letters that the patterns of the source use. *)
Definition lower (c : N) : N :=
  if (0x41 <=? c) && (c <=? 0x5A) then c + 0x20 else c.

End Text.

Definition LF : byte := x0a.

(** ** [JSON.stringify] on the values the program serialises *)

Module Json.

Import Text.
Local Open Scope N_scope.

Definition hex_digit (n : N) : N :=
  if n <? 10 then 0x30 + n else 0x61 + (n - 10).

Definition unicode_escape (c : N) : jsstring :=
  lit "\u" ++ [hex_digit ((c / 4096) mod 16); hex_digit ((c / 256) mod 16);
               hex_digit ((c / 16) mod 16); hex_digit (c mod 16)].

(** One code point of a quoted JSON string (QuoteJSONString). *)
Definition quote_cp (c : N) : jsstring :=
  if c =? 0x08 then lit "\b"
  else if c =? 0x09 then lit "\t"
  else if c =? 0x0A then lit "\n"
  else if c =? 0x0C then lit "\f"
  else if c =? 0x0D then lit "\r"
  else if c =? 0x22 then [0x5C; 0x22]
  else if c =? 0x5C then [0x5C; 0x5C]
  else if (c <? 0x20) || is_surrogate c then unicode_escape c
  else [c].

Definition quote (s : jsstring) : jsstring :=
  [0x22] ++ flat_map quote_cp s ++ [0x22].

(** [JSON.stringify({ type: 'auth', key: secretKey })] *)
Definition stringify_auth (secretKey : jsstring) : jsstring :=
  [0x7B] ++ quote (lit "type") ++ [0x3A] ++ quote (lit "auth") ++ [0x2C]
  ++ quote (lit "key") ++ [0x3A] ++ quote secretKey ++ [0x7D].

End Json.

(** ** Errors, promises and the trace of observable actions *)

(** What a promise is rejected with or an ['error'] event carries: an
    [Error] whose optional [errno], [code], [path] and [syscall] fields are
    well typed, or any other value. *)
Inductive Thrown :=
| ErrorObj (message : string) (code : option string)
| OtherValue.

(** [isErrnoException] of utils.ts. *)
Definition isErrnoException (e : Thrown) : bool :=
  match e with
  | ErrorObj _ _ => true
  | OtherValue => false
  end.

(** [new Error(message)] *)
Definition newError (message : string) : Thrown := ErrorObj message None.

Definition code_of (e : Thrown) : option string :=
  match e with
  | ErrorObj _ c => c
  | OtherValue => None
  end.

Inductive Promise (A : Type) :=
| Pending
| Fulfilled (v : A)
| Rejected (e : Thrown).
Arguments Pending {A}.
Arguments Fulfilled {A} v.
Arguments Rejected {A} e.

(** Settling a promise a second time has no effect. *)
Definition resolve {A} (p : Promise A) (v : A) : Promise A :=
  match p with
  | Pending => Fulfilled v
  | _ => p
  end.

Definition reject {A} (p : Promise A) (e : Thrown) : Promise A :=
  match p with
  | Pending => Rejected e
  | _ => p
  end.

Inductive Level := debug | info | warn | error.

Inductive LogArg :=
| LStr (s : jsstring)
| LNum (n : Z)
| LBool (b : bool)
| LUndefined
| LErr (e : Thrown).

(** The program's observable actions. A [Log] entry is one call of the
    logger: its level, its format (or template) text and the values
    interpolated into it, in order. *)
Inductive Action :=
| RemoteWrite (data : bytes)
| RemoteEnd
| LocalOpen (host : jsstring) (port : Z)
| LocalWrite (data : bytes)
| LocalEnd
| Log (lvl : Level) (fmt : string) (args : list LogArg)
| OnRequest (method path : jsstring)
| Call
| Sleep (ms : Z).

Definition Trace := list Action.

Definition remote_writes (t : Trace) : list bytes :=
  flat_map (fun a => match a with RemoteWrite d => [d] | _ => [] end) t.

Definition local_writes (t : Trace) : list bytes :=
  flat_map (fun a => match a with LocalWrite d => [d] | _ => [] end) t.

(** The bytes delivered to the local socket, in order. *)
Definition local_bytes (t : Trace) : bytes := concat (local_writes t).

Definition log_entries (t : Trace) : Trace :=
  filter (fun a => match a with Log _ _ _ => true | _ => false end) t.

Definition calls (t : Trace) : nat :=
  List.length (filter (fun a => match a with Call => true | _ => false end) t).

(** Sequencing of handlers: the trace of the first, then of the second. *)
Definition andThen {S1 S2} (r : S1 * Trace) (k : S1 -> S2 * Trace)
  : S2 * Trace :=
  let '(s, t) := r in let '(s', t') := k s in (s', t ++ t').

Definition emit {S} (t : Trace) (r : S * Trace) : S * Trace :=
  (fst r, t ++ snd r).

(** ** [authenticateRemote] *)

Module Auth.

Import Text.
Local Open Scope N_scope.

(** The frame [JSON.stringify({ type: 'auth', key: secretKey }) + '\n']. *)
Definition payload (secretKey : jsstring) : jsstring :=
  Json.stringify_auth secretKey ++ [0x0A].

(** Prefix test under the [i] flag. *)
Fixpoint strip_prefix_ci (p s : jsstring) : option jsstring :=
  match p, s with
  | [], _ => Some s
  | a :: p', b :: s' =>
      if lower a =? lower b then strip_prefix_ci p' s' else None
  | _ :: _, [] => None
  end.

(** The pattern ["status"\s*:\s*"<word>"] with flag [i], matched at the
    head of [s]. *)
Definition status_at (word s : jsstring) : bool :=
  match strip_prefix_ci (Json.quote (lit "status")) s with
  | Some r1 =>
      match snd (span is_ws r1) with
      | c :: r2 =>
          (c =? 0x3A)
          && match strip_prefix_ci (Json.quote word) (snd (span is_ws r2)) with
             | Some _ => true
             | None => false
             end
      | [] => false
      end
  | None => false
  end.

(** [RegExp.prototype.test]: a match at some position of [s]. *)
Fixpoint test_status (word s : jsstring) : bool :=
  status_at word s
  || match s with
     | [] => false
     | _ :: rest => test_status word rest
     end.

(** The call itself, up to the point where it returns its promise: with a
    falsy key ([undefined] or the empty string) it returns at once; otherwise
    it installs its listeners and timer, logs and writes the frame. *)
Definition authenticateRemote (secretKey : option jsstring)
  : Promise unit * Trace :=
  match secretKey with
  | None => (Fulfilled tt, [])
  | Some [] => (Fulfilled tt, [])
  | Some key =>
      (Pending,
       [Log debug "Sending authentication payload to remote: %s"
            [LStr (trim (payload key))];
        RemoteWrite (utf8 (payload key))])
  end.

Definition onData (chunk : bytes) : Promise unit * Trace :=
  let s := trim (toString chunk) in
  let logged := [Log debug "Received data from remote: %s" [LStr s]] in
  if jseq s (lit "AUTH_OK") || jseq s (lit "AUTH_SUCCESS")
     || test_status (lit "ok") s
  then (Fulfilled tt, logged)
  else if jseq s (lit "AUTH_FAIL") || test_status (lit "error") s
  then (Rejected (newError "Authentication failed"), logged)
  else (Pending, logged).

Definition onError (err : Thrown) : Promise unit * Trace :=
  (Rejected err, []).

Definition onClose : Promise unit * Trace :=
  (Rejected (newError "Socket closed before authentication"), []).

Definition onTimeout : Promise unit * Trace :=
  (Rejected (newError "Authentication timed out"), []).

(** What the socket and the timer can deliver while the listeners are
    installed. *)
Inductive Event :=
| Data (chunk : bytes)
| Error (err : Thrown)
| Close
| Expired.

Definition handle (ev : Event) : Promise unit * Trace :=
  match ev with
  | Data chunk => onData chunk
  | Error err => onError err
  | Close => onClose
  | Expired => onTimeout
  end.

(** The listeners stay installed while the promise is pending; [cleanup]
    removes them when it settles. *)
Fixpoint listen (p : Promise unit) (evs : list Event) : Promise unit * Trace :=
  match p, evs with
  | Pending, ev :: rest => andThen (handle ev) (fun p' => listen p' rest)
  | _, _ => (p, [])
  end.

Definition run (secretKey : option jsstring) (evs : list Event)
  : Promise unit * Trace :=
  andThen (authenticateRemote secretKey) (fun p => listen p evs).

End Auth.

(** ** [waitForReady] *)

Module Ready.

Import Text.

(** [buf.indexOf(b)], with [None] for -1. *)
Fixpoint indexOf (b : byte) (buf : bytes) : option nat :=
  match buf with
  | [] => None
  | x :: rest =>
      if Byte.eqb x b then Some 0%nat else option_map S (indexOf b rest)
  end.

(** [buf.slice(0, nlIndex).toString().trim()] *)
Definition line_at (nlIndex : nat) (buf : bytes) : jsstring :=
  trim (toString (firstn nlIndex buf)).

(** [buf.slice(nlIndex + 1)] *)
Definition remainder_at (nlIndex : nat) (buf : bytes) : bytes :=
  skipn (S nlIndex) buf.

Definition READY : jsstring := lit "READY".
Definition PING : jsstring := lit "PING".
Definition PONG : bytes := utf8 (lit "PONG" ++ [0x0A%N]).

Definition CAP : Z := 64 * 1024.

(** The waiter: its buffer while it waits, or how its promise settled. *)
Inductive Waiter :=
| Waiting (buf : bytes)
| Resolved (remainder : bytes)
| Failed (err : Thrown).

Definition control_log (line : jsstring) : Action :=
  Log debug "Received control line from remote: %s" [LStr line].

(** The [while (nlIndex !== -1)] loop of [onData], entered with the
    buffer that already holds the new chunk. *)
Equations? scan (buf : bytes) : Waiter * Trace by wf (List.length buf) lt :=
  scan buf with inspect (indexOf LF buf) := {
    | exist _ None _ => (Waiting buf, [])
    | exist _ (Some nlIndex) Hnl
        with jseq (line_at nlIndex buf) READY := {
        | true =>
            (Resolved (remainder_at nlIndex buf),
             [control_log (line_at nlIndex buf)])
        | false with jseq (line_at nlIndex buf) PING := {
            | true =>
                emit [control_log (line_at nlIndex buf);
                      Log debug "Responding to PING with PONG" [];
                      RemoteWrite PONG]
                     (scan (remainder_at nlIndex buf))
            | false =>
                if (Z.of_nat (List.length buf) >? CAP)%Z
                then (Failed (newError "Unexpected data before READY"),
                      [control_log (line_at nlIndex buf)])
                else (Waiting buf, [control_log (line_at nlIndex buf)]) } } }.
Proof.
  clear scan. unfold remainder_at.
  assert (Hlt : (nlIndex < List.length buf)%nat).
  { clear -Hnl. revert nlIndex Hnl.
    induction buf as [|x r IH]; simpl; intros n H; [discriminate|].
    destruct (Byte.eqb x LF); [inversion H; lia|].
    destruct (indexOf LF r); simpl in H; inversion H.
    specialize (IH _ eq_refl). lia. }
  rewrite length_skipn. lia.
Qed.

(** [onData]: [buf = Buffer.concat([buf, chunk])], then the loop. *)
Definition onData (buf chunk : bytes) : Waiter * Trace :=
  scan (buf ++ chunk).

Definition onError (err : Thrown) : Waiter * Trace := (Failed err, []).

Definition onClose : Waiter * Trace :=
  (Failed (newError "Socket closed before READY"), []).

Inductive Event :=
| Data (chunk : bytes)
| Error (err : Thrown)
| Close.

Definition handle (buf : bytes) (ev : Event) : Waiter * Trace :=
  match ev with
  | Data chunk => onData buf chunk
  | Error err => onError err
  | Close => onClose
  end.

(** The listeners stay installed while the waiter waits. *)
Fixpoint listen (w : Waiter) (evs : list Event) : Waiter * Trace :=
  match w, evs with
  | Waiting buf, ev :: rest => andThen (handle buf ev) (fun w' => listen w' rest)
  | _, _ => (w, [])
  end.

(** [waitForReady(socket)]: the buffer starts empty. *)
Definition waitForReady (evs : list Event) : Waiter * Trace :=
  listen (Waiting []) evs.

End Ready.

(** ** [createHeaderHostTransformer] *)

Module HostHeader.

Import Text.
Local Open Scope N_scope.

Definition non_ws (c : N) : bool := negb (is_ws c).

(** The pattern [(\r\n[Hh]ost: )\S+] matched at the head of [s]: group 1,
    the [\S+] token and what follows the match. *)
Definition match_at (s : jsstring)
  : option (jsstring * jsstring * jsstring) :=
  match s with
  | c1 :: c2 :: h :: rest =>
      if (c1 =? 0x0D) && (c2 =? 0x0A) && ((h =? 0x48) || (h =? 0x68)) then
        match strip_prefix (lit "ost: ") rest with
        | Some r =>
            match span non_ws r with
            | ([], _) => None
            | (tok, post) => Some ([c1; c2; h] ++ lit "ost: ", tok, post)
            end
        | None => None
        end
      else None
  | _ => None
  end.

(** [s.replace(/(\r\n[Hh]ost: )\S+/, (match, $1) => $1 + host)]: the
    pattern has no [g] flag, so only the leftmost match is replaced. The
    boolean tells whether the callback ran. *)
Fixpoint replace (host s : jsstring) : jsstring * bool :=
  match match_at s with
  | Some (g1, _, post) => (g1 ++ host ++ post, true)
  | None =>
      match s with
      | [] => ([], false)
      | c :: rest => let '(out, hit) := replace host rest in (c :: out, hit)
      end
  end.

(** One call of [transform]: the bytes pushed downstream and the new value
    of the [replaced] latch. A pushed string is encoded as UTF-8. *)
Definition transform (host : jsstring) (replaced : bool) (chunk : bytes)
  : bytes * bool :=
  if replaced then (chunk, true)
  else let '(out, hit) := replace host (toString chunk) in (utf8 out, hit).

(** The transformer over the chunks of a session, latch threaded through. *)
Fixpoint pipe (host : jsstring) (replaced : bool) (chunks : list bytes)
  : list bytes * bool :=
  match chunks with
  | [] => ([], replaced)
  | chunk :: rest =>
      let '(out, r) := transform host replaced chunk in
      let '(outs, r') := pipe host r rest in (out :: outs, r')
  end.

(** [createHeaderHostTransformer(host)]: the latch starts unset. What the
    new transformer makes of the chunks written to it. *)
Definition createHeaderHostTransformer (host : jsstring)
  (chunks : list bytes) : list bytes :=
  fst (pipe host false chunks).

End HostHeader.

(** ** [createTunnel] *)

Module Tunnel.

Import Text.
Local Open Scope N_scope.

Record CreateTunnelOpts := {
  remoteHost : jsstring;
  remotePort : Z;
  localHost : jsstring;
  localPort : Z;
  secretKey : option jsstring;
  authTimeoutMs : option Z;
  onRequest : bool  (* is a callback supplied? its calls are traced *)
}.

(** Where the connect callback of the remote socket stands. *)
Inductive Phase :=
| Dialing
| Authenticating
| AwaitingReady (buf : bytes)
| LocalDialing (postReadyBuffer : bytes)
| Splicing (postReadyBuffer : bytes) (transformer : option bool)
| LocalLost (wasConnected : bool)
| Aborted.

(** The remote socket, as the pipes see it: [Up] while it is open both
    ways; [Ended] once its ['end'] was emitted (the socket then finishes as
    well, [allowHalfOpen] being off); [Down] once it has errored, closed or
    been ended from this side while the peer has not ended it. A pipe into
    the socket is taken away when the socket finishes, errors or closes. *)
Inductive Link := Up | Ended | Down.

Record Session := {
  phase : Phase;
  settled : Promise unit; (* the promise that [createTunnel] returns *)
  remote : Link
}.

Definition enter (s : Session) (p : Phase) : Session :=
  {| phase := p; settled := settled s; remote := remote s |}.

Definition with_remote (s : Session) (l : Link) : Session :=
  {| phase := phase s; settled := settled s; remote := l |}.

(** The remote socket errors or closes. *)
Definition drop (s : Session) : Session :=
  with_remote s match remote s with
                | Up => Down
                | l => l
                end.

Inductive Event :=
| RemoteConnect
| RemoteData (chunk : bytes)
| RemoteFin
| RemoteError (err : Thrown)
| RemoteClose
| AuthExpired
| LocalConnect
| LocalData (chunk : bytes)
| LocalFin
| LocalError (err : Thrown)
| LocalClose (hadError : bool).

(** [localHost !== 'localhost' && localHost !== '127.0.0.1'] *)
Definition wants_transformer (opts : CreateTunnelOpts) : bool :=
  negb (jseq (localHost opts) (lit "localhost"))
  && negb (jseq (localHost opts) (lit "127.0.0.1")).

(** The pattern [^(\w+) (\S+)] on the text of a chunk. *)
Definition request_line (s : jsstring) : option (jsstring * jsstring) :=
  match span is_word s with
  | ([], _) => None
  | (method, sp :: rest) =>
      if sp =? 0x20 then
        match span HostHeader.non_ws rest with
        | ([], _) => None
        | (path, _) => Some (method, path)
        end
      else None
  | (_, []) => None
  end.

(** The ['data'] listener that [createTunnel] itself puts on the remote
    socket; it is the first listener and stays for the whole session. *)
Definition observe (opts : CreateTunnelOpts) (data : bytes) : Trace :=
  Log debug "Received data from tunnel: ${data.toString()}"
      [LStr (toString data)]
  :: match request_line (toString data) with
     | Some (method, path) =>
         if onRequest opts then [OnRequest method path] else []
     | None => []
     end.

Definition arg_code (err : Thrown) : LogArg :=
  match code_of err with
  | Some c => LStr (lit c)
  | None => LUndefined
  end.

Definition arg_message (err : Thrown) : LogArg :=
  match err with
  | ErrorObj m _ => LStr (lit m)
  | OtherValue => LUndefined
  end.

Definition refused (err : Thrown) : bool :=
  match code_of err with
  | Some c => String.eqb c "ECONNREFUSED"
  | None => false
  end.

(** The continuation of [await authenticateRemote(...)] in the connect
    callback: on success [waitForReady] installs its listeners, on failure
    the error goes to the emitter, whose listener rejects the promise. *)
Definition after_auth (s : Session) (p : Promise unit) : Session * Trace :=
  match p with
  | Pending => (enter s Authenticating, [])
  | Fulfilled _ =>
      (enter s (AwaitingReady []),
       [Log info "Remote authentication succeeded" []])
  | Rejected err =>
      ({| phase := Aborted; settled := reject (settled s) err;
          remote := remote s |},
       [Log error "Remote authentication failed" []; RemoteEnd])
  end.

(** The continuation of [await waitForReady(remoteSocket)]. *)
Definition after_ready (opts : CreateTunnelOpts) (s : Session)
  (w : Ready.Waiter) : Session * Trace :=
  match w with
  | Ready.Waiting buf => (enter s (AwaitingReady buf), [])
  | Ready.Resolved postReadyBuffer =>
      (enter s (LocalDialing postReadyBuffer),
       [Log debug "Received READY from remote" [];
        LocalOpen (localHost opts) (localPort opts)])
  | Ready.Failed err =>
      ({| phase := Aborted; settled := reject (settled s) err;
          remote := remote s |},
       [Log error "Did not receive READY from remote: %s" [LErr err];
        RemoteEnd])
  end.

(** The ['error'] listener that [createTunnel] puts on the remote socket. *)
Definition remote_error (s : Session) (err : Thrown) : Session * Trace :=
  if negb (isErrnoException err) then
    (s, [Log error "Unknown error on remote socket:" [];
         Log error "" [LErr err]])
  else if refused err then
    ({| phase := phase s;
        settled := reject (settled s)
                     (newError "Connection refused by the server");
        remote := remote s |},
     [Log error "Connection refused by the server" []; RemoteEnd])
  else
    ({| phase := phase s; settled := reject (settled s) err;
        remote := remote s |},
     [Log error "Socket error (${err.code}): ${err.message}"
          [arg_code err; arg_message err];
      RemoteEnd]).

(** The ['close'] listener that [createTunnel] puts on the remote socket. *)
Definition remote_close (s : Session) : Session * Trace :=
  ({| phase := phase s; settled := resolve (settled s) tt;
      remote := remote s |},
   [Log info "Tunnel connection closed" []]).

(** The handler of the local emitter's ['error']. *)
Definition local_error (s : Session) (err : Thrown) : Session * Trace :=
  if negb (isErrnoException err) then
    (s, [Log error "Unknown error on local socket:" [];
         Log error "" [LErr err]])
  else
    ({| phase := phase s; settled := reject (settled s) err;
        remote := remote s |},
     [if refused err
      then Log error "Connection refused by the local server" []
      else Log error "Local socket error (${err.code}): ${err.message}"
               [arg_code err; arg_message err];
      RemoteEnd]).

(** The handler of the local emitter's ['connected']: the pipes are built;
    [postReadyBuffer] is not mentioned by it. A pipe from a socket whose
    ['end'] was already emitted ends its destination at once. *)
Definition local_connected (opts : CreateTunnelOpts) (s : Session)
  (postReadyBuffer : bytes) : Session * Trace :=
  (enter s (Splicing postReadyBuffer
              (if wants_transformer opts then Some false else None)),
   Log info "Connected to local server at ${host}:${port}"
       [LStr (localHost opts); LNum (localPort opts)]
   :: (if wants_transformer opts
       then [Log debug "transform Host header to %s" [LStr (localHost opts)]]
       else [])
   ++ match remote s with
      | Ended => [LocalEnd]
      | _ => []
      end).

(** A chunk of the local socket: the ['data'] listener of [connectLocal]
    logs it, and [localSocket.pipe(remoteSocket)] writes it while that pipe
    stands. *)
Definition backward (s : Session) (chunk : bytes) : Session * Trace :=
  (s, Log info "Received data from local server:" [LStr (toString chunk)]
      :: match remote s with
         | Up => [RemoteWrite chunk]
         | _ => []
         end).

(** A chunk of the remote socket through [stream.pipe(localSocket)]. *)
Definition forward (opts : CreateTunnelOpts) (s : Session)
  (postReadyBuffer : bytes) (transformer : option bool) (chunk : bytes)
  : Session * Trace :=
  match transformer with
  | None => (s, [LocalWrite chunk])
  | Some replaced =>
      let '(out, replaced') :=
        HostHeader.transform (localHost opts) replaced chunk in
      (enter s (Splicing postReadyBuffer (Some replaced')), [LocalWrite out])
  end.

(** One event of the two sockets or of the timer: the listeners installed
    at that point run in the order of their registration, then the
    continuations of the promises they settled. The pipe from the local to
    the remote socket writes and ends only while the remote socket is
    [Up]. *)
Definition step (opts : CreateTunnelOpts) (s : Session) (ev : Event)
  : Session * Trace :=
  match ev with
  | RemoteConnect =>
      match phase s with
      | Dialing =>
          emit [Log info "Connected to tunnel at ${remoteHost}:${remotePort}"
                    [LStr (remoteHost opts); LNum (remotePort opts)]]
               (andThen (Auth.authenticateRemote (secretKey opts))
                        (after_auth s))
      | _ => (s, [])
      end
  | RemoteData chunk =>
      emit (observe opts chunk)
        match phase s with
        | Authenticating => andThen (Auth.onData chunk) (after_auth s)
        | AwaitingReady buf =>
            andThen (Ready.onData buf chunk) (after_ready opts s)
        | Splicing postReadyBuffer transformer =>
            forward opts s postReadyBuffer transformer chunk
        | _ => (s, [])
        end
  | RemoteFin =>
      (with_remote s Ended,
       match phase s with
       | Splicing _ _ => [LocalEnd]
       | _ => []
       end)
  | RemoteError err =>
      andThen (remote_error (drop s) err) (fun s' =>
        match phase s' with
        | Authenticating => andThen (Auth.onError err) (after_auth s')
        | AwaitingReady _ => andThen (Ready.onError err) (after_ready opts s')
        | _ => (s', [])
        end)
  | RemoteClose =>
      andThen (remote_close (drop s)) (fun s' =>
        match phase s' with
        | Authenticating => andThen Auth.onClose (after_auth s')
        | AwaitingReady _ => andThen Ready.onClose (after_ready opts s')
        | _ => (s', [])
        end)
  | AuthExpired =>
      match phase s with
      | Authenticating => andThen Auth.onTimeout (after_auth s)
      | _ => (s, [])
      end
  | LocalConnect =>
      match phase s with
      | LocalDialing postReadyBuffer => local_connected opts s postReadyBuffer
      | _ => (s, [])
      end
  | LocalData chunk =>
      match phase s with
      | Splicing _ _ => backward s chunk
      | _ => (s, [])
      end
  | LocalFin =>
      match phase s, remote s with
      | Splicing _ _, Up => (with_remote s Down, [RemoteEnd])
      | _, _ => (s, [])
      end
  | LocalError err =>
      match phase s with
      | LocalDialing _ =>
          andThen (local_error s err)
                  (fun s' => (enter s' (LocalLost false), [LocalEnd]))
      | Splicing _ _ =>
          andThen (local_error s err)
                  (fun s' => (enter s' (LocalLost true), [LocalEnd]))
      | _ => (s, [])
      end
  | LocalClose hadError =>
      match phase s with
      | LocalDialing _ | LocalLost false =>
          (enter s (LocalLost false), [Log info "Local connection closed" []])
      | Splicing _ _ | LocalLost true =>
          (enter s (LocalLost false),
           [Log info "Local connection closed" [];
            Log debug "local connection closed [%s]" [LBool hadError]])
      | _ => (s, [])
      end
  end.

Fixpoint run (opts : CreateTunnelOpts) (s : Session) (evs : list Event)
  : Session * Trace :=
  match evs with
  | [] => (s, [])
  | ev :: rest => andThen (step opts s ev) (fun s' => run opts s' rest)
  end.

(** [createTunnel(opts)], then the events that its sockets deliver. *)
Definition createTunnel (opts : CreateTunnelOpts) (evs : list Event)
  : Session * Trace :=
  run opts {| phase := Dialing; settled := Pending; remote := Up |} evs.

End Tunnel.

(** ** [retryAsync] and the endpoint acquisition of [tnnlr] *)

Module Retry.

Local Open Scope Z_scope.

Section RetryAsync.

(** [fn] is an arbitrary effectful callback: one invocation runs against
    the state of the world [W] and either returns a value or throws. *)
Variables T W : Type.
Variable fn : W -> (T + Thrown) * W.

Inductive Outcome :=
| Returned (v : T)
| Threw (err : Thrown).

Definition retry_log (attempt delayMs : Z) : Action :=
  Log warn "Attempt ${attempt} failed. Retrying in ${delayMs}ms..."
      [LNum attempt; LNum delayMs].

(** The [while (attempt <= retries)] loop, entered with the current value
    of [attempt]. *)
Equations? loop (retries delayMs attempt : Z) (w : W)
  : (Outcome * W) * Trace by wf (Z.to_nat (retries + 1 - attempt)) lt :=
  loop retries delayMs attempt w with inspect (attempt <=? retries) := {
    | exist _ false _ => ((Threw (newError "Unreachable code"), w), [])
    | exist _ true Hle with fn w := {
        | (inl v, w') => ((Returned v, w'), [Call])
        | (inr err, w') with inspect (attempt + 1 >? retries) := {
            | exist _ true _ => ((Threw err, w'), [Call])
            | exist _ false Hgt =>
                emit [Call; retry_log (attempt + 1) delayMs; Sleep delayMs]
                     (loop retries delayMs (attempt + 1) w') } } }.
Proof.
  apply Z.leb_le in Hle. lia.
Qed.

Definition retryAsync (retries delayMs : Z) (w : W) : (Outcome * W) * Trace :=
  loop retries delayMs 0 w.

End RetryAsync.

Arguments Returned {T} v.
Arguments Threw {T} err.
Arguments loop {T W} fn retries delayMs attempt w.
Arguments retryAsync {T W} fn retries delayMs w.

End Retry.

Module Tnnlr.

Import Text.
Local Open Scope Z_scope.

(** [TunnelEndpoint] of endpoint.ts. *)
Record TunnelEndpoint := {
  id : jsstring;
  url : jsstring;
  host : option jsstring;
  port : Z;
  secret_key : jsstring
}.

Record TnnlrOptions := {
  opt_port : Z;
  apiUrl : jsstring;
  apiHostname : jsstring;  (* [new URL(options.apiUrl).hostname] *)
  maxConnections : Z;
  retry : option Z;
  retryDelay : option Z;   (* in whole seconds *)
  opt_localHost : option jsstring
}.

(** [options.retry || 1] *)
Definition retries_of (o : TnnlrOptions) : Z :=
  match retry o with
  | Some r => if r =? 0 then 1 else r
  | None => 1
  end.

(** [options.retryDelay ? options.retryDelay * 1000 : 5000] *)
Definition delay_of (o : TnnlrOptions) : Z :=
  match retryDelay o with
  | Some d => if d =? 0 then 5000 else d * 1000
  | None => 5000
  end.

Definition decimal (n : Z) : jsstring :=
  lit (DecimalString.NilZero.string_of_int (Z.to_int n)).

Definition member (name : string) (value : jsstring) : jsstring :=
  Json.quote (lit name) ++ [0x3A%N] ++ value.

(** [JSON.stringify(tunnelEndpoint)]: the members in the order in which
    [getTunnelEndpoint] builds the object, an undefined [host] left out. *)
Definition stringify_endpoint (e : TunnelEndpoint) : jsstring :=
  [0x7B%N] ++ member "id" (Json.quote (id e))
  ++ [0x2C%N] ++ member "url" (Json.quote (url e))
  ++ match host e with
     | Some h => [0x2C%N] ++ member "host" (Json.quote h)
     | None => []
     end
  ++ [0x2C%N] ++ member "port" (decimal (port e))
  ++ [0x2C%N] ++ member "secret_key" (Json.quote (secret_key e))
  ++ [0x7D%N].

(** [options.localHost || 'localhost'] *)
Definition localHost_of (o : TnnlrOptions) : jsstring :=
  match opt_localHost o with
  | Some [] | None => lit "localhost"
  | Some h => h
  end.

(** The options with which every [runPersistentTunnel] calls
    [createTunnel]. *)
Definition tunnel_opts (o : TnnlrOptions) (e : TunnelEndpoint)
  : Tunnel.CreateTunnelOpts :=
  {| Tunnel.remoteHost := apiHostname o;
     Tunnel.remotePort := port e;
     Tunnel.localHost := localHost_of o;
     Tunnel.localPort := opt_port o;
     Tunnel.secretKey := Some (secret_key e);
     Tunnel.authTimeoutMs := None;
     Tunnel.onRequest := true |}.

Section Acquire.

Variable W : Type.
(** [getTunnelEndpoint({ url, apiKey })], an opaque collaborator. *)
Variable getTunnelEndpoint : W -> (TunnelEndpoint + Thrown) * W.

(** [tnnlr] up to the point where the tunnels are started: the endpoint
    (or what was thrown), the world and the trace. *)
Definition acquire (o : TnnlrOptions) (w : W)
  : (Retry.Outcome TunnelEndpoint * W) * Trace :=
  emit [Log info "Tunneling to ${options.apiUrl}:${options.port}"
            [LStr (apiUrl o); LNum (opt_port o)]]
    (andThen (Retry.retryAsync getTunnelEndpoint (retries_of o) (delay_of o) w)
       (fun r =>
          match fst r with
          | Retry.Returned e =>
              (r, [Log debug
                     "Obtained tunnel endpoint: ${JSON.stringify(tunnelEndpoint)}"
                     [LStr (stringify_endpoint e)]])
          | Retry.Threw _ => (r, [])
          end)).

End Acquire.

Arguments acquire {W} getTunnelEndpoint o w.

End Tnnlr.

(** ** Vocabulary of the statements *)

(** A double quote, and a quoted literal. *)
Definition dq : jsstring := [0x22%N].

Definition quoted (s : string) : jsstring := dq ++ Text.lit s ++ dq.

(** The text of the auth frame around the key. *)
Definition auth_prefix : jsstring :=
  Text.lit "{" ++ quoted "type" ++ Text.lit ":" ++ quoted "auth"
  ++ Text.lit "," ++ quoted "key" ++ Text.lit ":" ++ dq.

Definition auth_suffix : jsstring := dq ++ Text.lit "}".

(** A code point that [JSON.stringify] leaves as it is. *)
Definition plain (c : N) : bool :=
  negb (c <? 0x20)%N && negb (c =? 0x22)%N && negb (c =? 0x5C)%N
  && negb (Text.is_surrogate c).

(** Options for the examples: no [authTimeoutMs], an [onRequest] callback. *)
Definition example_opts (localHost : jsstring) (secretKey : option jsstring)
  : Tunnel.CreateTunnelOpts :=
  {| Tunnel.remoteHost := Text.lit "tunnel.example";
     Tunnel.remotePort := 4000;
     Tunnel.localHost := localHost;
     Tunnel.localPort := 8080;
     Tunnel.secretKey := secretKey;
     Tunnel.authTimeoutMs := None;
     Tunnel.onRequest := true |}.

(** An endpoint and options of [tnnlr] for the examples, and a control
    plane that answers at once. *)
Definition example_endpoint : Tnnlr.TunnelEndpoint :=
  {| Tnnlr.id := Text.lit "t1";
     Tnnlr.url := Text.lit "https://t1.tunnel.example";
     Tnnlr.host := None;
     Tnnlr.port := 4000;
     Tnnlr.secret_key := Text.lit "s3cret" |}.

Definition example_options : Tnnlr.TnnlrOptions :=
  {| Tnnlr.opt_port := 8080;
     Tnnlr.apiUrl := Text.lit "https://tunnel.example";
     Tnnlr.apiHostname := Text.lit "tunnel.example";
     Tnnlr.maxConnections := 10;
     Tnnlr.retry := Some 3%Z;
     Tnnlr.retryDelay := Some 5%Z;
     Tnnlr.opt_localHost := None |}.

Definition answering (e : Tnnlr.TunnelEndpoint) (w : unit)
  : (Tnnlr.TunnelEndpoint + Thrown) * unit :=
  (inl e, w).


(** What [retryAsync] makes of the outcome of the last invocation. *)
Definition outcome_of {T} (last : T + Thrown) : Retry.Outcome T :=
  match last with
  | inl v => Retry.Returned v
  | inr err => Retry.Threw err
  end.



(** The transformer is in the pipeline exactly when the options ask for
    it. *)
Definition transformer_as_configured (opts : Tunnel.CreateTunnelOpts)
  (p : Tunnel.Phase) : bool :=
  match p with
  | Tunnel.Splicing _ (Some _) => Tunnel.wants_transformer opts
  | Tunnel.Splicing _ None => negb (Tunnel.wants_transformer opts)
  | _ => true
  end.

Module Stream.

(** The text that the waiter sees in the bytes of a line. *)
Definition text (l : bytes) : jsstring := Text.trim (Text.toString l).

(** [l] holds no line terminator. *)
Definition unbroken (l : bytes) : bool :=
  match Ready.indexOf LF l with
  | None => true
  | Some _ => false
  end.

Definition ping_line (l : bytes) : bool :=
  unbroken l && Text.jseq (text l) Ready.PING.

Definition ready_line (l : bytes) : bool :=
  unbroken l && Text.jseq (text l) Ready.READY.

(** A complete line that is neither [READY] nor [PING]. *)
Definition other_line (l : bytes) : bool :=
  unbroken l && negb (Text.jseq (text l) Ready.READY)
  && negb (Text.jseq (text l) Ready.PING).

(** The lines, each followed by its terminator. *)
Definition join (ls : list bytes) : bytes :=
  flat_map (fun l => l ++ [LF]) ls.

(** The chunks that a sequence of events of the remote socket carries. *)
Definition chunks_of (evs : list Ready.Event) : list bytes :=
  flat_map (fun ev => match ev with Ready.Data c => [c] | _ => [] end) evs.

Definition size (b : bytes) : Z := Z.of_nat (List.length b).

(** The complete lines of a stream, in order; [cur] holds the bytes of the
    line being read. *)
Fixpoint lines_from (cur : bytes) (b : bytes) : list bytes :=
  match b with
  | [] => []
  | x :: rest =>
      if Byte.eqb x LF then cur :: lines_from [] rest
      else lines_from (cur ++ [x]) rest
  end.

Definition lines (b : bytes) : list bytes := lines_from [] b.

(** The lines that come before the first [READY] line. *)
Fixpoint before_ready (ls : list bytes) : list bytes :=
  match ls with
  | [] => []
  | l :: rest => if ready_line l then [] else l :: before_ready rest
  end.


(** Does a line that is neither [READY] nor [PING] come before the first
    [READY] line? *)
Definition other_before_ready (b : bytes) : bool :=
  existsb other_line (before_ready (lines b)).

(** What the waiter does for [n] successive [PING] lines. *)
Fixpoint pongs (n : nat) : Trace :=
  match n with
  | O => []
  | S k => [Ready.control_log Ready.PING;
            Log debug "Responding to PING with PONG" [];
            RemoteWrite Ready.PONG] ++ pongs k
  end.

End Stream.

(** ** [tnnlr]: the tunnels it starts *)

Module Pool.

Import Tnnlr.
Local Open Scope Z_scope.

(** The loop [for (let i = 0; i < options.maxConnections; i++)] of [tnnlr],
    entered with the current value of [i]: the identifier and the options
    of every [runPersistentTunnel] that it starts. *)
Equations? spawn (o : TnnlrOptions) (e : TunnelEndpoint) (i : Z)
  : list (Z * Tunnel.CreateTunnelOpts)
  by wf (Z.to_nat (maxConnections o - i)) lt :=
  spawn o e i with inspect (i <? maxConnections o) := {
    | exist _ true Hlt => (i + 1, tunnel_opts o e) :: spawn o e (i + 1)
    | exist _ false _ => [] }.
Proof.
  apply Z.ltb_lt in Hlt. lia.
Qed.

Definition tunnels (o : TnnlrOptions) (e : TunnelEndpoint)
  : list (Z * Tunnel.CreateTunnelOpts) :=
  spawn o e 0.

End Pool.

(** ** [runPersistentTunnel] *)

Module Persistent.

Import Tunnel.
Local Open Scope Z_scope.

Definition start_log (id attempt : Z) (opts : CreateTunnelOpts) : Action :=
  Log info
      "Starting tunnel ${id} attempt ${attempt} to ${opts.remoteHost}:${opts.remotePort} -> ${opts.localHost}:${opts.localPort}"
      [LNum id; LNum attempt; LStr (remoteHost opts); LNum (remotePort opts);
       LStr (localHost opts); LNum (localPort opts)].

(** The [while (true)] loop, entered with the current value of [attempt].
    [sessions] holds, for the successive calls of [createTunnel], the events
    that their sockets deliver; the session started when the list is
    exhausted has not received anything yet, and a session whose promise
    stays pending is awaited for ever. The trace is that of the loop's own
    statements. *)
Fixpoint loop (id : Z) (opts : CreateTunnelOpts) (attempt : Z)
  (sessions : list (list Event)) : Trace :=
  start_log id (attempt + 1) opts
  :: match sessions with
     | [] => []
     | evs :: rest =>
         match settled (fst (createTunnel opts evs)) with
         | Pending => []
         | Fulfilled _ =>
             Log warn "Tunnel ${id} attempt ${attempt} finished. Restarting..."
                 [LNum id; LNum (attempt + 1)]
             :: loop id opts (attempt + 1) rest
         | Rejected err =>
             [Log error "Tunnel attempt ${attempt} errored"
                  [LNum (attempt + 1)];
              Log error "" [LErr err]]
             ++ loop id opts (attempt + 1) rest
         end
     end.

Definition runPersistentTunnel (id : Z) (opts : CreateTunnelOpts)
  (sessions : list (list Event)) : Trace :=
  loop id opts 0 sessions.

End Persistent.

(** ** Vocabulary of the session properties *)

Module Session.

Import Tunnel.

(** The calls of [connectLocal] in a trace. *)
Definition local_opens (t : Trace) : Trace :=
  filter (fun a => match a with LocalOpen _ _ => true | _ => false end) t.

(** Was [remoteSocket.end()] called? *)
Definition remote_ended (t : Trace) : bool :=
  existsb (fun a => match a with RemoteEnd => true | _ => false end) t.

(** The chunks that the remote socket delivers, and the local one. *)
Definition remote_chunks (evs : list Event) : list bytes :=
  flat_map (fun ev => match ev with RemoteData c => [c] | _ => [] end) evs.

Definition local_chunks (evs : list Event) : list bytes :=
  flat_map (fun ev => match ev with LocalData c => [c] | _ => [] end) evs.

Definition remote_closed (evs : list Event) : bool :=
  existsb (fun ev => match ev with RemoteClose => true | _ => false end) evs.

Definition local_connected (evs : list Event) : bool :=
  existsb (fun ev => match ev with LocalConnect => true | _ => false end) evs.

(** Both sockets stay open in both directions: neither ends, fails or
    closes. *)
Definition sockets_open (evs : list Event) : bool :=
  forallb (fun ev => match ev with
                     | RemoteFin | RemoteError _ | RemoteClose
                     | LocalFin | LocalError _ | LocalClose _ => false
                     | _ => true
                     end) evs.

(** Has [connectLocal] been called? *)
Definition opened (p : Phase) : bool :=
  match p with
  | LocalDialing _ | Splicing _ _ | LocalLost _ => true
  | _ => false
  end.

Definition dialing (p : Phase) : bool :=
  match p with
  | Dialing => true
  | _ => false
  end.

(** The frame that the session writes when it authenticates, if any. *)
Definition frame_of (opts : CreateTunnelOpts) : list bytes :=
  match secretKey opts with
  | Some (c :: key) => [Text.utf8 (Auth.payload (c :: key))]
  | _ => []
  end.

(** The actions that come before the first call of [connectLocal]. *)
Fixpoint upto_open (t : Trace) : Trace :=
  match t with
  | [] => []
  | LocalOpen _ _ :: _ => []
  | a :: rest => a :: upto_open rest
  end.

Definition ready_log : Action := Log debug "Received READY from remote" [].

(** Where the error of a rejected session can come from: an ['error'] event
    of one of the two sockets, or one of the errors that the handshake
    makes. *)
Definition cause (e : Thrown) (evs : list Event) : Prop :=
  In (RemoteError e) evs \/ In (LocalError e) evs
  \/ e = newError "Connection refused by the server"
  \/ e = newError "Authentication failed"
  \/ e = newError "Authentication timed out"
  \/ e = newError "Unexpected data before READY".

(** The chunks of the remote socket as the local socket gets them: through
    the transformer, if there is one, with its latch at [replaced]. *)
Definition through (host : jsstring) (transformer : option bool)
  (chunks : list bytes) : list bytes :=
  match transformer with
  | None => chunks
  | Some replaced => fst (HostHeader.pipe host replaced chunks)
  end.

(** What the loop of the waiter does: it logs, and it answers [PONG]. *)
Definition waiter_action (a : Action) : bool :=
  match a with
  | Log debug _ _ => true
  | RemoteWrite d =>
      if list_eq_dec Byte.byte_eq_dec d Ready.PONG then true else false
  | _ => false
  end.

(** The invariants of a session: of its local socket, of its promise and of
    what it writes to the remote socket. *)
Definition opens_inv (opts : CreateTunnelOpts) (evs : list Event)
  (s : Tunnel.Session) (t : Trace) : Prop :=
  local_opens t
  = (if opened (phase s)
     then [LocalOpen (localHost opts) (localPort opts)] else [])
  /\ (opened (phase s) = true -> In ready_log (upto_open t))
  /\ (opened (phase s) = false -> local_writes t = [])
  /\ (local_connected evs = false ->
      local_writes t = []
      /\ match phase s with
         | Splicing _ _ | LocalLost true => False
         | _ => True
         end).

Definition settle_inv (evs : list Event) (s : Tunnel.Session) : Prop :=
  match settled s with
  | Pending => remote_closed evs = false
  | Fulfilled _ => remote_closed evs = true
  | Rejected e => cause e evs
  end.

(** The transformer as the ['connected'] handler makes it, and its latch
    after the chunks that it has been given. *)
Definition fresh_transformer (opts : CreateTunnelOpts) : option bool :=
  if wants_transformer opts then Some false else None.

Definition latch_after (opts : CreateTunnelOpts) (chunks : list bytes)
  : option bool :=
  if wants_transformer opts
  then Some (snd (HostHeader.pipe (localHost opts) false chunks))
  else None.

(** All that a session writes to the local socket comes out of one pipe. *)
Definition pipes_inv (opts : CreateTunnelOpts) (evs : list Event)
  (s : Tunnel.Session) (t : Trace) : Prop :=
  exists chunks,
    Forall (fun c => In (RemoteData c) evs) chunks
    /\ local_writes t
       = through (localHost opts) (fresh_transformer opts) chunks
    /\ match phase s with
       | Splicing _ tr => tr = latch_after opts chunks
       | LocalLost _ => True
       | _ => chunks = []
       end.

Definition writes_inv (opts : CreateTunnelOpts) (evs : list Event)
  (s : Tunnel.Session) (t : Trace) : Prop :=
  exists rest,
    remote_writes t = (if dialing (phase s) then [] else frame_of opts) ++ rest
    /\ (dialing (phase s) = true -> rest = [])
    /\ Forall (fun d => d = Ready.PONG \/ In (LocalData d) evs) rest.

End Session.

Definition CRLF : bytes := [x0d; LF].

(** A request and a response for the examples. *)
Definition request_head : bytes :=
  bytes_of "GET / HTTP/1.1" ++ CRLF ++ bytes_of "Host: public.example"
  ++ CRLF ++ CRLF.

Definition response_head : bytes :=
  bytes_of "HTTP/1.1 204 No Content" ++ CRLF ++ CRLF.

(** ** Vocabulary of the waiter, of [tnnlr] and of the transformer *)

(** A byte of ASCII white space other than the line terminator. *)
Definition pad_byte (b : byte) : bool :=
  match b with
  | x09 | x0b | x0c | x0d | x20 => true
  | _ => false
  end.

(** The identifiers [first+1], ..., [first+n]. *)
Fixpoint ids_from (first : Z) (n : nat) : list Z :=
  match n with
  | O => []
  | S k => (first + 1)%Z :: ids_from (first + 1) k
  end.

(** The attempts that a trace of [runPersistentTunnel] starts. *)
Definition started (t : Trace) : list Z :=
  flat_map (fun a => match a with
                     | Log info _ (LNum _ :: LNum attempt :: _) => [attempt]
                     | _ => []
                     end) t.

(** The delays of a trace. *)
Definition sleeps (t : Trace) : list Z :=
  flat_map (fun a => match a with Sleep ms => [ms] | _ => [] end) t.

(** A control plane for the examples that fails once; the world counts its
    invocations. *)
Definition answering_late (w : nat)
  : (Tnnlr.TunnelEndpoint + Thrown) * nat :=
  if (w <? 1)%nat then (inr (newError "unavailable"), S w)
  else (inl example_endpoint, S w).

Definition options_with_retry (r : option Z) : Tnnlr.TnnlrOptions :=
  {| Tnnlr.opt_port := 8080;
     Tnnlr.apiUrl := Text.lit "https://tunnel.example";
     Tnnlr.apiHostname := Text.lit "tunnel.example";
     Tnnlr.maxConnections := 10;
     Tnnlr.retry := r;
     Tnnlr.retryDelay := None;
     Tnnlr.opt_localHost := None |}.

(** A Unicode scalar value: what a well-formed string is made of. *)
Definition scalar (c : N) : bool :=
  (c <? 0x110000)%N && negb (Text.is_surrogate c).

Definition well_formed (s : jsstring) : bool := forallb scalar s.

(** Does the pattern of the transformer match somewhere in [s]? *)
Fixpoint has_host (s : jsstring) : bool :=
  match HostHeader.match_at s with
  | Some _ => true
  | None =>
      match s with
      | [] => false
      | _ :: rest => has_host rest
      end
  end.

(** What the transformer pushes for a chunk in which the pattern does not
    match: the text of the chunk, encoded again. *)
Definition recoded (chunk : bytes) : bytes := Text.utf8 (Text.toString chunk).

(** The pattern does not match in the text of the chunk. *)
Definition hostless_chunk (chunk : bytes) : bool :=
  negb (has_host (Text.toString chunk)).

(** The text [\r\nHost: ] or [\r\nhost: ], by its third character. *)
Definition host_field (h : N) : jsstring :=
  [0x0D; 0x0A; h]%N ++ Text.lit "ost: ".

(** [H] or [h]. *)
Definition host_initial (h : N) : bool := ((h =? 0x48) || (h =? 0x68))%N.


(** The value of a header: one or more characters, none of them white
    space. *)
Definition token (tok : jsstring) : bool :=
  match tok with
  | [] => false
  | _ :: _ => forallb HostHeader.non_ws tok
  end.

(** Nothing, or something that starts with white space. *)
Definition token_end (s : jsstring) : bool :=
  match s with
  | [] => true
  | c :: _ => Text.is_ws c
  end.

Definition blank_line : jsstring := [0x0D; 0x0A; 0x0D; 0x0A]%N.

(** ** Vocabulary of the authentication properties *)

Definition nonempty {A} (l : list A) : bool :=
  match l with
  | [] => false
  | _ :: _ => true
  end.

(** Does the event settle the promise of [authenticateRemote]? *)
Definition decisive (ev : Auth.Event) : bool :=
  match fst (Auth.handle ev) with
  | Pending => false
  | _ => true
  end.

(** Equality under the [i] flag. *)
Definition same_ci (a b : jsstring) : bool :=
  Text.jseq (map Text.lower a) (map Text.lower b).

(** A message that holds the member [key: value], both quoted, somewhere. *)
Definition status_message (pre key ws1 ws2 value post : jsstring) : jsstring :=
  pre ++ dq ++ key ++ dq ++ ws1 ++ [0x3A%N] ++ ws2 ++ dq ++ value ++ dq ++ post.

(** * Properties *)

(** ** Strings *)

Lemma jseq_spec a b : Text.jseq a b = true <-> a = b.
Proof.
  unfold Text.jseq. destruct (list_eq_dec N.eq_dec a b); split;
    intros; congruence.
Qed.

Lemma jseq_refl a : Text.jseq a a = true.
Proof. apply jseq_spec. reflexivity. Qed.

Lemma span_app {A} (p : A -> bool) s :
  fst (Text.span p s) ++ snd (Text.span p s) = s.
Proof.
  induction s as [|c r IH]; simpl; [reflexivity|].
  destruct (p c); [|reflexivity].
  destruct (Text.span p r) as [a b]; simpl in *. now rewrite IH.
Qed.

Lemma span_all {A} (p : A -> bool) s :
  Forall (fun c => p c = true) (fst (Text.span p s)).
Proof.
  induction s as [|c r IH]; simpl; [constructor|].
  destruct (p c) eqn:E; [|constructor].
  destruct (Text.span p r) as [a b]; simpl in *. constructor; assumption.
Qed.

Lemma strip_prefix_spec p s r :
  Text.strip_prefix p s = Some r <-> s = p ++ r.
Proof.
  revert s; induction p as [|a p IH]; intros s; simpl.
  - split; intros; congruence.
  - destruct s as [|b s]; [split; intros; congruence|].
    destruct (N.eqb_spec a b) as [->|Hne].
    + rewrite IH. split; intros; congruence.
    + split; intros; congruence.
Qed.

(** ** Traces *)

Lemma remote_writes_app t1 t2 :
  remote_writes (t1 ++ t2) = remote_writes t1 ++ remote_writes t2.
Proof. unfold remote_writes. apply flat_map_app. Qed.

Lemma local_writes_app t1 t2 :
  local_writes (t1 ++ t2) = local_writes t1 ++ local_writes t2.
Proof. unfold local_writes. apply flat_map_app. Qed.

Lemma calls_app t1 t2 : calls (t1 ++ t2) = (calls t1 + calls t2)%nat.
Proof. unfold calls. now rewrite filter_app, length_app. Qed.

Lemma fst_emit {S} t (r : S * Trace) : fst (emit t r) = fst r.
Proof. reflexivity. Qed.

Lemma snd_emit {S} t (r : S * Trace) : snd (emit t r) = t ++ snd r.
Proof. reflexivity. Qed.

Lemma fst_andThen {S1 S2} (r : S1 * Trace) (k : S1 -> S2 * Trace) :
  fst (andThen r k) = fst (k (fst r)).
Proof. destruct r as [s t]; simpl. now destruct (k s). Qed.

Lemma snd_andThen {S1 S2} (r : S1 * Trace) (k : S1 -> S2 * Trace) :
  snd (andThen r k) = snd r ++ snd (k (fst r)).
Proof. destruct r as [s t]; simpl. now destruct (k s). Qed.

(** ** The ready waiter *)

Section ReadyFacts.

Import Ready.

Lemma indexOf_lt b buf n : indexOf b buf = Some n -> (n < List.length buf)%nat.
Proof.
  revert n; induction buf as [|x r IH]; simpl; intros n H; [discriminate|].
  destruct (Byte.eqb x b); [inversion H; lia|].
  destruct (indexOf b r); simpl in H; inversion H.
  specialize (IH _ eq_refl). lia.
Qed.

Lemma indexOf_app_Some b buf c n :
  indexOf b buf = Some n -> indexOf b (buf ++ c) = Some n.
Proof.
  revert n; induction buf as [|x r IH]; simpl; intros n H; [discriminate|].
  destruct (Byte.eqb x b); [assumption|].
  destruct (indexOf b r); simpl in H; [|discriminate].
  now rewrite (IH _ eq_refl).
Qed.

Lemma indexOf_app_None b l rest :
  indexOf b l = None -> indexOf b (l ++ b :: rest) = Some (List.length l).
Proof.
  induction l as [|x r IH]; simpl; intros H.
  - now rewrite Byte.byte_dec_lb.
  - destruct (Byte.eqb x b); [discriminate|].
    destruct (indexOf b r); [discriminate|]. now rewrite IH.
Qed.

Lemma option_map_S_None (o : option nat) : option_map S o = None <-> o = None.
Proof. destruct o; simpl; split; intros; congruence. Qed.

Lemma indexOf_None_app b l1 l2 :
  indexOf b (l1 ++ l2) = None <-> indexOf b l1 = None /\ indexOf b l2 = None.
Proof.
  induction l1 as [|x r IH]; simpl.
  - tauto.
  - destruct (Byte.eqb x b).
    + split; [discriminate|intros [H _]; discriminate].
    + now rewrite !option_map_S_None.
Qed.

(** The loop, one iteration unfolded. *)
Lemma scan_body buf :
  scan buf =
  match indexOf LF buf with
  | None => (Waiting buf, [])
  | Some nlIndex =>
      if Text.jseq (line_at nlIndex buf) READY then
        (Resolved (remainder_at nlIndex buf),
         [control_log (line_at nlIndex buf)])
      else if Text.jseq (line_at nlIndex buf) PING then
        emit [control_log (line_at nlIndex buf);
              Log debug "Responding to PING with PONG" [];
              RemoteWrite PONG]
             (scan (remainder_at nlIndex buf))
      else if (Z.of_nat (List.length buf) >? CAP)%Z then
        (Failed (newError "Unexpected data before READY"),
         [control_log (line_at nlIndex buf)])
      else (Waiting buf, [control_log (line_at nlIndex buf)])
  end.
Proof.
  funelim (scan buf);
    repeat match goal with
           | H : indexOf LF _ = _ |- _ => rewrite H
           | H : Text.jseq _ _ = _ |- _ => rewrite H
           end; reflexivity.
Qed.

End ReadyFacts.

Section ReadyAppend.

Import Ready Stream.

Lemma line_at_app nl b c :
  (nl < List.length b)%nat -> line_at nl (b ++ c) = line_at nl b.
Proof.
  intros H. unfold line_at. rewrite firstn_app.
  replace (nl - List.length b)%nat with 0%nat by lia.
  now rewrite firstn_O, app_nil_r.
Qed.

Lemma remainder_at_app nl b c :
  (nl < List.length b)%nat ->
  remainder_at nl (b ++ c) = remainder_at nl b ++ c.
Proof.
  intros H. unfold remainder_at. rewrite skipn_app.
  replace (S nl - List.length b)%nat with 0%nat by lia.
  reflexivity.
Qed.

Lemma remainder_at_length nl b :
  (nl < List.length b)%nat ->
  (List.length (remainder_at nl b) < List.length b)%nat.
Proof. intros H. unfold remainder_at. rewrite length_skipn. lia. Qed.

Lemma remote_writes_control l : remote_writes [control_log l] = [].
Proof. reflexivity. Qed.

(** What one pass of the loop over [b] decides is what it decides over
    [b ++ c], up to the residue and to what it leaves in the buffer. *)
Lemma scan_app c : forall b,
  match fst (scan b) with
  | Resolved r => scan (b ++ c) = (Resolved (r ++ c), snd (scan b))
  | Failed e => scan (b ++ c) = (Failed e, snd (scan b))
  | Waiting buf =>
      fst (scan (b ++ c)) = fst (scan (buf ++ c))
      /\ remote_writes (snd (scan (b ++ c)))
         = remote_writes (snd (scan b)) ++ remote_writes (snd (scan (buf ++ c)))
  end.
Proof.
  intros b. remember (List.length b) as n eqn:Hn. revert b Hn.
  induction n as [n IH] using lt_wf_ind. intros b Hn.
  remember (scan b) as sb eqn:Hsb. rewrite scan_body in Hsb.
  destruct (indexOf LF b) as [nl|] eqn:Hnl; [|subst sb; simpl; auto].
  pose proof (indexOf_lt _ _ _ Hnl) as Hlt.
  pose proof (scan_body (b ++ c)) as Hbc.
  rewrite (indexOf_app_Some _ _ c _ Hnl) in Hbc.
  rewrite line_at_app, remainder_at_app in Hbc by assumption.
  destruct (Text.jseq (line_at nl b) READY); [subst sb; exact Hbc|].
  destruct (Text.jseq (line_at nl b) PING).
  - specialize (IH (List.length (remainder_at nl b))
                   ltac:(subst n; now apply remainder_at_length)
                   (remainder_at nl b) eq_refl).
    subst sb. rewrite fst_emit, snd_emit, Hbc.
    destruct (fst (scan (remainder_at nl b))) as [buf|r|e].
    + destruct IH as [IH1 IH2]. rewrite fst_emit, snd_emit. split; [exact IH1|].
      rewrite !remote_writes_app, IH2. now rewrite app_assoc.
    + now rewrite IH.
    + now rewrite IH.
  - destruct (Z.of_nat (List.length b) >? CAP)%Z eqn:E; subst sb; simpl.
    + rewrite Hbc.
      replace (Z.of_nat (List.length (b ++ c)) >? CAP)%Z with true;
        [reflexivity|].
      symmetry. rewrite length_app. apply Z.gtb_lt. apply Z.gtb_lt in E. lia.
    + split; reflexivity.
Qed.

(** A [PING] line at the head of the buffer: one [PONG], and the loop goes
    on with what follows the line. *)
Lemma scan_ping l rest :
  ping_line l = true ->
  scan (l ++ LF :: rest)
  = emit [control_log PING; Log debug "Responding to PING with PONG" [];
          RemoteWrite PONG] (scan rest).
Proof.
  unfold ping_line, unbroken. intros H. apply andb_true_iff in H.
  destruct H as [Hu Ht].
  destruct (indexOf LF l) eqn:Hnl; [discriminate|].
  apply jseq_spec in Ht.
  rewrite scan_body, (indexOf_app_None _ _ rest Hnl).
  unfold line_at, remainder_at.
  rewrite firstn_app, Nat.sub_diag, firstn_all, firstn_O, app_nil_r.
  change (S (List.length l)) with (1 + List.length l)%nat.
  replace (l ++ LF :: rest) with ((l ++ [LF]) ++ rest)
    by now rewrite <- app_assoc.
  rewrite skipn_app, skipn_all2 by (rewrite length_app; simpl; lia).
  rewrite length_app. simpl List.length.
  replace (1 + List.length l - (List.length l + 1))%nat with 0%nat by lia.
  simpl. fold (text l). rewrite Ht. reflexivity.
Qed.


Lemma scan_pings ls rest :
  forallb ping_line ls = true ->
  scan (join ls ++ rest) = emit (pongs (List.length ls)) (scan rest).
Proof.
  induction ls as [|l ls IH]; simpl; intros H.
  - now destruct (scan rest).
  - apply andb_true_iff in H. destruct H as [Hl Hls].
    rewrite <- !app_assoc. simpl. rewrite (scan_ping _ _ Hl), (IH Hls).
    unfold emit; simpl. reflexivity.
Qed.

End ReadyAppend.

Section ReadyStreams.

Import Ready Stream.

Lemma head_line l rest :
  unbroken l = true ->
  indexOf LF (l ++ LF :: rest) = Some (List.length l)
  /\ line_at (List.length l) (l ++ LF :: rest) = text l
  /\ remainder_at (List.length l) (l ++ LF :: rest) = rest.
Proof.
  unfold unbroken. intros H.
  destruct (indexOf LF l) eqn:Hnl; [discriminate|].
  split; [now apply indexOf_app_None|]. split.
  - unfold line_at, text.
    rewrite firstn_app, Nat.sub_diag, firstn_all, firstn_O, app_nil_r.
    reflexivity.
  - unfold remainder_at.
    replace (l ++ LF :: rest) with ((l ++ [LF]) ++ rest)
      by now rewrite <- app_assoc.
    rewrite skipn_app, skipn_all2 by (rewrite length_app; simpl; lia).
    rewrite length_app. simpl List.length.
    replace (S (List.length l) - (List.length l + 1))%nat with 0%nat by lia.
    reflexivity.
Qed.

Lemma scan_unbroken b : unbroken b = true -> scan b = (Waiting b, []).
Proof.
  unfold unbroken. intros H. rewrite scan_body.
  now destruct (indexOf LF b).
Qed.

Lemma scan_ready r tail :
  ready_line r = true ->
  scan (r ++ LF :: tail) = (Resolved tail, [control_log READY]).
Proof.
  unfold ready_line. intros H. apply andb_true_iff in H.
  destruct H as [Hu Ht]. apply jseq_spec in Ht.
  destruct (head_line r tail Hu) as (Hi & Hl & Hr).
  rewrite scan_body, Hi, Hl, Hr, Ht. reflexivity.
Qed.

Lemma scan_other j rest :
  other_line j = true ->
  scan (j ++ LF :: rest)
  = (if (size (j ++ LF :: rest) >? CAP)%Z
     then Failed (newError "Unexpected data before READY")
     else Waiting (j ++ LF :: rest),
     [control_log (text j)]).
Proof.
  unfold other_line. intros H. apply andb_true_iff in H.
  destruct H as [H Hp]. apply andb_true_iff in H. destruct H as [Hu Hr].
  apply negb_true_iff in Hp, Hr.
  destruct (head_line j rest Hu) as (Hi & Hl & _).
  rewrite scan_body, Hi, Hl, Hr, Hp. unfold size.
  now destruct (Z.of_nat (List.length (j ++ LF :: rest)) >? CAP)%Z.
Qed.

(** The loop rejects for one reason only. *)
Lemma scan_failed b e :
  fst (scan b) = Failed e -> e = newError "Unexpected data before READY".
Proof.
  remember (List.length b) as n eqn:Hn. revert b Hn.
  induction n as [n IH] using lt_wf_ind. intros b Hn.
  rewrite scan_body.
  destruct (indexOf LF b) as [nl|] eqn:Hnl; [|discriminate].
  pose proof (indexOf_lt _ _ _ Hnl) as Hlt.
  destruct (Text.jseq (line_at nl b) READY); [discriminate|].
  destruct (Text.jseq (line_at nl b) PING).
  - rewrite fst_emit. apply (IH (List.length (remainder_at nl b))); [|reflexivity].
    subst n. now apply remainder_at_length.
  - destruct (Z.of_nat (List.length b) >? CAP)%Z; simpl; congruence.
Qed.

Lemma chunks_of_data chunks : chunks_of (map Data chunks) = chunks.
Proof. induction chunks; simpl; congruence. Qed.

Lemma listen_resolved r evs : listen (Resolved r) evs = (Resolved r, []).
Proof. now destruct evs. Qed.

Lemma listen_failed e evs : listen (Failed e) evs = (Failed e, []).
Proof. now destruct evs. Qed.

(** The waiter, fed chunk by chunk, is where one pass of the loop over the
    concatenation of the chunks it consumed would be, and has written the
    same replies; unless an ['error'] or a ['close'] ended the wait. *)
Lemma listen_events evs : forall h buf t,
  scan h = (Waiting buf, t) ->
  (exists pre post,
      chunks_of evs = pre ++ post
      /\ fst (scan (h ++ concat pre)) = fst (listen (Waiting buf) evs)
      /\ remote_writes (snd (scan (h ++ concat pre)))
         = remote_writes t ++ remote_writes (snd (listen (Waiting buf) evs))
      /\ (forall b, fst (listen (Waiting buf) evs) = Waiting b -> post = []))
  \/ (exists e, fst (listen (Waiting buf) evs) = Failed e /\ In (Error e) evs)
  \/ (fst (listen (Waiting buf) evs)
      = Failed (newError "Socket closed before READY") /\ In Close evs).
Proof.
  induction evs as [|ev rest IH]; intros h buf t Hh.
  - left. exists [], []. simpl. rewrite !app_nil_r, Hh. simpl.
    repeat split; auto.
  - destruct ev as [c|e|].
    + simpl listen. unfold onData.
      pose proof (scan_app c h) as Happ. rewrite Hh in Happ. simpl in Happ.
      destruct Happ as [Hfst Hw].
      destruct (scan (buf ++ c)) as [w1 t1] eqn:Hs1. simpl in Hfst, Hw.
      destruct w1 as [b1|r1|e1].
      * destruct (scan (h ++ c)) as [w2 t2] eqn:Hs2. simpl in Hfst, Hw.
        subst w2.
        destruct (IH (h ++ c) b1 t2 Hs2) as [(pre & post & Hc & Hf & Hwr & Hp)|[(e & Hf & Hin)|[Hf Hin]]].
        -- left. exists (c :: pre), post. simpl concat. simpl chunks_of.
           rewrite Hc, app_assoc. rewrite fst_andThen, snd_andThen. simpl fst.
           simpl snd. repeat split; auto.
           rewrite Hwr, Hw, remote_writes_app, app_assoc. reflexivity.
        -- right. left. exists e. rewrite fst_andThen. simpl.
           split; [exact Hf|now right].
        -- right. right. rewrite fst_andThen. simpl.
           split; [exact Hf|now right].
      * left. exists [c], (chunks_of rest). simpl. rewrite listen_resolved.
        rewrite !app_nil_r, Hfst, Hw. repeat split; auto. discriminate.
      * left. exists [c], (chunks_of rest). simpl. rewrite listen_failed.
        rewrite !app_nil_r, Hfst, Hw. repeat split; auto. discriminate.
    + right. left. exists e. simpl. rewrite listen_failed.
      split; [reflexivity|now left].
    + right. right. simpl. rewrite listen_failed.
      split; [reflexivity|now left].
Qed.

End ReadyStreams.

Section ReadyClaims.

Import Ready Stream.

Lemma unbroken_repeat x n :
  Byte.eqb x LF = false -> unbroken (repeat x n) = true.
Proof.
  intros Hx. unfold unbroken.
  assert (H : indexOf LF (repeat x n) = None).
  { induction n as [|n IH]; simpl; [reflexivity|]. now rewrite Hx, IH. }
  now rewrite H.
Qed.

Lemma unbroken_app a b :
  unbroken a = true -> unbroken b = true -> unbroken (a ++ b) = true.
Proof.
  unfold unbroken. intros Ha Hb.
  destruct (indexOf LF a) eqn:Ea; [discriminate|].
  destruct (indexOf LF b) eqn:Eb; [discriminate|].
  now rewrite (proj2 (indexOf_None_app LF a b) (conj Ea Eb)).
Qed.

(** Chunks without a line terminator only ever accumulate: the loop is not
    entered, so the size of the buffer is never looked at. *)
Lemma unbroken_chunks_accumulate chunks : forall buf,
  unbroken buf = true ->
  forallb unbroken chunks = true ->
  listen (Waiting buf) (map Data chunks) = (Waiting (buf ++ concat chunks), []).
Proof.
  induction chunks as [|c rest IH]; intros buf Hb Hc; simpl.
  - now rewrite app_nil_r.
  - apply andb_true_iff in Hc. destruct Hc as [Hc Hrest].
    unfold onData. rewrite (scan_unbroken _ (unbroken_app _ _ Hb Hc)).
    simpl. rewrite (IH _ (unbroken_app _ _ Hb Hc) Hrest).
    now rewrite app_assoc.
Qed.

Lemma unbroken_bytes_accumulate n m :
  waitForReady [Data (repeat x61 n); Data (repeat x61 n); Data (repeat x61 m)]
  = (Waiting (repeat x61 n ++ repeat x61 n ++ repeat x61 m), []).
Proof.
  assert (Hn : unbroken (repeat x61 n) = true)
    by (apply unbroken_repeat; reflexivity).
  assert (Hm : unbroken (repeat x61 m) = true)
    by (apply unbroken_repeat; reflexivity).
  generalize dependent (repeat x61 m). intros c Hc.
  generalize dependent (repeat x61 n). intros a Ha.
  unfold waitForReady.
  change [Data a; Data a; Data c] with (map Data [a; a; c]).
  rewrite (unbroken_chunks_accumulate [a; a; c] [] eq_refl).
  - simpl. now rewrite app_nil_r.
  - simpl. now rewrite Ha, Hc.
Qed.

Lemma size_app a b : size (a ++ b) = (size a + size b)%Z.
Proof. unfold size. rewrite length_app. lia. Qed.

Lemma size_repeat x n : (0 <= n)%Z -> size (repeat x (Z.to_nat n)) = n.
Proof. intros H. unfold size. now rewrite repeat_length, Z2Nat.id. Qed.

(** C2. 65 537 bytes without a line terminator arrive before READY, in
    chunks of 32 768, 32 768 and 1 bytes: the waiter does not fail, it keeps
    waiting with all of them in its buffer, which is over the cap. *)
Theorem cap_not_enforced_without_line_terminator :
  waitForReady [Data (repeat x61 (Z.to_nat 32768));
                Data (repeat x61 (Z.to_nat 32768));
                Data (repeat x61 (Z.to_nat 1))]
  = (Waiting (repeat x61 (Z.to_nat 32768) ++ repeat x61 (Z.to_nat 32768)
              ++ repeat x61 (Z.to_nat 1)), [])
  /\ size (repeat x61 (Z.to_nat 32768) ++ repeat x61 (Z.to_nat 32768)
           ++ repeat x61 (Z.to_nat 1)) = 65537%Z
  /\ (65537 > CAP)%Z.
Proof.
  split; [apply unbroken_bytes_accumulate|]. split.
  - rewrite !size_app, !size_repeat by lia. reflexivity.
  - unfold CAP. lia.
Qed.

(** With an unrecognised line at the head of the buffer the cap is
    enforced: the chunk that takes the buffer over 64 KiB fails the wait. *)
Lemma cap_enforced_behind_other_line j rest chunk :
  other_line j = true ->
  (size (j ++ LF :: rest ++ chunk) > CAP)%Z ->
  onData (j ++ LF :: rest) chunk
  = (Failed (newError "Unexpected data before READY"), [control_log (text j)]).
Proof.
  intros Hj Hsize. unfold onData.
  replace ((j ++ LF :: rest) ++ chunk) with (j ++ LF :: rest ++ chunk)
    by now rewrite <- app_assoc.
  rewrite (scan_other _ _ Hj).
  replace (size (j ++ LF :: rest ++ chunk) >? CAP)%Z with true; [reflexivity|].
  symmetry. apply Z.gtb_lt. lia.
Qed.










End ReadyClaims.

Section ReadyTheorems.

Import Ready Stream.

Lemma no_error_in_data e chunks : ~ In (Error e) (map Data chunks).
Proof. intros H. apply in_map_iff in H. destruct H as (c & Hc & _). discriminate. Qed.

Lemma no_close_in_data chunks : ~ In Close (map Data chunks).
Proof. intros H. apply in_map_iff in H. destruct H as (c & Hc & _). discriminate. Qed.

Lemma scan_empty : scan [] = (Waiting [], []).
Proof. now apply scan_unbroken. Qed.




(** The stream is [PING] lines, then a line [j] that is neither [READY] nor
    [PING], then anything. *)
Lemma other_line_blocks pings j rest evs :
  forallb ping_line pings = true ->
  other_line j = true ->
  concat (chunks_of evs) = join pings ++ j ++ LF :: rest ->
  match fst (waitForReady evs) with
  | Resolved _ => False
  | Waiting buf => buf = j ++ LF :: rest /\ (size buf <= CAP)%Z
  | Failed e =>
      e = newError "Unexpected data before READY"
      \/ In (Error e) evs
      \/ (e = newError "Socket closed before READY" /\ In Close evs)
  end.
Proof.
  intros Hp Hj Hs.
  assert (Hscan : fst (scan (concat (chunks_of evs)))
                  = if (size (j ++ LF :: rest) >? CAP)%Z
                    then Failed (newError "Unexpected data before READY")
                    else Waiting (j ++ LF :: rest)).
  { rewrite Hs, (scan_pings _ _ Hp), (scan_other _ _ Hj). reflexivity. }
  unfold waitForReady.
  destruct (listen_events evs [] [] [] scan_empty)
    as [(pre & post & Hc & Hf & _ & Hpost)|[(e & Hf & Hin)|[Hf Hin]]].
  - simpl in Hf. rewrite <- Hf.
    pose proof (scan_app (concat post) (concat pre)) as Happ.
    unfold bytes in *. rewrite <- concat_app, <- Hc in Happ.
    destruct (fst (scan (concat pre))) as [b|r0|e] eqn:Hpre.
    + specialize (Hpost b (eq_sym Hf)). subst post.
      rewrite app_nil_r in Hc. rewrite <- Hc, Hscan in Hpre.
      destruct (size (j ++ LF :: rest) >? CAP)%Z eqn:E; [discriminate|].
      inversion Hpre. split; [reflexivity|].
      rewrite Z.gtb_ltb in E. apply Z.ltb_ge in E. exact E.
    + rewrite Happ in Hscan. simpl in Hscan.
      destruct (size (j ++ LF :: rest) >? CAP)%Z; discriminate.
    + left. apply (scan_failed (concat pre)). exact Hpre.
  - rewrite Hf. right. left. exact Hin.
  - rewrite Hf. right. right. split; [reflexivity|exact Hin].
Qed.

Lemma unbroken_snoc cur x :
  unbroken cur = true -> Byte.eqb x LF = false ->
  unbroken (cur ++ [x]) = true.
Proof.
  intros Hc Hx. apply unbroken_app; [exact Hc|].
  unfold unbroken. simpl. now rewrite Hx.
Qed.

(** A stream is its complete lines, each with its terminator, and an
    unfinished rest. *)
Lemma lines_from_spec b : forall cur,
  unbroken cur = true ->
  exists tail,
    cur ++ b = join (lines_from cur b) ++ tail
    /\ unbroken tail = true
    /\ forallb unbroken (lines_from cur b) = true.
Proof.
  induction b as [|x rest IH]; intros cur Hc.
  - exists cur. simpl. now rewrite app_nil_r.
  - simpl. destruct (Byte.eqb x LF) eqn:Ex.
    + apply Byte.byte_dec_bl in Ex. subst x.
      destruct (IH [] eq_refl) as (tail & Hs & Ht & Hl).
      exists tail. simpl in Hs. simpl. rewrite Hc, Hl.
      repeat split; auto. rewrite <- !app_assoc. simpl. now rewrite <- Hs.
    + destruct (IH (cur ++ [x]) (unbroken_snoc _ _ Hc Ex))
        as (tail & Hs & Ht & Hl).
      exists tail. rewrite <- app_assoc in Hs. simpl in Hs. auto.
Qed.

(** The first line that is not a [PING] line, if it comes before any
    [READY] line and is not one itself. *)
Lemma first_other_line ls :
  forallb unbroken ls = true ->
  existsb other_line (before_ready ls) = true ->
  exists pings j after,
    ls = pings ++ j :: after
    /\ forallb ping_line pings = true
    /\ other_line j = true.
Proof.
  induction ls as [|l ls IH]; simpl; intros Hu H; [discriminate|].
  apply andb_true_iff in Hu. destruct Hu as [Hl Hls].
  destruct (ready_line l) eqn:Er; [discriminate|].
  simpl in H. destruct (other_line l) eqn:Eo.
  - exists [], l, ls. repeat split; auto.
  - simpl in H. destruct (IH Hls H) as (pings & j & after & Hs & Hp & Hj).
    exists (l :: pings), j, after. subst ls. simpl. rewrite Hp.
    repeat split; auto.
    unfold ping_line, ready_line, other_line in *. rewrite Hl in *.
    simpl in *. destruct (Text.jseq (text l) READY); [discriminate|].
    simpl in Eo. destruct (Text.jseq (text l) PING); [reflexivity|discriminate].
Qed.

Lemma join_app a b : join (a ++ b) = join a ++ join b.
Proof. unfold join. apply flat_map_app. Qed.

Lemma other_before_ready_split b :
  other_before_ready b = true ->
  exists pings j rest,
    b = join pings ++ j ++ LF :: rest
    /\ forallb ping_line pings = true
    /\ other_line j = true.
Proof.
  unfold other_before_ready, lines. intros H.
  destruct (lines_from_spec b [] eq_refl) as (tail & Hs & _ & Hl).
  destruct (first_other_line _ Hl H) as (pings & j & after & Hls & Hp & Hj).
  exists pings, j, (join after ++ tail). simpl in Hs.
  rewrite Hs, Hls, join_app. simpl. rewrite <- !app_assoc. simpl.
  repeat split; auto.
Qed.








(** C9. A complete line that is neither [READY] nor [PING] arrives before
    any [READY] line, and anything at all follows it, cut into chunks in any
    way and with any ['error'] and ['close'] events in between: the waiter
    never resolves. While it waits, the line is still at the head of its
    buffer, with everything that followed, within the cap; it ends only by
    the protocol error of the cap, by an error of the socket or by its
    close. *)
Theorem unrecognised_line_blocks_ready evs :
  other_before_ready (concat (chunks_of evs)) = true ->
  match fst (waitForReady evs) with
  | Resolved _ => False
  | Waiting buf =>
      exists j rest,
        buf = j ++ LF :: rest /\ other_line j = true /\ (size buf <= CAP)%Z
  | Failed e =>
      e = newError "Unexpected data before READY"
      \/ In (Error e) evs
      \/ (e = newError "Socket closed before READY" /\ In Close evs)
  end.
Proof.
  intros H.
  destruct (other_before_ready_split _ H) as (pings & j & rest & Hs & Hp & Hj).
  pose proof (other_line_blocks pings j rest evs Hp Hj Hs) as Hb.
  destruct (fst (waitForReady evs)) as [buf|r|e]; auto.
  destruct Hb as [Hbuf Hsize]. exists j, rest. auto.
Qed.

Lemma unrecognised_line_blocks_ready_witness :
  other_before_ready
    (concat
       (chunks_of
          [Data (bytes_of "PING" ++ LF :: bytes_of "HEL");
           Data (bytes_of "LO" ++ LF :: bytes_of "READY"
                 ++ LF :: bytes_of "DATA")]))
  = true
  /\ match
       fst (waitForReady
              [Data (bytes_of "PING" ++ LF :: bytes_of "HEL");
               Data (bytes_of "LO" ++ LF :: bytes_of "READY"
                     ++ LF :: bytes_of "DATA")])
     with
     | Resolved _ => False
     | Waiting buf =>
         exists j rest,
           buf = j ++ LF :: rest /\ other_line j = true
           /\ (size buf <= CAP)%Z
     | Failed e =>
         e = newError "Unexpected data before READY"
         \/ In (Error e)
              [Data (bytes_of "PING" ++ LF :: bytes_of "HEL");
               Data (bytes_of "LO" ++ LF :: bytes_of "READY"
                     ++ LF :: bytes_of "DATA")]
         \/ (e = newError "Socket closed before READY"
             /\ In Close
                  [Data (bytes_of "PING" ++ LF :: bytes_of "HEL");
                   Data (bytes_of "LO" ++ LF :: bytes_of "READY"
                         ++ LF :: bytes_of "DATA")])
     end.
Proof.
  split; [reflexivity|].
  apply (unrecognised_line_blocks_ready
           [Data (bytes_of "PING" ++ LF :: bytes_of "HEL");
            Data (bytes_of "LO" ++ LF :: bytes_of "READY"
                  ++ LF :: bytes_of "DATA")]).
  reflexivity.
Defined.

End ReadyTheorems.

(** ** The authenticator *)

Section AuthFacts.

Import Text.
Local Open Scope N_scope.

Lemma to_N_byte_of_N n : Byte.to_N (byte_of_N n) = n mod 256.
Proof.
  unfold byte_of_N.
  destruct (Byte.of_N (n mod 256)) as [b|] eqn:E.
  - now apply Byte.to_of_N.
  - apply Byte.of_N_None_iff in E.
    pose proof (N.mod_upper_bound n 256 ltac:(discriminate)). lia.
Qed.

(** A byte with its high bit set is not a line feed. *)
Lemma high_byte_not_LF n :
  N.testbit n 7 = true -> Byte.eqb (byte_of_N n) LF = false.
Proof.
  intros H. destruct (Byte.eqb (byte_of_N n) LF) eqn:E; [|reflexivity].
  apply Byte.byte_dec_bl in E.
  pose proof (to_N_byte_of_N n) as Hn. rewrite E in Hn.
  assert (Hb : N.testbit (n mod 2 ^ 8) 7 = true).
  { rewrite N.mod_pow2_bits_low by reflexivity. exact H. }
  change (2 ^ 8) with 256 in Hb. rewrite <- Hn in Hb. discriminate.
Qed.

Lemma lor_high x y : N.testbit x 7 = true -> N.testbit (N.lor x y) 7 = true.
Proof. intros H. now rewrite N.lor_spec, H. Qed.

Lemma encode_cp_no_LF c :
  c <> 0x0A -> Ready.indexOf LF (encode_cp c) = None.
Proof.
  intros Hc. unfold encode_cp.
  destruct (c <? 0x80) eqn:E1.
  - simpl. apply N.ltb_lt in E1.
    destruct (Byte.eqb (byte_of_N c) LF) eqn:E; [|reflexivity].
    apply Byte.byte_dec_bl in E.
    pose proof (to_N_byte_of_N c) as Hn. rewrite E in Hn.
    rewrite N.mod_small in Hn by lia. now subst c.
  - destruct (c <? 0x800); [|destruct (is_surrogate c);
                              [reflexivity|destruct (c <? 0x10000)]];
      cbn [Ready.indexOf];
      rewrite ?high_byte_not_LF by (now apply lor_high); reflexivity.
Qed.

Lemma indexOf_flat_map_None {A} (f : A -> bytes) l :
  Forall (fun x => Ready.indexOf LF (f x) = None) l ->
  Ready.indexOf LF (flat_map f l) = None.
Proof.
  induction 1 as [|x l Hx Hl IH]; simpl; [reflexivity|].
  apply indexOf_None_app. split; assumption.
Qed.

Lemma hex_digit_not_LF n : Json.hex_digit n <> 0x0A.
Proof. unfold Json.hex_digit. destruct (n <? 10); lia. Qed.

Lemma quote_cp_no_LF c : Forall (fun x => x <> 0x0A) (Json.quote_cp c).
Proof.
  unfold Json.quote_cp.
  repeat match goal with
         | |- context [if ?b then _ else _] => destruct b eqn:?
         end;
    try (repeat constructor; discriminate).
  - unfold Json.unicode_escape. simpl.
    repeat constructor; try discriminate; apply hex_digit_not_LF.
  - constructor; [|constructor]. now apply N.eqb_neq.
Qed.

Lemma stringify_auth_shape key :
  Json.stringify_auth key
  = auth_prefix ++ flat_map Json.quote_cp key ++ auth_suffix.
Proof.
  unfold Json.stringify_auth, Json.quote, auth_prefix, auth_suffix, quoted, dq.
  rewrite <- !app_assoc. reflexivity.
Qed.

Lemma stringify_auth_no_LF key :
  Forall (fun x => x <> 0x0A) (Json.stringify_auth key).
Proof.
  rewrite stringify_auth_shape.
  apply Forall_app. split; [|apply Forall_app; split].
  - unfold auth_prefix. simpl. repeat constructor; discriminate.
  - induction key as [|c key IH]; simpl; [constructor|].
    apply Forall_app. split; [apply quote_cp_no_LF|exact IH].
  - unfold auth_suffix. simpl. repeat constructor; discriminate.
Qed.

(** The serialised object holds no line feed: the one that ends the frame is
    the only one. *)
Lemma frame_unbroken key :
  Ready.indexOf LF (utf8 (Json.stringify_auth key)) = None.
Proof.
  unfold utf8. apply indexOf_flat_map_None.
  eapply Forall_impl; [|apply stringify_auth_no_LF].
  intros c Hc. now apply encode_cp_no_LF.
Qed.

Lemma utf8_app a b : utf8 (a ++ b) = utf8 a ++ utf8 b.
Proof. unfold utf8. apply flat_map_app. Qed.

(** A key of plain code points goes into the frame as it is. *)
Lemma quote_plain key :
  forallb plain key = true -> flat_map Json.quote_cp key = key.
Proof.
  induction key as [|c key IH]; simpl; intros H; [reflexivity|].
  apply andb_true_iff in H. destruct H as [Hc Hk]. rewrite (IH Hk).
  unfold plain in Hc.
  repeat match type of Hc with
         | (_ && _)%bool = true =>
             let H1 := fresh in
             apply andb_true_iff in Hc; destruct Hc as [Hc H1];
             apply negb_true_iff in H1
         end.
  apply negb_true_iff in Hc. unfold Json.quote_cp.
  assert (Hlow : forall k, k < 0x20 -> (c =? k) = false).
  { intros k Hk'. apply N.eqb_neq. apply N.ltb_ge in Hc. lia. }
  rewrite !Hlow by reflexivity. rewrite H1, H0, Hc, H. reflexivity.
Qed.

Lemma listen_fulfilled evs : Auth.listen (Fulfilled tt) evs = (Fulfilled tt, []).
Proof. now destruct evs. Qed.

Lemma listen_rejected e evs : Auth.listen (Rejected e) evs = (Rejected e, []).
Proof. now destruct evs. Qed.

(** While it waits for the indicator the authenticator writes nothing. *)
Lemma listen_writes_nothing evs p :
  remote_writes (snd (Auth.listen p evs)) = [].
Proof.
  revert p. induction evs as [|ev rest IH]; intros p.
  - now destruct p.
  - destruct p; try reflexivity. simpl Auth.listen.
    rewrite snd_andThen, remote_writes_app, IH, app_nil_r.
    destruct ev; try reflexivity.
    simpl. unfold Auth.onData.
    repeat match goal with
           | |- context [if ?b then _ else _] => destruct b
           end; reflexivity.
Qed.

End AuthFacts.

Section AuthTheorems.

Import Text.

Lemma andThen_ext {S1 S2} (r : S1 * Trace) (k1 k2 : S1 -> S2 * Trace) :
  (forall s, k1 s = k2 s) -> andThen r k1 = andThen r k2.
Proof. intros H. destruct r as [s t]. simpl. now rewrite H. Qed.

Lemma payload_bytes key :
  utf8 (Auth.payload key)
  = utf8 (auth_prefix ++ flat_map Json.quote_cp key ++ auth_suffix) ++ [LF].
Proof.
  unfold Auth.payload. now rewrite utf8_app, stringify_auth_shape.
Qed.

(** C7, as amended. With an absent or empty key [authenticateRemote]
    succeeds at once, and neither writes nor listens, whatever the socket
    delivers. With any other key it writes exactly one frame, whatever
    follows: the text of the JSON object with members [type] and [key],
    encoded as UTF-8, then one line feed, the only one of the frame. *)
Theorem authenticate_writes_one_frame secretKey evs :
  match secretKey with
  | None => Auth.run secretKey evs = (Fulfilled tt, [])
  | Some [] => Auth.run secretKey evs = (Fulfilled tt, [])
  | Some (c :: key) =>
      remote_writes (snd (Auth.run secretKey evs))
      = [utf8 (auth_prefix ++ flat_map Json.quote_cp (c :: key) ++ auth_suffix)
         ++ [LF]]
      /\ Ready.indexOf LF
           (utf8 (auth_prefix ++ flat_map Json.quote_cp (c :: key)
                  ++ auth_suffix))
         = None
  end.
Proof.
  destruct secretKey as [[|c key]|].
  - unfold Auth.run. simpl. now rewrite listen_fulfilled.
  - split.
    + unfold Auth.run. rewrite snd_andThen, remote_writes_app.
      rewrite listen_writes_nothing, app_nil_r.
      cbn [Auth.authenticateRemote snd remote_writes flat_map app].
      now rewrite payload_bytes.
    + rewrite <- stringify_auth_shape. apply frame_unbroken.
  - unfold Auth.run. simpl. now rewrite listen_fulfilled.
Qed.

(** A key of plain code points stands in the frame as it is. *)
Lemma plain_key_frame key :
  forallb plain key = true ->
  utf8 (Auth.payload key) = utf8 (auth_prefix ++ key ++ auth_suffix) ++ [LF].
Proof. intros H. now rewrite payload_bytes, (quote_plain _ H). Qed.

(** C7, as stated, fails: the empty string is a key that is present, and no
    frame is written for it. *)
Lemma empty_key_present_but_no_frame :
  remote_writes (snd (Auth.run (Some []) [])) = []
  /\ remote_writes (snd (Auth.run (Some []) [])) <> [utf8 (Auth.payload [])].
Proof. split; [reflexivity|discriminate]. Qed.

Lemma step_empty_key rh rp lh lp t rq s ev :
  Tunnel.step
    {| Tunnel.remoteHost := rh; Tunnel.remotePort := rp;
       Tunnel.localHost := lh; Tunnel.localPort := lp;
       Tunnel.secretKey := Some []; Tunnel.authTimeoutMs := t;
       Tunnel.onRequest := rq |} s ev
  = Tunnel.step
      {| Tunnel.remoteHost := rh; Tunnel.remotePort := rp;
         Tunnel.localHost := lh; Tunnel.localPort := lp;
         Tunnel.secretKey := None; Tunnel.authTimeoutMs := t;
         Tunnel.onRequest := rq |} s ev.
Proof. destruct ev; reflexivity. Qed.

(** C10. The empty string as key is an absent key: [authenticateRemote]
    succeeds at once, writes no frame and handles no event, whatever the
    socket delivers, and the whole session runs as it does without a key. *)
Theorem empty_key_is_absent_key aevs rh rp lh lp t rq evs :
  Auth.run (Some []) aevs = (Fulfilled tt, [])
  /\ Auth.run (Some []) aevs = Auth.run None aevs
  /\ Tunnel.createTunnel
       {| Tunnel.remoteHost := rh; Tunnel.remotePort := rp;
          Tunnel.localHost := lh; Tunnel.localPort := lp;
          Tunnel.secretKey := Some []; Tunnel.authTimeoutMs := t;
          Tunnel.onRequest := rq |} evs
     = Tunnel.createTunnel
         {| Tunnel.remoteHost := rh; Tunnel.remotePort := rp;
            Tunnel.localHost := lh; Tunnel.localPort := lp;
            Tunnel.secretKey := None; Tunnel.authTimeoutMs := t;
            Tunnel.onRequest := rq |} evs.
Proof.
  assert (H : Auth.run (Some []) aevs = (Fulfilled tt, [])).
  { unfold Auth.run. simpl. now rewrite listen_fulfilled. }
  split; [exact H|]. split.
  - rewrite H. unfold Auth.run. simpl. now rewrite listen_fulfilled.
  - unfold Tunnel.createTunnel.
    generalize {| Tunnel.phase := Tunnel.Dialing; Tunnel.settled := Pending;
                  Tunnel.remote := Tunnel.Up |}.
    induction evs as [|ev rest IH]; intros s; [reflexivity|].
    simpl. rewrite step_empty_key. apply andThen_ext. exact IH.
Qed.

End AuthTheorems.

(** ** The Host-header transformer *)

Section HostFacts.

Import Text HostHeader.

Lemma transform_latched host chunk : transform host true chunk = (chunk, true).
Proof. reflexivity. Qed.

Lemma pipe_latched host chunks : pipe host true chunks = (chunks, true).
Proof.
  induction chunks as [|c rest IH]; simpl; [reflexivity|]. now rewrite IH.
Qed.

Lemma pipe_app host chunks1 : forall replaced chunks2,
  pipe host replaced (chunks1 ++ chunks2)
  = (fst (pipe host replaced chunks1)
     ++ fst (pipe host (snd (pipe host replaced chunks1)) chunks2),
     snd (pipe host (snd (pipe host replaced chunks1)) chunks2)).
Proof.
  induction chunks1 as [|c chunks1 IH]; intros replaced chunks2.
  - cbn [app pipe fst snd]. now destruct (pipe host replaced chunks2).
  - cbn [app pipe]. destruct (transform host replaced c) as [out r].
    rewrite IH. destruct (pipe host r chunks1) as [outs r'].
    cbn [fst snd]. reflexivity.
Qed.

(** What the pattern matches at the head of a string. *)
Lemma match_at_spec s g1 tok post :
  match_at s = Some (g1, tok, post) ->
  s = g1 ++ tok ++ post
  /\ (g1 = [0x0D; 0x0A]%N ++ lit "Host: " \/ g1 = [0x0D; 0x0A]%N ++ lit "host: ")
  /\ tok <> []
  /\ forallb non_ws tok = true.
Proof.
  unfold match_at. destruct s as [|c1 [|c2 [|h rest]]]; try discriminate.
  destruct ((c1 =? 13)%N && (c2 =? 10)%N && ((h =? 72)%N || (h =? 104)%N))%bool
    eqn:E; [|discriminate].
  apply andb_true_iff in E. destruct E as [E Eh].
  apply andb_true_iff in E. destruct E as [E1 E2].
  apply N.eqb_eq in E1, E2. subst c1 c2.
  destruct (strip_prefix (lit "ost: ") rest) as [r|] eqn:Er; [|discriminate].
  apply strip_prefix_spec in Er.
  pose proof (span_app non_ws r) as Hsp. pose proof (span_all non_ws r) as Hall.
  destruct (span non_ws r) as [[|t0 tk] po]; [discriminate|].
  intros H. inversion H; subst g1 tok post. simpl in Hsp, Hall.
  repeat split.
  - subst rest. rewrite <- Hsp. reflexivity.
  - apply orb_true_iff in Eh. destruct Eh as [Eh|Eh]; apply N.eqb_eq in Eh;
      subst h; [left|right]; reflexivity.
  - discriminate.
  - apply forallb_forall. intros x Hx.
    rewrite Forall_forall in Hall. now apply Hall.
Qed.

(** One call of [replace] substitutes one token, the leftmost match, and
    leaves the rest of the string as it is. *)
Lemma replace_spec host s :
  match replace host s with
  | (out, true) =>
      exists pre g1 tok post,
        s = pre ++ g1 ++ tok ++ post
        /\ out = pre ++ g1 ++ host ++ post
        /\ (g1 = [0x0D; 0x0A]%N ++ lit "Host: "
            \/ g1 = [0x0D; 0x0A]%N ++ lit "host: ")
        /\ tok <> []
        /\ forallb non_ws tok = true
  | (out, false) => out = s
  end.
Proof.
  induction s as [|c rest IH].
  - reflexivity.
  - cbn [replace].
    destruct (match_at (c :: rest)) as [[[g1 tok] post]|] eqn:Em.
    + destruct (match_at_spec _ _ _ _ Em) as (Hs & Hg & Ht & Hw).
      exists [], g1, tok, post. repeat split; auto.
    + destruct (replace host rest) as [out [|]].
      * destruct IH as (pre & g1 & tok & post & Hs & Ho & Hg & Ht & Hw).
        exists (c :: pre), g1, tok, post. subst rest out. repeat split; auto.
      * now subst out.
Qed.

End HostFacts.

(** ** The tunnel session *)

Section TunnelFacts.

Import Text Tunnel.

Variable opts : CreateTunnelOpts.

Lemma after_auth_phase s p :
  transformer_as_configured opts (phase (fst (after_auth s p))) = true.
Proof. now destruct p. Qed.

Lemma after_ready_phase s w :
  transformer_as_configured opts (phase (fst (after_ready opts s w))) = true.
Proof. now destruct w. Qed.

Lemma remote_error_phase s err : phase (fst (remote_error s err)) = phase s.
Proof.
  unfold remote_error.
  destruct (negb (isErrnoException err)); [reflexivity|].
  now destruct (refused err).
Qed.

Lemma local_error_phase s err : phase (fst (local_error s err)) = phase s.
Proof.
  unfold local_error. now destruct (negb (isErrnoException err)).
Qed.

(** Only the ['connected'] handler builds the pipeline, and it puts the
    transformer in exactly when the options ask for it. *)
Lemma step_transformer s ev :
  transformer_as_configured opts (phase s) = true ->
  transformer_as_configured opts (phase (fst (step opts s ev))) = true.
Proof.
  intros H. destruct s as [ph p l]. cbn [phase] in H.
  destruct ev; destruct ph as [| |buf|pb|pb [r|]|[|]|];
    cbn [step phase settled remote remote_close];
    unfold drop, with_remote, backward;
    cbn [phase settled remote remote_close];
    rewrite ?fst_emit, ?fst_andThen, ?remote_error_phase, ?local_error_phase;
    cbn [phase fst];
    rewrite ?fst_andThen, ?remote_error_phase;
    try exact H; try reflexivity;
    try apply after_auth_phase; try apply after_ready_phase;
    try (destruct l; exact H).
  - unfold forward.
    destruct (HostHeader.transform (localHost opts) r chunk). exact H.
  - cbn. now destruct (wants_transformer opts).
Qed.

Lemma run_transformer evs : forall s,
  transformer_as_configured opts (phase s) = true ->
  transformer_as_configured opts (phase (fst (run opts s evs))) = true.
Proof.
  induction evs as [|ev rest IH]; intros s H; [exact H|].
  simpl. rewrite fst_andThen. apply IH. now apply step_transformer.
Qed.

Lemma local_writes_observe chunk : local_writes (observe opts chunk) = [].
Proof.
  unfold observe. simpl.
  destruct (request_line (toString chunk)) as [[m p]|]; [|reflexivity].
  now destruct (onRequest opts).
Qed.

(** While a session splices with the transformer in place, what it writes
    to the local socket is what the transformer makes of the chunks of the
    remote socket. *)
Lemma splice_is_pipe chunks : forall postReadyBuffer replaced p l,
  local_writes
    (snd (run opts {| phase := Splicing postReadyBuffer (Some replaced);
                      settled := p; remote := l |}
              (map RemoteData chunks)))
  = fst (HostHeader.pipe (localHost opts) replaced chunks).
Proof.
  induction chunks as [|c rest IH]; intros pb r p l; [reflexivity|].
  simpl map. cbn [run step phase].
  rewrite snd_andThen, fst_emit, snd_emit, !local_writes_app.
  rewrite local_writes_observe. unfold forward. cbn [HostHeader.pipe].
  destruct (HostHeader.transform (localHost opts) r c) as [out r'].
  unfold enter. cbn [fst snd phase settled remote]. rewrite IH.
  destruct (HostHeader.pipe (localHost opts) r' rest). reflexivity.
Qed.

(** Without the transformer the chunks go to the local socket as they
    are. *)
Lemma splice_is_identity chunks : forall postReadyBuffer p l,
  local_writes
    (snd (run opts {| phase := Splicing postReadyBuffer None; settled := p;
                      remote := l |}
              (map RemoteData chunks)))
  = chunks.
Proof.
  induction chunks as [|c rest IH]; intros pb p l; [reflexivity|].
  simpl map. cbn [run step phase].
  rewrite snd_andThen, fst_emit, snd_emit, !local_writes_app.
  rewrite local_writes_observe. cbn [forward fst snd]. rewrite IH.
  reflexivity.
Qed.

Lemma wants_transformer_spec :
  wants_transformer opts = true
  <-> localHost opts <> lit "localhost" /\ localHost opts <> lit "127.0.0.1".
Proof.
  unfold wants_transformer. rewrite andb_true_iff, !negb_true_iff.
  split; intros [H1 H2]; split.
  - intros E. apply jseq_spec in E. congruence.
  - intros E. apply jseq_spec in E. congruence.
  - destruct (jseq (localHost opts) (lit "localhost")) eqn:E; [|reflexivity].
    apply jseq_spec in E. contradiction.
  - destruct (jseq (localHost opts) (lit "127.0.0.1")) eqn:E; [|reflexivity].
    apply jseq_spec in E. contradiction.
Qed.

(** The ['close'] listener of [createTunnel] resolves a pending promise in
    every phase; the rejection that the waiters raise afterwards finds the
    promise settled. *)
Lemma remote_close_resolves s :
  settled s = Pending ->
  settled (fst (step opts s RemoteClose)) = Fulfilled tt.
Proof.
  intros H. cbn [step]. rewrite fst_andThen.
  unfold drop, with_remote. cbn [remote_close fst phase settled].
  rewrite H. cbn [resolve].
  destruct (phase s); try reflexivity; rewrite fst_andThen; reflexivity.
Qed.

(** The ['connected'] handler writes nothing to the local socket: the bytes
    that came behind READY stay in [postReadyBuffer]. *)
Lemma local_connected_writes_nothing s postReadyBuffer :
  local_writes (snd (local_connected opts s postReadyBuffer)) = [].
Proof.
  unfold local_connected. cbn [snd local_writes flat_map app].
  fold (local_writes
          ((if wants_transformer opts
            then [Log debug "transform Host header to %s"
                      [LStr (localHost opts)]]
            else [])
           ++ match remote s with
              | Ended => [LocalEnd]
              | _ => []
              end)).
  rewrite local_writes_app.
  destruct (wants_transformer opts); now destruct (remote s).
Qed.

End TunnelFacts.

Section TunnelTheorems.

Import Text Tunnel.

Ltac in_trace := vm_compute; repeat (first [left; reflexivity | right]).

(** C1. The remote sends [READY], a line feed and [DATA] in one chunk; the
    waiter hands [DATA] on as the residue, and it stays in
    [postReadyBuffer]: the local socket, once connected, gets only the
    chunk that comes later. A chunk that comes between READY and the
    connection of the local socket is lost as well. *)
Theorem post_ready_residue_never_forwarded :
  phase (fst (createTunnel (example_opts (lit "localhost") None)
                [RemoteConnect;
                 RemoteData (bytes_of "READY" ++ LF :: bytes_of "DATA")]))
  = LocalDialing (bytes_of "DATA")
  /\ local_bytes
       (snd (createTunnel (example_opts (lit "localhost") None)
               [RemoteConnect;
                RemoteData (bytes_of "READY" ++ LF :: bytes_of "DATA");
                LocalConnect;
                RemoteData (bytes_of "MORE");
                RemoteFin; RemoteClose]))
     = bytes_of "MORE"
  /\ local_bytes
       (snd (createTunnel (example_opts (lit "localhost") None)
               [RemoteConnect;
                RemoteData (bytes_of "READY" ++ [LF]);
                RemoteData (bytes_of "EARLY");
                LocalConnect;
                RemoteData (bytes_of "MORE");
                RemoteFin; RemoteClose]))
     = bytes_of "MORE".
Proof. vm_compute. repeat split. Qed.

(** C3. The frame that carries the key is given to the logger, so the log
    of two runs that differ only in the key differs; and [tnnlr] logs the
    endpoint it obtained, secret key included. *)
Theorem secret_key_reaches_the_log :
  In (Log debug "Sending authentication payload to remote: %s"
          [LStr (auth_prefix ++ lit "s3cret" ++ auth_suffix)])
     (snd (createTunnel
             (example_opts (lit "localhost") (Some (lit "s3cret")))
             [RemoteConnect]))
  /\ log_entries
       (snd (createTunnel (example_opts (lit "localhost") (Some (lit "a")))
               [RemoteConnect]))
     <> log_entries
          (snd (createTunnel (example_opts (lit "localhost") (Some (lit "b")))
                  [RemoteConnect]))
  /\ In (Log debug
             "Obtained tunnel endpoint: ${JSON.stringify(tunnelEndpoint)}"
             [LStr (lit "{" ++ quoted "id" ++ lit ":" ++ quoted "t1"
                    ++ lit "," ++ quoted "url" ++ lit ":"
                    ++ quoted "https://t1.tunnel.example"
                    ++ lit "," ++ quoted "port" ++ lit ":4000"
                    ++ lit "," ++ quoted "secret_key" ++ lit ":"
                    ++ quoted "s3cret" ++ lit "}")])
        (snd (Tnnlr.acquire (answering example_endpoint) example_options tt)).
Proof.
  split; [in_trace|]. split; [vm_compute; congruence|in_trace].
Qed.

(** C4. The remote socket closes during the ready wait, with or without
    bytes received, or during authentication: the waiter rejects with its
    error, and the error is logged, but [createTunnel]'s own ['close']
    listener has run first and the promise is fulfilled. *)
Theorem premature_close_resolves :
  Ready.waitForReady [Ready.Close]
  = (Ready.Failed (newError "Socket closed before READY"), [])
  /\ settled (fst (createTunnel (example_opts (lit "localhost") None)
                     [RemoteConnect; RemoteClose]))
     = Fulfilled tt
  /\ In (Log error "Did not receive READY from remote: %s"
             [LErr (newError "Socket closed before READY")])
        (snd (createTunnel (example_opts (lit "localhost") None)
                [RemoteConnect; RemoteClose]))
  /\ settled (fst (createTunnel (example_opts (lit "localhost") None)
                     [RemoteConnect; RemoteData (bytes_of "PING" ++ [LF]);
                      RemoteClose]))
     = Fulfilled tt
  /\ settled (fst (createTunnel
                     (example_opts (lit "localhost") (Some (lit "s3cret")))
                     [RemoteConnect; RemoteClose]))
     = Fulfilled tt
  /\ In (Log error "Remote authentication failed" [])
        (snd (createTunnel
                (example_opts (lit "localhost") (Some (lit "s3cret")))
                [RemoteConnect; RemoteClose])).
Proof.
  split; [reflexivity|]. split; [reflexivity|]. split; [in_trace|].
  split; [reflexivity|]. split; [reflexivity|in_trace].
Qed.

End TunnelTheorems.

(** ** The retry wrapper *)

Section RetryFacts.

Import Retry.
Local Open Scope Z_scope.

Context {T W : Type}.
Variable fn : W -> (T + Thrown) * W.

(** The loop, one iteration unfolded. *)
Lemma loop_body retries delayMs attempt w :
  loop fn retries delayMs attempt w =
  if attempt <=? retries then
    match fn w with
    | (inl v, w') => ((Returned v, w'), [Call])
    | (inr err, w') =>
        if attempt + 1 >? retries then ((Threw err, w'), [Call])
        else emit [Call; retry_log (attempt + 1) delayMs; Sleep delayMs]
                  (loop fn retries delayMs (attempt + 1) w')
    end
  else ((Threw (newError "Unreachable code"), w), []).
Proof.
  funelim (loop fn retries delayMs attempt w);
    repeat match goal with
           | H : (_ <=? _) = _ |- _ => rewrite H
           | H : (_ >? _) = _ |- _ => rewrite H
           | H : fn _ = _ |- _ => rewrite H
           end; reflexivity.
Qed.



(** With a negative count the loop is not entered: nothing is invoked. *)
Lemma retry_negative retries delayMs w :
  retries < 0 ->
  retryAsync fn retries delayMs w
  = ((Threw (newError "Unreachable code"), w), []).
Proof.
  intros H. unfold retryAsync. rewrite loop_body.
  replace (0 <=? retries) with false; [reflexivity|].
  symmetry. apply Z.leb_gt. exact H.
Qed.

End RetryFacts.



(** * Further properties *)

(** ** Sessions: invariants of [createTunnel] *)

Section SessionFacts.

Import Text Tunnel Session.

Lemma andThen_assoc {S1 S2 S3} (r : S1 * Trace) (k1 : S1 -> S2 * Trace)
  (k2 : S2 -> S3 * Trace) :
  andThen (andThen r k1) k2 = andThen r (fun s => andThen (k1 s) k2).
Proof.
  destruct r as [s t]. simpl. destruct (k1 s) as [s1 t1]. simpl.
  destruct (k2 s1) as [s2 t2]. now rewrite app_assoc.
Qed.

Lemma andThen_ret {S1 S2} (s : S1) (k : S1 -> S2 * Trace) :
  andThen (s, []) k = k s.
Proof. simpl. now destruct (k s). Qed.

Lemma run_app opts evs1 : forall s evs2,
  run opts s (evs1 ++ evs2)
  = andThen (run opts s evs1) (fun s' => run opts s' evs2).
Proof.
  induction evs1 as [|ev rest IH]; intros s evs2.
  - simpl app. cbn [run]. now rewrite andThen_ret.
  - simpl app. cbn [run]. rewrite andThen_assoc. apply andThen_ext.
    intros s'. apply IH.
Qed.

Lemma run_one opts s ev : run opts s [ev] = step opts s ev.
Proof.
  cbn [run]. destruct (step opts s ev) as [s' t]. simpl. now rewrite app_nil_r.
Qed.

(** Induction over the events of a session, oldest first. *)
Lemma createTunnel_ind opts (P : list Event -> Session -> Trace -> Prop) :
  P [] {| phase := Dialing; settled := Pending; remote := Up |} [] ->
  (forall evs s t ev,
      P evs s t ->
      P (evs ++ [ev]) (fst (step opts s ev)) (t ++ snd (step opts s ev))) ->
  forall evs,
    P evs (fst (createTunnel opts evs)) (snd (createTunnel opts evs)).
Proof.
  intros H0 Hstep evs. induction evs as [|ev evs IH] using rev_ind.
  - exact H0.
  - unfold createTunnel in *. rewrite run_app, fst_andThen, snd_andThen.
    rewrite run_one. now apply Hstep.
Qed.

Lemma scan_actions b : forallb waiter_action (snd (Ready.scan b)) = true.
Proof.
  remember (List.length b) as n eqn:Hn. revert b Hn.
  induction n as [n IH] using lt_wf_ind. intros b Hn.
  rewrite scan_body.
  destruct (Ready.indexOf LF b) as [nl|] eqn:Hnl; [|reflexivity].
  pose proof (indexOf_lt _ _ _ Hnl) as Hlt.
  destruct (jseq (Ready.line_at nl b) Ready.READY); [reflexivity|].
  destruct (jseq (Ready.line_at nl b) Ready.PING).
  - rewrite snd_emit. cbn [app forallb waiter_action andb].
    destruct (list_eq_dec Byte.byte_eq_dec Ready.PONG Ready.PONG); [|congruence].
    apply (IH (List.length (Ready.remainder_at nl b))); [|reflexivity].
    subst n. now apply remainder_at_length.
  - now destruct (Z.of_nat (List.length b) >? Ready.CAP)%Z.
Qed.

Lemma waiter_actions_local t :
  forallb waiter_action t = true ->
  local_writes t = [] /\ local_opens t = [] /\ remote_ended t = false
  /\ exists k, remote_writes t = repeat Ready.PONG k.
Proof.
  induction t as [|a t IH]; intros H.
  - repeat split; auto. now exists 0%nat.
  - simpl in H. apply andb_true_iff in H. destruct H as [Ha Ht].
    destruct (IH Ht) as (H1 & H2 & H3 & k & H4).
    destruct a; try discriminate.
    + simpl in Ha.
      destruct (list_eq_dec Byte.byte_eq_dec data Ready.PONG); [|discriminate].
      subst data. repeat split; auto. exists (S k). simpl. now rewrite <- H4.
    + repeat split; auto. now exists k.
Qed.

Lemma auth_onData_cases chunk :
  exists p,
    (p = Pending \/ p = Fulfilled tt
     \/ p = Rejected (newError "Authentication failed"))
    /\ Auth.onData chunk
       = (p, [Log debug "Received data from remote: %s"
                  [LStr (trim (toString chunk))]]).
Proof.
  unfold Auth.onData.
  destruct (_ || _ || _)%bool; [eexists; split; [|reflexivity]; auto|].
  destruct (_ || _)%bool; eexists; (split; [|reflexivity]); auto.
Qed.

Lemma local_opens_app t1 t2 : local_opens (t1 ++ t2) = local_opens t1 ++ local_opens t2.
Proof. unfold local_opens. apply filter_app. Qed.

Lemma upto_open_app t1 t2 :
  upto_open (t1 ++ t2)
  = match local_opens t1 with
    | [] => t1 ++ upto_open t2
    | _ :: _ => upto_open t1
    end.
Proof.
  induction t1 as [|a t1 IH]; [reflexivity|].
  destruct a; cbn [app upto_open local_opens filter]; try reflexivity;
    fold (local_opens t1); rewrite IH; now destruct (local_opens t1).
Qed.

Lemma remote_ended_app t1 t2 : remote_ended (t1 ++ t2) = remote_ended t1 || remote_ended t2.
Proof. unfold remote_ended. apply existsb_app. Qed.

Lemma local_connected_app e1 e2 :
  local_connected (e1 ++ e2) = local_connected e1 || local_connected e2.
Proof. unfold local_connected. apply existsb_app. Qed.

Lemma remote_closed_app e1 e2 :
  remote_closed (e1 ++ e2) = remote_closed e1 || remote_closed e2.
Proof. unfold remote_closed. apply existsb_app. Qed.

Lemma cause_app e evs1 evs2 : cause e evs1 -> cause e (evs1 ++ evs2).
Proof.
  unfold cause. rewrite !in_app_iff. tauto.
Qed.

Lemma observe_quiet opts c :
  local_writes (observe opts c) = [] /\ local_opens (observe opts c) = []
  /\ remote_writes (observe opts c) = [] /\ remote_ended (observe opts c) = false.
Proof.
  unfold observe. destruct (request_line (toString c)) as [[m q]|];
    [destruct (onRequest opts)|]; repeat split; reflexivity.
Qed.

Ltac sub_results :=
  repeat match goal with
  | |- context [Auth.onData ?c] =>
      let p := fresh "p" in let Hp := fresh "Hp" in let E := fresh "E" in
      destruct (auth_onData_cases c) as (p & Hp & E); rewrite E;
      destruct Hp as [Hp|[Hp|Hp]]; subst p
  | |- context [Ready.onData ?b ?c] =>
      let w := fresh "w" in let t := fresh "tw" in let E := fresh "E" in
      let Ha := fresh "Ha" in let Hfail := fresh "Hfail" in
      let Hw1 := fresh "Hw1" in let Hw2 := fresh "Hw2" in
      let Hw3 := fresh "Hw3" in let Hw4 := fresh "Hw4" in
      let kw := fresh "kw" in
      pose proof (scan_actions (b ++ c)) as Ha;
      pose proof (scan_failed (b ++ c)) as Hfail;
      unfold Ready.onData;
      destruct (Ready.scan (b ++ c)) as [w t] eqn:E;
      cbn [fst snd] in Ha, Hfail;
      destruct (waiter_actions_local _ Ha) as (Hw1 & Hw2 & Hw3 & kw & Hw4);
      destruct w
  | |- context [secretKey ?o] =>
      let k := fresh "key" in destruct (secretKey o) as [k|]; [destruct k|]
  | |- context [isErrnoException ?e] => destruct (isErrnoException e)
  | |- context [refused ?e] => destruct (refused e)
  | |- context [wants_transformer ?o] => destruct (wants_transformer o)
  | |- context [HostHeader.transform ?h ?r ?c] =>
      let E := fresh "Etr" in destruct (HostHeader.transform h r c) eqn:E
  | l : Link |- context [match ?x with Up => _ | Ended => _ | Down => _ end] =>
      constr_eq x l; destruct l
  end.

Ltac step_cases s ev :=
  let l := fresh "l" in
  destruct s as [ph p l]; destruct ev;
  destruct ph as [| |buf|pb|pb [r|]|[|]|];
  cbn [step phase settled remote opened] in *;
  unfold emit, andThen, after_auth, after_ready, remote_error, remote_close,
    local_error, Tunnel.local_connected, forward, backward, enter, drop,
    with_remote,
    Auth.authenticateRemote, Auth.onError, Auth.onClose, Auth.onTimeout,
    Ready.onError, Ready.onClose;
  cbn [fst snd phase settled remote opened];
  try match goal with
      | chunk : bytes |- context [observe ?o ?c] =>
          let Ho1 := fresh "Ho1" in let Ho2 := fresh "Ho2" in
          let Ho3 := fresh "Ho3" in let Ho4 := fresh "Ho4" in
          destruct (observe_quiet o c) as (Ho1 & Ho2 & Ho3 & Ho4)
      end;
  sub_results;
  cbn [fst snd phase settled remote opened].

Section Inv.
Variable opts : CreateTunnelOpts.

Lemma opens_invariant evs :
  opens_inv opts evs (fst (createTunnel opts evs)) (snd (createTunnel opts evs)).
Proof.
  apply createTunnel_ind.
  - repeat split; auto. discriminate.
  - clear evs. intros evs s t ev (H1 & H2 & H0 & H3).
    unfold opens_inv.
    rewrite local_opens_app, local_writes_app, local_connected_app,
      upto_open_app.
    step_cases s ev;
      cbn [local_opens local_writes filter flat_map app existsb orb
           Session.local_connected];
      rewrite ?local_opens_app, ?local_writes_app, ?upto_open_app, ?H1,
        ?app_nil_r, ?orb_false_r, ?orb_true_r;
      rewrite ?Ho1, ?Ho2, ?Hw1, ?Hw2; cbn [app opened upto_open];
      (split; [reflexivity|]);
      (split;
       [intros Ho; try discriminate; rewrite ?in_app_iff; auto;
        try (right; unfold ready_log; simpl; tauto)|]);
      (split;
       [intros Hn; try discriminate; rewrite ?(H0 eq_refl); reflexivity|]);
      intros Hc; try discriminate;
      try (destruct (H3 Hc) as [H3a H3b]; rewrite ?H3a; try contradiction;
           split; auto).
Qed.

(** A failed handshake has ended the remote socket. *)
Lemma aborted_invariant evs :
  phase (fst (createTunnel opts evs)) = Aborted ->
  remote_ended (snd (createTunnel opts evs)) = true.
Proof.
  apply (createTunnel_ind opts (fun _ s t => phase s = Aborted -> remote_ended t = true)).
  - discriminate.
  - clear evs. intros evs s t ev IH. rewrite remote_ended_app.
    step_cases s ev; intros Hph; try discriminate;
      rewrite ?remote_ended_app; cbn [remote_ended existsb orb];
      rewrite ?orb_true_r; auto; rewrite ?(IH eq_refl); auto.
Qed.

(** Once the handshake has failed, the session does nothing more. *)
Lemma aborted_step p l ev :
  phase (fst (step opts {| phase := Aborted; settled := p; remote := l |} ev))
  = Aborted
  /\ remote_writes
       (snd (step opts {| phase := Aborted; settled := p; remote := l |} ev))
     = []
  /\ local_writes
       (snd (step opts {| phase := Aborted; settled := p; remote := l |} ev))
     = []
  /\ local_opens
       (snd (step opts {| phase := Aborted; settled := p; remote := l |} ev))
     = [].
Proof.
  destruct ev; cbn [step phase settled remote];
    unfold emit, andThen, remote_error, remote_close, drop, with_remote;
    cbn [fst snd phase settled remote];
    try (destruct (observe_quiet opts chunk) as (Ho1 & Ho2 & Ho3 & Ho4));
    sub_results; cbn [fst snd phase];
    rewrite ?app_nil_r, ?Ho1, ?Ho2, ?Ho3; repeat split; reflexivity.
Qed.

Lemma aborted_run evs : forall p l,
  phase (fst (run opts {| phase := Aborted; settled := p; remote := l |} evs))
  = Aborted
  /\ remote_writes
       (snd (run opts {| phase := Aborted; settled := p; remote := l |} evs))
     = []
  /\ local_writes
       (snd (run opts {| phase := Aborted; settled := p; remote := l |} evs))
     = []
  /\ local_opens
       (snd (run opts {| phase := Aborted; settled := p; remote := l |} evs))
     = [].
Proof.
  induction evs as [|ev rest IH]; intros p l; [repeat split; reflexivity|].
  cbn [run]. rewrite fst_andThen, snd_andThen.
  destruct (aborted_step p l ev) as (H1 & H2 & H3 & H4).
  destruct (fst (step opts {| phase := Aborted; settled := p; remote := l |}
                   ev)) as [ph p' l'].
  cbn [phase] in H1. subst ph.
  destruct (IH p' l') as (I1 & I2 & I3 & I4).
  rewrite remote_writes_app, local_writes_app, local_opens_app.
  rewrite H2, H3, H4, I2, I3, I4. repeat split; auto.
Qed.

Lemma settle_invariant evs : settle_inv evs (fst (createTunnel opts evs)).
Proof.
  apply (createTunnel_ind opts (fun evs s _ => settle_inv evs s)).
  - reflexivity.
  - clear evs. intros evs s t ev IH. unfold settle_inv in *.
    step_cases s ev;
      cbn [settled] in IH;
      destruct p as [|[]|e0]; cbn [resolve reject settled negb fst snd phase];
      rewrite ?remote_closed_app; cbn [remote_closed existsb orb];
      rewrite ?orb_false_r, ?orb_true_r; auto;
      try (apply cause_app; exact IH);
      try (unfold cause; rewrite ?in_app_iff; simpl; tauto).
    all: try (rewrite (Hfail _ eq_refl); unfold cause; tauto).
Qed.


(** What one event makes the session write to the remote socket. *)
Lemma step_remote_writes s ev :
  if dialing (phase s) then
    (dialing (phase (fst (step opts s ev))) = true
     /\ remote_writes (snd (step opts s ev)) = [])
    \/ (dialing (phase (fst (step opts s ev))) = false
        /\ remote_writes (snd (step opts s ev)) = frame_of opts)
  else
    dialing (phase (fst (step opts s ev))) = false
    /\ Forall (fun d => d = Ready.PONG \/ ev = LocalData d)
              (remote_writes (snd (step opts s ev))).
Proof.
  unfold frame_of.
  step_cases s ev; cbn [dialing];
    rewrite ?remote_writes_app, ?Ho3, ?Hw4; cbn [remote_writes flat_map app];
    rewrite ?app_nil_r;
    try (left; split; reflexivity); try (right; split; reflexivity);
    (split; [reflexivity|]); repeat constructor; auto;
    rewrite Forall_forall; intros d Hd; apply repeat_spec in Hd; auto.
Qed.

Lemma writes_invariant evs :
  writes_inv opts evs (fst (createTunnel opts evs)) (snd (createTunnel opts evs)).
Proof.
  apply createTunnel_ind.
  - exists []. repeat split; auto.
  - clear evs. intros evs s t ev (rest & Hw & Hd & Hok).
    pose proof (step_remote_writes s ev) as Hs.
    unfold writes_inv. rewrite remote_writes_app, Hw.
    assert (Hmono : Forall (fun d => d = Ready.PONG \/ In (LocalData d) (evs ++ [ev])) rest).
    { eapply Forall_impl; [|exact Hok]. intros d [H|H]; [now left|right].
      apply in_app_iff. now left. }
    destruct (dialing (phase s)) eqn:Ed.
    + rewrite (Hd eq_refl). destruct Hs as [[Hp Hr]|[Hp Hr]]; rewrite Hp, Hr.
      * exists []. repeat split; auto.
      * exists []. rewrite !app_nil_r. repeat split; auto.
    + destruct Hs as [Hp Hr]. rewrite Hp.
      exists (rest ++ remote_writes (snd (step opts s ev))).
      rewrite app_assoc. split; [reflexivity|]. split; [discriminate|].
      apply Forall_app. split; [exact Hmono|].
      eapply Forall_impl; [|exact Hr]. intros d [H|H]; [now left|right].
      apply in_app_iff. right. subst ev. now left.
Qed.

Lemma through_cons tr c chunks :
  through (localHost opts) tr (c :: chunks)
  = match tr with
    | None => c :: through (localHost opts) None chunks
    | Some r =>
        fst (HostHeader.transform (localHost opts) r c)
        :: through (localHost opts)
             (Some (snd (HostHeader.transform (localHost opts) r c))) chunks
    end.
Proof.
  destruct tr as [r|]; [|reflexivity]. cbn [through HostHeader.pipe].
  destruct (HostHeader.transform (localHost opts) r c) as [out r'].
  cbn [fst snd]. now destruct (HostHeader.pipe (localHost opts) r' chunks).
Qed.

(** While both sockets stay open, a splicing session forwards: what the
    remote sends goes to the local socket, through the transformer if there
    is one, and what the local socket sends goes to the remote as it is. *)
Lemma splice_run evs : forall pb tr p,
  sockets_open evs = true ->
  local_writes
    (snd (run opts {| phase := Splicing pb tr; settled := p; remote := Up |}
            evs))
  = through (localHost opts) tr (remote_chunks evs)
  /\ remote_writes
       (snd (run opts {| phase := Splicing pb tr; settled := p; remote := Up |}
               evs))
     = local_chunks evs
  /\ exists tr' p',
      fst (run opts {| phase := Splicing pb tr; settled := p; remote := Up |}
             evs)
      = {| phase := Splicing pb tr'; settled := p'; remote := Up |}.
Proof.
  induction evs as [|ev rest IH]; intros pb tr p Ha.
  - cbn. split; [now destruct tr|]. split; [reflexivity|]. now exists tr, p.
  - cbn [sockets_open forallb] in Ha. apply andb_true_iff in Ha.
    destruct Ha as [Hev Ha]. cbn [run].
    rewrite fst_andThen, snd_andThen, local_writes_app, remote_writes_app.
    assert (Hstep : exists tr1 p1,
               fst (step opts {| phase := Splicing pb tr; settled := p;
                                 remote := Up |} ev)
               = {| phase := Splicing pb tr1; settled := p1; remote := Up |}
               /\ local_writes
                    (snd (step opts {| phase := Splicing pb tr; settled := p;
                                       remote := Up |} ev))
                  ++ through (localHost opts) tr1 (remote_chunks rest)
                  = through (localHost opts) tr (remote_chunks (ev :: rest))
               /\ remote_writes
                    (snd (step opts {| phase := Splicing pb tr; settled := p;
                                       remote := Up |} ev))
                  = local_chunks [ev]).
    { destruct ev; try discriminate;
        cbn [step phase settled remote remote_chunks local_chunks flat_map
             app];
        unfold emit, andThen, forward, backward, enter;
        cbn [fst snd phase settled remote];
        try (destruct (observe_quiet opts chunk) as (Ho1 & Ho2 & Ho3 & Ho4));
        try (rewrite through_cons);
        destruct tr as [r|];
        sub_results; cbn [fst snd phase settled remote];
        rewrite ?local_writes_app, ?remote_writes_app, ?Ho1, ?Ho3;
        cbn [local_writes remote_writes flat_map app fst snd];
        eexists; eexists; (split; [reflexivity|split; reflexivity]). }
    destruct Hstep as (tr1 & p1 & Hf & Hl & Hr). rewrite Hf.
    destruct (IH pb tr1 p1 Ha) as (I1 & I2 & I3).
    rewrite I1, I2, Hl, Hr. split; [reflexivity|]. split; [|exact I3].
    unfold local_chunks. simpl. now rewrite app_nil_r.
Qed.

Lemma through_snoc chunks c :
  through (localHost opts) (fresh_transformer opts) (chunks ++ [c])
  = through (localHost opts) (fresh_transformer opts) chunks
    ++ through (localHost opts) (latch_after opts chunks) [c].
Proof.
  unfold fresh_transformer, latch_after, through.
  destruct (wants_transformer opts); [|reflexivity].
  rewrite pipe_app. reflexivity.
Qed.

Lemma latch_after_snoc chunks c r out r' :
  latch_after opts chunks = Some r ->
  HostHeader.transform (localHost opts) r c = (out, r') ->
  latch_after opts (chunks ++ [c]) = Some r'
  /\ through (localHost opts) (latch_after opts chunks) [c] = [out].
Proof.
  unfold latch_after, through.
  destruct (wants_transformer opts); [|discriminate].
  intros [= <-] Ht. rewrite pipe_app. cbn [snd fst HostHeader.pipe].
  rewrite Ht. split; reflexivity.
Qed.

Lemma latch_after_none chunks c :
  latch_after opts chunks = None ->
  latch_after opts (chunks ++ [c]) = None
  /\ through (localHost opts) (latch_after opts chunks) [c] = [c].
Proof.
  unfold latch_after, through.
  destruct (wants_transformer opts); [discriminate|]. now split.
Qed.

(** Every write to the local socket is what one pipe, built when the local
    socket connected, makes of chunks of the remote socket. *)
Lemma pipes_invariant evs :
  pipes_inv opts evs (fst (createTunnel opts evs))
    (snd (createTunnel opts evs)).
Proof.
  apply createTunnel_ind.
  - exists []. repeat split; auto. unfold fresh_transformer, through.
    now destruct (wants_transformer opts).
  - clear evs. intros evs s t ev (chunks & Hin & Hw & Hph).
    assert (Hmono : Forall (fun c => In (RemoteData c) (evs ++ [ev])) chunks).
    { eapply Forall_impl; [|exact Hin]. intros c Hc. apply in_app_iff.
      now left. }
    unfold pipes_inv. rewrite local_writes_app, Hw. clear Hw Hin.
    destruct s as [ph p l]; destruct ev;
      destruct ph as [| |buf|pb|pb tr|lost|];
      cbn [step phase settled remote] in *;
      unfold emit, andThen, after_auth, after_ready, remote_error,
        remote_close, local_error, Tunnel.local_connected, backward, enter,
        drop, with_remote,
        Auth.authenticateRemote, Auth.onError, Auth.onClose, Auth.onTimeout,
        Ready.onError, Ready.onClose;
      cbn [fst snd phase settled remote];
      try match goal with
          | chunk : bytes |- context [observe ?o ?c] =>
              let Ho1 := fresh "Ho1" in let Ho2 := fresh "Ho2" in
              let Ho3 := fresh "Ho3" in let Ho4 := fresh "Ho4" in
              destruct (observe_quiet o c) as (Ho1 & Ho2 & Ho3 & Ho4)
          end.
    all: try (sub_results; cbn [fst snd phase settled remote];
              rewrite ?local_writes_app, ?Ho1, ?Hw1;
              cbn [local_writes flat_map app]; rewrite ?app_nil_r;
              solve [exists chunks; repeat split; auto]).
    + (* a chunk of the remote socket goes through the pipe *)
      exists (chunks ++ [chunk]). split.
      { apply Forall_app. split; [exact Hmono|]. constructor; [|constructor].
        apply in_app_iff. right. now left. }
      rewrite local_writes_app, Ho1, through_snoc. cbn [app].
      subst tr. unfold forward.
      destruct (latch_after opts chunks) as [r|] eqn:El.
      * destruct (HostHeader.transform (localHost opts) r chunk)
          as [out r'] eqn:Et.
        destruct (latch_after_snoc chunks chunk r out r' El Et) as [L1 L2].
        cbn [fst snd phase enter local_writes flat_map app].
        rewrite L1, <- El, L2. split; reflexivity.
      * destruct (latch_after_none chunks chunk El) as [L1 L2].
        cbn [fst snd phase local_writes flat_map app].
        rewrite L1, <- El, L2. split; reflexivity.
    + (* the pipes are built *)
      subst chunks. exists []. split; [constructor|].
      unfold latch_after, fresh_transformer, through.
      destruct (wants_transformer opts); destruct l; split; reflexivity.
    + exists chunks.
      destruct lost; cbn [fst snd phase local_writes flat_map app];
        rewrite app_nil_r; repeat split; auto.
Qed.
End Inv.

(** X1. A session calls [connectLocal] at most once, with the configured
    host and port, and only after it has logged the READY of the remote;
    and as long as no local socket was opened, or the local socket has not
    connected, nothing is written to it. *)
Theorem local_socket_opened_once_after_ready opts evs :
  (local_opens (snd (createTunnel opts evs)) = []
   \/ local_opens (snd (createTunnel opts evs))
      = [LocalOpen (localHost opts) (localPort opts)]
      /\ In ready_log (upto_open (snd (createTunnel opts evs))))
  /\ (local_opens (snd (createTunnel opts evs)) = []
      \/ local_connected evs = false ->
      local_writes (snd (createTunnel opts evs)) = []).
Proof.
  destruct (opens_invariant opts evs) as (H1 & H2 & H3 & H4).
  destruct (opened (phase (fst (createTunnel opts evs)))) eqn:Ho.
  - split; [right; split; [exact H1|now apply H2]|].
    intros [Hn|Hc]; [rewrite H1 in Hn; discriminate|now apply H4].
  - split; [now left|]. intros _. now apply H3.
Qed.

(** X2. Once authentication or the wait for READY has failed, the session
    has ended the remote socket, and whatever its sockets deliver
    afterwards, it stays failed: it never opens a local socket, writes
    nothing to it, and writes nothing more to the remote socket. *)
Theorem failed_handshake_is_final opts evs1 evs2 :
  phase (fst (createTunnel opts evs1)) = Aborted ->
  remote_ended (snd (createTunnel opts evs1)) = true
  /\ phase (fst (createTunnel opts (evs1 ++ evs2))) = Aborted
  /\ local_opens (snd (createTunnel opts (evs1 ++ evs2))) = []
  /\ local_writes (snd (createTunnel opts (evs1 ++ evs2))) = []
  /\ remote_writes (snd (createTunnel opts (evs1 ++ evs2)))
     = remote_writes (snd (createTunnel opts evs1)).
Proof.
  intros Hph. split; [now apply aborted_invariant|].
  destruct (opens_invariant opts evs1) as (H1 & _ & H3 & _).
  rewrite Hph in H1, H3. cbn [opened] in H1, H3. specialize (H3 eq_refl).
  unfold createTunnel in *. rewrite run_app, fst_andThen, snd_andThen.
  destruct (fst (run opts {| phase := Dialing; settled := Pending;
                            remote := Up |} evs1))
    as [ph p l]. cbn [phase] in Hph. subst ph.
  destruct (aborted_run opts evs2 p l) as (A1 & A2 & A3 & A4).
  rewrite local_opens_app, local_writes_app, remote_writes_app.
  rewrite H1, H3, A2, A3, A4, !app_nil_r. repeat split; auto.
Qed.

Lemma failed_handshake_is_final_witness :
  phase (fst (createTunnel (example_opts (lit "localhost") None)
                [RemoteConnect; RemoteClose])) = Aborted
  /\ remote_ended
       (snd (createTunnel (example_opts (lit "localhost") None)
               [RemoteConnect; RemoteClose])) = true
  /\ phase (fst (createTunnel (example_opts (lit "localhost") None)
                   ([RemoteConnect; RemoteClose]
                    ++ [RemoteData (bytes_of "READY" ++ [LF]);
                        LocalConnect]))) = Aborted
  /\ local_opens
       (snd (createTunnel (example_opts (lit "localhost") None)
               ([RemoteConnect; RemoteClose]
                ++ [RemoteData (bytes_of "READY" ++ [LF]); LocalConnect])))
     = []
  /\ local_writes
       (snd (createTunnel (example_opts (lit "localhost") None)
               ([RemoteConnect; RemoteClose]
                ++ [RemoteData (bytes_of "READY" ++ [LF]); LocalConnect])))
     = []
  /\ remote_writes
       (snd (createTunnel (example_opts (lit "localhost") None)
               ([RemoteConnect; RemoteClose]
                ++ [RemoteData (bytes_of "READY" ++ [LF]); LocalConnect])))
     = remote_writes
         (snd (createTunnel (example_opts (lit "localhost") None)
                 [RemoteConnect; RemoteClose])).
Proof.
  split; [reflexivity|].
  apply (failed_handshake_is_final (example_opts (lit "localhost") None)
           [RemoteConnect; RemoteClose]
           [RemoteData (bytes_of "READY" ++ [LF]); LocalConnect]).
  reflexivity.
Defined.

(** X3. How the promise of [createTunnel] settles. While it is pending,
    the remote socket has not closed: a close of the remote socket never
    leaves it pending. It is fulfilled only when the remote socket has
    closed. It is rejected only with the error of an ['error'] event of one
    of the sockets or with one of the four errors that the handshake
    makes. (A rejection need not wait for the close.) *)
Theorem session_outcome opts evs :
  match settled (fst (createTunnel opts evs)) with
  | Pending => remote_closed evs = false
  | Fulfilled _ => remote_closed evs = true
  | Rejected e => cause e evs
  end.
Proof. exact (settle_invariant opts evs). Qed.

(** X4. What a session writes to the remote socket: once the socket has
    connected, first the authentication frame if a non-empty key is set,
    and after it nothing but [PONG] lines and chunks that the local socket
    delivered. *)
Theorem remote_receives_frame_pongs_and_local_data opts evs :
  exists rest,
    remote_writes (snd (createTunnel opts evs))
    = (if dialing (phase (fst (createTunnel opts evs))) then []
       else frame_of opts) ++ rest
    /\ Forall (fun d => d = Ready.PONG \/ In (LocalData d) evs) rest.
Proof.
  destruct (writes_invariant opts evs) as (rest & H1 & _ & H2).
  now exists rest.
Qed.

(** X5. While the pipes stand and both sockets stay open (neither ends,
    fails or closes), the session forwards in both directions, in order:
    the chunks of the remote socket go to the local socket, through the
    transformer if there is one, and the chunks of the local socket go to
    the remote socket as they are. *)
Theorem splice_forwards_both_ways opts evs1 evs2 pb tr :
  phase (fst (createTunnel opts evs1)) = Splicing pb tr ->
  remote (fst (createTunnel opts evs1)) = Up ->
  sockets_open evs2 = true ->
  local_writes (snd (createTunnel opts (evs1 ++ evs2)))
  = local_writes (snd (createTunnel opts evs1))
    ++ through (localHost opts) tr (remote_chunks evs2)
  /\ remote_writes (snd (createTunnel opts (evs1 ++ evs2)))
     = remote_writes (snd (createTunnel opts evs1)) ++ local_chunks evs2.
Proof.
  intros Hph Hup Ha. unfold createTunnel in *.
  rewrite run_app, snd_andThen, local_writes_app, remote_writes_app.
  destruct (fst (run opts {| phase := Dialing; settled := Pending;
                            remote := Up |} evs1))
    as [ph p l]. cbn [phase remote] in Hph, Hup. subst ph l.
  destruct (splice_run opts evs2 pb tr p Ha) as (H1 & H2 & _).
  now rewrite H1, H2.
Qed.

Lemma splice_forwards_both_ways_witness :
  phase (fst (createTunnel (example_opts (lit "app.internal") None)
                [RemoteConnect; RemoteData (bytes_of "READY" ++ [LF]);
                 LocalConnect]))
  = Splicing [] (Some false)
  /\ remote (fst (createTunnel (example_opts (lit "app.internal") None)
                    [RemoteConnect; RemoteData (bytes_of "READY" ++ [LF]);
                     LocalConnect]))
     = Up
  /\ sockets_open [RemoteData request_head; LocalData response_head;
                   RemoteData request_head] = true
  /\ local_writes
       (snd (createTunnel (example_opts (lit "app.internal") None)
               ([RemoteConnect; RemoteData (bytes_of "READY" ++ [LF]);
                 LocalConnect]
                ++ [RemoteData request_head; LocalData response_head;
                    RemoteData request_head])))
     = local_writes
         (snd (createTunnel (example_opts (lit "app.internal") None)
                 [RemoteConnect; RemoteData (bytes_of "READY" ++ [LF]);
                  LocalConnect]))
       ++ through (localHost (example_opts (lit "app.internal") None))
            (Some false)
            (remote_chunks [RemoteData request_head; LocalData response_head;
                            RemoteData request_head])
  /\ remote_writes
       (snd (createTunnel (example_opts (lit "app.internal") None)
               ([RemoteConnect; RemoteData (bytes_of "READY" ++ [LF]);
                 LocalConnect]
                ++ [RemoteData request_head; LocalData response_head;
                    RemoteData request_head])))
     = remote_writes
         (snd (createTunnel (example_opts (lit "app.internal") None)
                 [RemoteConnect; RemoteData (bytes_of "READY" ++ [LF]);
                  LocalConnect]))
       ++ local_chunks [RemoteData request_head; LocalData response_head;
                        RemoteData request_head].
Proof.
  split; [reflexivity|]. split; [reflexivity|]. split; [reflexivity|].
  apply (splice_forwards_both_ways (example_opts (lit "app.internal") None)
           [RemoteConnect; RemoteData (bytes_of "READY" ++ [LF]);
            LocalConnect]
           [RemoteData request_head; LocalData response_head;
            RemoteData request_head] [] (Some false));
    reflexivity.
Defined.

(** X6. A session whose promise is rejected has called [end] on its remote
    socket: no rejection leaves the connection to the tunnel server
    open. *)
Theorem rejected_session_has_ended_remote opts evs e :
  settled (fst (createTunnel opts evs)) = Rejected e ->
  remote_ended (snd (createTunnel opts evs)) = true.
Proof.
  revert e.
  apply (createTunnel_ind opts
           (fun _ s t =>
              forall e, settled s = Rejected e -> remote_ended t = true)).
  - discriminate.
  - clear evs. intros evs s t ev IH e. rewrite remote_ended_app.
    step_cases s ev; cbn [settled] in IH;
      destruct p as [|[]|e0]; cbn [resolve reject settled fst snd phase];
      intros Hr; try discriminate;
      rewrite ?remote_ended_app; cbn [remote_ended existsb orb];
      rewrite ?orb_true_r; auto;
      rewrite (IH _ eq_refl); reflexivity.
Qed.

Lemma rejected_session_has_ended_remote_witness :
  settled (fst (createTunnel (example_opts (lit "localhost") None)
                  [RemoteConnect;
                   RemoteError (ErrorObj "read ECONNRESET"
                                         (Some "ECONNRESET"%string))]))
  = Rejected (ErrorObj "read ECONNRESET" (Some "ECONNRESET"%string))
  /\ remote_ended
       (snd (createTunnel (example_opts (lit "localhost") None)
               [RemoteConnect;
                RemoteError (ErrorObj "read ECONNRESET"
                                      (Some "ECONNRESET"%string))]))
     = true.
Proof.
  split; [reflexivity|].
  apply (rejected_session_has_ended_remote
           (example_opts (lit "localhost") None)
           [RemoteConnect;
            RemoteError (ErrorObj "read ECONNRESET"
                                  (Some "ECONNRESET"%string))]
           (ErrorObj "read ECONNRESET" (Some "ECONNRESET"%string))).
  reflexivity.
Defined.

Section PoolSessions.

Import Tnnlr.

Lemma default_host_no_transformer o e :
  opt_localHost o = None \/ opt_localHost o = Some []
  \/ opt_localHost o = Some (Text.lit "localhost")
  \/ opt_localHost o = Some (Text.lit "127.0.0.1") ->
  wants_transformer (tunnel_opts o e) = false.
Proof.
  unfold wants_transformer, tunnel_opts, localHost_of. cbn [localHost].
  intros [-> | [-> | [-> | ->]]]; reflexivity.
Qed.

Lemma step_local_writes opts s ev :
  wants_transformer opts = false ->
  transformer_as_configured opts (phase s) = true ->
  Forall (fun d => ev = RemoteData d) (local_writes (snd (step opts s ev))).
Proof.
  intros Hw Ht.
  step_cases s ev; cbn [transformer_as_configured] in Ht;
    try congruence;
    rewrite ?local_writes_app, ?Ho1, ?Hw1; cbn [local_writes flat_map app];
    repeat constructor.
Qed.

(** X7. With the local host that [tnnlr] uses by default (the option
    unset or empty), or with [localhost] or [127.0.0.1], no transformer
    stands between the sockets of a tunnel: every write to the local socket
    is a chunk that the remote socket delivered, byte for byte. *)
Theorem default_local_host_passes_bytes_through o e evs :
  opt_localHost o = None \/ opt_localHost o = Some []
  \/ opt_localHost o = Some (Text.lit "localhost")
  \/ opt_localHost o = Some (Text.lit "127.0.0.1") ->
  Forall (fun d => In (RemoteData d) evs)
         (local_writes (snd (createTunnel (tunnel_opts o e) evs))).
Proof.
  intros Hh. pose proof (default_host_no_transformer o e Hh) as Hw.
  apply (createTunnel_ind (tunnel_opts o e)
           (fun evs s t =>
              transformer_as_configured (tunnel_opts o e) (phase s) = true
              /\ Forall (fun d => In (RemoteData d) evs) (local_writes t))).
  - split; [reflexivity|constructor].
  - clear evs. intros evs s t ev [Ht Hf]. split.
    + now apply step_transformer.
    + rewrite local_writes_app. apply Forall_app. split.
      * eapply Forall_impl; [|exact Hf]. intros d Hd. apply in_app_iff. now left.
      * eapply Forall_impl; [|exact (step_local_writes _ s ev Hw Ht)].
        intros d ->. apply in_app_iff. right. now left.
Qed.

End PoolSessions.

Lemma default_local_host_passes_bytes_through_witness :
  (Tnnlr.opt_localHost example_options = None
   \/ Tnnlr.opt_localHost example_options = Some []
   \/ Tnnlr.opt_localHost example_options = Some (Text.lit "localhost")
   \/ Tnnlr.opt_localHost example_options = Some (Text.lit "127.0.0.1"))
  /\ local_writes
       (snd (Tunnel.createTunnel
               (Tnnlr.tunnel_opts example_options example_endpoint)
               [Tunnel.RemoteConnect;
                Tunnel.RemoteData (bytes_of "AUTH_OK");
                Tunnel.RemoteData (bytes_of "READY" ++ [LF]);
                Tunnel.LocalConnect;
                Tunnel.RemoteData request_head;
                Tunnel.RemoteData [xff; xfe; LF]]))
     = [request_head; [xff; xfe; LF]]
  /\ Forall (fun d => In (Tunnel.RemoteData d)
                       [Tunnel.RemoteConnect;
                        Tunnel.RemoteData (bytes_of "AUTH_OK");
                        Tunnel.RemoteData (bytes_of "READY" ++ [LF]);
                        Tunnel.LocalConnect;
                        Tunnel.RemoteData request_head;
                        Tunnel.RemoteData [xff; xfe; LF]])
         (local_writes
            (snd (Tunnel.createTunnel
                    (Tnnlr.tunnel_opts example_options example_endpoint)
                    [Tunnel.RemoteConnect;
                     Tunnel.RemoteData (bytes_of "AUTH_OK");
                     Tunnel.RemoteData (bytes_of "READY" ++ [LF]);
                     Tunnel.LocalConnect;
                     Tunnel.RemoteData request_head;
                     Tunnel.RemoteData [xff; xfe; LF]]))).
Proof.
  split; [now left|]. split; [reflexivity|].
  apply (default_local_host_passes_bytes_through example_options
           example_endpoint
           [Tunnel.RemoteConnect;
            Tunnel.RemoteData (bytes_of "AUTH_OK");
            Tunnel.RemoteData (bytes_of "READY" ++ [LF]);
            Tunnel.LocalConnect;
            Tunnel.RemoteData request_head;
            Tunnel.RemoteData [xff; xfe; LF]]).
  now left.
Defined.

End SessionFacts.

(** ** The waiter: every byte accounted for *)

Section WaiterAccounts.

Import Text Ready Stream.

Lemma indexOf_split b nl :
  indexOf LF b = Some nl ->
  b = firstn nl b ++ LF :: skipn (S nl) b /\ unbroken (firstn nl b) = true.
Proof.
  revert nl. induction b as [|x r IH]; intros nl H; [discriminate|].
  simpl in H. destruct (Byte.eqb x LF) eqn:Ex.
  - inversion H. subst nl. apply Byte.byte_dec_bl in Ex. subst x. split; reflexivity.
  - destruct (indexOf LF r) as [n|] eqn:Er; [|discriminate].
    simpl in H. inversion H. subst nl. destruct (IH n eq_refl) as [Hb Hu].
    split.
    + cbn [firstn skipn app]. f_equal. exact Hb.
    + unfold unbroken in *. simpl. rewrite Ex.
      destruct (indexOf LF (firstn n r)); [discriminate|reflexivity].
Qed.

(** One pass of the loop accounts for every byte of its buffer: it removes
    [PING] lines from the head, one [PONG] each, and what it leaves is
    either the rest of the buffer, or the residue behind a [READY] line. *)
Lemma scan_accounts b :
  exists pings,
    forallb ping_line pings = true
    /\ remote_writes (snd (scan b)) = repeat PONG (List.length pings)
    /\ match fst (scan b) with
       | Waiting buf =>
           b = join pings ++ buf
           /\ (unbroken buf = true
               \/ exists j rest,
                   buf = j ++ LF :: rest /\ other_line j = true
                   /\ (size buf <= CAP)%Z)
       | Resolved residue =>
           exists l, ready_line l = true /\ b = join pings ++ l ++ LF :: residue
       | Failed e =>
           e = newError "Unexpected data before READY"
           /\ exists j rest,
               other_line j = true /\ b = join pings ++ j ++ LF :: rest
               /\ (size (j ++ LF :: rest) > CAP)%Z
       end.
Proof.
  remember (List.length b) as n eqn:Hn. revert b Hn.
  induction n as [n IH] using lt_wf_ind. intros b Hn.
  remember (scan b) as sb eqn:Hsb. rewrite scan_body in Hsb.
  destruct (indexOf LF b) as [nl|] eqn:Hnl.
  - pose proof (indexOf_lt _ _ _ Hnl) as Hlt.
    destruct (indexOf_split _ _ Hnl) as [Hb Hu].
    fold (remainder_at nl b) in Hb.
    assert (Htext : line_at nl b = text (firstn nl b)) by reflexivity.
    rewrite Htext in Hsb.
    destruct (jseq (text (firstn nl b)) READY) eqn:Er.
    + subst sb. exists []. cbn [fst snd]. repeat split; auto.
      exists (firstn nl b). unfold ready_line. rewrite Hu, Er. now split.
    + destruct (jseq (text (firstn nl b)) PING) eqn:Ep.
      * destruct (IH (List.length (remainder_at nl b))
                     ltac:(subst n; now apply remainder_at_length)
                     (remainder_at nl b) eq_refl)
          as (pings & Hp & Hw & Hst).
        subst sb. exists (firstn nl b :: pings). rewrite fst_emit, snd_emit.
        cbn [forallb List.length repeat]. unfold ping_line at 1.
        rewrite Hu, Ep, Hp, remote_writes_app, Hw.
        split; [reflexivity|]. split; [reflexivity|].
        cbn [join flat_map]. fold (join pings). rewrite <- !app_assoc.
        cbn [app].
        destruct (fst (scan (remainder_at nl b))) as [buf|r|e].
        -- destruct Hst as [Hr Hk]. split; [|exact Hk].
           transitivity (firstn nl b ++ LF :: remainder_at nl b);
             [exact Hb|rewrite Hr, <- ?app_assoc; reflexivity].
        -- destruct Hst as (l & Hl & Hr). exists l. split; [exact Hl|].
           transitivity (firstn nl b ++ LF :: remainder_at nl b);
             [exact Hb|rewrite Hr, <- ?app_assoc; reflexivity].
        -- destruct Hst as (He & j & rest & Hj & Hr & Hs). split; [exact He|].
           exists j, rest. repeat split; auto.
           transitivity (firstn nl b ++ LF :: remainder_at nl b);
             [exact Hb|rewrite Hr, <- ?app_assoc; reflexivity].
      * assert (Ho : other_line (firstn nl b) = true).
        { unfold other_line. now rewrite Hu, Er, Ep. }
        destruct (Z.of_nat (List.length b) >? CAP)%Z eqn:Ec; subst sb;
          exists []; cbn [fst snd forallb List.length repeat join flat_map app];
          (split; [reflexivity|]); (split; [reflexivity|]).
        -- split; [reflexivity|]. exists (firstn nl b), (remainder_at nl b).
           repeat split; auto. rewrite <- Hb. unfold size.
           apply Z.gtb_lt in Ec. lia.
        -- split; [reflexivity|]. right.
           exists (firstn nl b), (remainder_at nl b). repeat split; auto.
           unfold size. rewrite Z.gtb_ltb in Ec. apply Z.ltb_ge in Ec. exact Ec.
  - subst sb. exists []. cbn [fst snd]. repeat split; auto.
    left. unfold unbroken. now rewrite Hnl.
Qed.

Lemma waitForReady_one b :
  fst (waitForReady [Data b]) = fst (scan b)
  /\ remote_writes (snd (waitForReady [Data b])) = remote_writes (snd (scan b)).
Proof.
  unfold waitForReady. cbn [listen handle]. unfold onData. cbn [app].
  rewrite fst_andThen, snd_andThen, remote_writes_app.
  destruct (fst (scan b)); cbn; rewrite ?app_nil_r; split; reflexivity.
Qed.

(** X8. The waiter accounts for every byte it is given. Of the chunks
    delivered to it, it consumes an initial part [pre]; the bytes consumed
    are a run of [PING] lines, each answered by one [PONG] and by nothing
    else, followed by: the buffer, while it waits (and then every chunk was
    consumed, and the buffer has no complete line, or is headed by a line
    that is neither [READY] nor [PING] and is no larger than the cap); or a
    [READY] line and the residue that the promise resolves with; or, when
    it fails, a line that is neither [READY] nor [PING] in a buffer larger
    than the cap. *)
Theorem waiter_accounts_for_every_byte chunks :
  exists pre post pings,
    chunks = pre ++ post
    /\ forallb ping_line pings = true
    /\ remote_writes (snd (waitForReady (map Data chunks)))
       = repeat PONG (List.length pings)
    /\ match fst (waitForReady (map Data chunks)) with
       | Waiting buf =>
           post = [] /\ concat chunks = join pings ++ buf
           /\ (unbroken buf = true
               \/ exists j rest,
                   buf = j ++ LF :: rest /\ other_line j = true
                   /\ (size buf <= CAP)%Z)
       | Resolved residue =>
           exists l,
             ready_line l = true /\ concat pre = join pings ++ l ++ LF :: residue
       | Failed e =>
           e = newError "Unexpected data before READY"
           /\ exists j rest,
               other_line j = true
               /\ concat pre = join pings ++ j ++ LF :: rest
               /\ (size (j ++ LF :: rest) > CAP)%Z
       end.
Proof.
  unfold waitForReady.
  destruct (listen_events (map Data chunks) [] [] [] scan_empty)
    as [(pre & post & Hc & Hf & Hw & Hpost)|[(e & _ & Hin)|[_ Hin]]].
  - rewrite chunks_of_data in Hc. cbn [app remote_writes flat_map] in Hf, Hw.
    destruct (scan_accounts (concat pre)) as (pings & Hp & Hpw & Hst).
    exists pre, post, pings. rewrite <- Hw, <- Hf.
    split; [exact Hc|]. split; [exact Hp|]. split; [exact Hpw|].
    destruct (fst (scan (concat pre))) as [buf|r|e] eqn:E; [|exact Hst|exact Hst].
    rewrite <- Hf in Hpost. specialize (Hpost buf eq_refl). subst post.
    rewrite app_nil_r in Hc. subst pre. destruct Hst as [H1 H2]. auto.
  - now apply no_error_in_data in Hin.
  - now apply no_close_in_data in Hin.
Qed.

(** X9. The waiter does not depend on how the stream is cut into chunks:
    the chunks it consumes, delivered as one chunk, give the same outcome
    and the same answers; and while it waits it has consumed every chunk. *)
Theorem waiter_ignores_chunk_boundaries chunks :
  exists pre post,
    chunks = pre ++ post
    /\ fst (waitForReady (map Data chunks))
       = fst (waitForReady [Data (concat pre)])
    /\ remote_writes (snd (waitForReady (map Data chunks)))
       = remote_writes (snd (waitForReady [Data (concat pre)]))
    /\ match fst (waitForReady (map Data chunks)) with
       | Waiting _ => post = []
       | _ => True
       end.
Proof.
  destruct (listen_events (map Data chunks) [] [] [] scan_empty)
    as [(pre & post & Hc & Hf & Hw & Hpost)|[(e & _ & Hin)|[_ Hin]]].
  - rewrite chunks_of_data in Hc. cbn [app remote_writes flat_map] in Hf, Hw.
    exists pre, post. destruct (waitForReady_one (concat pre)) as [H1 H2].
    rewrite H1, H2. unfold waitForReady. rewrite <- Hf, <- Hw.
    repeat split; auto.
    destruct (fst (scan (concat pre))) as [buf| |] eqn:E; auto.
    rewrite <- Hf in Hpost. now apply (Hpost buf).
  - now apply no_error_in_data in Hin.
  - now apply no_close_in_data in Hin.
Qed.

Lemma decode_ascii bs :
  forallb (fun b => (Byte.to_N b <=? 0x7F)%N) bs = true ->
  toString bs = map Byte.to_N bs.
Proof.
  unfold toString. induction bs as [|b bs IH]; intros H; [reflexivity|].
  cbn [forallb] in H. apply andb_true_iff in H. destruct H as [Hb Hbs].
  cbn [decode_from decode_step map]. unfold decode_lead. rewrite Hb.
  cbn [app]. now rewrite IH.
Qed.

Lemma trimStart_pad p s :
  forallb is_ws p = true -> trimStart (p ++ s) = trimStart s.
Proof.
  induction p as [|c p IH]; intros H; [reflexivity|].
  cbn [forallb] in H. apply andb_true_iff in H. destruct H as [Hc Hp].
  cbn [app trimStart]. rewrite Hc. now apply IH.
Qed.

Lemma forallb_rev {A} (f : A -> bool) l : forallb f (rev l) = forallb f l.
Proof.
  induction l as [|x l IH]; [reflexivity|].
  cbn [rev]. rewrite forallb_app, IH. cbn. rewrite andb_true_r. apply andb_comm.
Qed.

(** Padding of white space around a word that starts and ends with other
    characters is trimmed away. *)
Lemma trim_padded p1 p2 a w z :
  forallb is_ws p1 = true -> forallb is_ws p2 = true ->
  is_ws a = false -> is_ws z = false ->
  trim (p1 ++ (a :: w ++ [z]) ++ p2) = a :: w ++ [z].
Proof.
  intros H1 H2 Ha Hz. unfold trim, trimEnd.
  rewrite (trimStart_pad _ _ H1). cbn [app trimStart]. rewrite Ha.
  change (a :: (w ++ [z]) ++ p2) with ((a :: w ++ [z]) ++ p2).
  rewrite rev_app_distr, trimStart_pad by now rewrite forallb_rev.
  change (a :: w ++ [z]) with ((a :: w) ++ [z]).
  rewrite rev_app_distr. cbn [rev app trimStart]. rewrite Hz.
  change (z :: rev w ++ [a]) with ([z] ++ rev (a :: w)).
  rewrite rev_app_distr, rev_involutive. reflexivity.
Qed.

Lemma pad_byte_spec b :
  pad_byte b = true ->
  (Byte.to_N b <=? 0x7F)%N = true /\ is_ws (Byte.to_N b) = true
  /\ Byte.eqb b LF = false.
Proof. destruct b; try discriminate; intros _; repeat split; reflexivity. Qed.

Lemma pad_bytes p :
  forallb pad_byte p = true ->
  forallb (fun b => (Byte.to_N b <=? 0x7F)%N) p = true
  /\ forallb is_ws (map Byte.to_N p) = true
  /\ unbroken p = true.
Proof.
  induction p as [|b p IH]; intros H; [repeat split; reflexivity|].
  cbn [forallb] in H. apply andb_true_iff in H. destruct H as [Hb Hp].
  destruct (pad_byte_spec _ Hb) as (B1 & B2 & B3).
  destruct (IH Hp) as (I1 & I2 & I3).
  cbn [forallb map]. rewrite B1, B2, I1, I2. repeat split; auto.
  change (b :: p) with ([b] ++ p). apply unbroken_app; [|exact I3].
  unfold unbroken. cbn. now rewrite B3.
Qed.

(** The text of a control word with padding around it is the word. *)
Lemma padded_word_text p1 p2 (word : string) a w z :
  forallb pad_byte p1 = true -> forallb pad_byte p2 = true ->
  forallb (fun b => (Byte.to_N b <=? 0x7F)%N) (bytes_of word) = true ->
  map Byte.to_N (bytes_of word) = a :: w ++ [z] ->
  is_ws a = false -> is_ws z = false ->
  unbroken (bytes_of word) = true ->
  text (p1 ++ bytes_of word ++ p2) = a :: w ++ [z]
  /\ unbroken (p1 ++ bytes_of word ++ p2) = true.
Proof.
  intros H1 H2 Hw Hm Ha Hz Hu.
  destruct (pad_bytes _ H1) as (A1 & W1 & U1).
  destruct (pad_bytes _ H2) as (A2 & W2 & U2).
  split.
  - unfold text. rewrite decode_ascii
      by (rewrite !forallb_app, A1, A2, Hw; reflexivity).
    rewrite !map_app, Hm. now apply trim_padded.
  - apply unbroken_app; [exact U1|]. now apply unbroken_app.
Qed.

(** X10. Horizontal white space and carriage returns around a control word
    do not matter: a padded [READY] line resolves the waiter with the bytes
    behind the line terminator, and a padded [PING] line is answered by
    [PONG] before the rest of the chunk is read. *)
Theorem padded_control_lines p1 p2 tail :
  forallb pad_byte p1 = true ->
  forallb pad_byte p2 = true ->
  onData [] (p1 ++ bytes_of "READY" ++ p2 ++ LF :: tail)
  = (Resolved tail, [control_log READY])
  /\ onData [] (p1 ++ bytes_of "PING" ++ p2 ++ LF :: tail)
     = emit [control_log PING; Log debug "Responding to PING with PONG" [];
             RemoteWrite PONG] (onData [] tail).
Proof.
  intros H1 H2. unfold onData. cbn [app]. split.
  - destruct (padded_word_text p1 p2 "READY" 82%N (lit "EAD") 89%N H1 H2)
      as [Ht Hu]; try reflexivity.
    replace (p1 ++ bytes_of "READY" ++ p2 ++ LF :: tail)
      with ((p1 ++ bytes_of "READY" ++ p2) ++ LF :: tail)
      by now rewrite <- !app_assoc.
    apply scan_ready. unfold ready_line. rewrite Hu, Ht. reflexivity.
  - destruct (padded_word_text p1 p2 "PING" 80%N (lit "IN") 71%N H1 H2)
      as [Ht Hu]; try reflexivity.
    replace (p1 ++ bytes_of "PING" ++ p2 ++ LF :: tail)
      with ((p1 ++ bytes_of "PING" ++ p2) ++ LF :: tail)
      by now rewrite <- !app_assoc.
    apply scan_ping. unfold ping_line. rewrite Hu, Ht. reflexivity.
Qed.

Lemma padded_control_lines_witness :
  forallb pad_byte [x20] = true
  /\ forallb pad_byte [x0d] = true
  /\ onData [] ([x20] ++ bytes_of "READY" ++ [x0d] ++ LF :: bytes_of "GET /")
     = (Resolved (bytes_of "GET /"), [control_log READY])
  /\ onData [] ([x20] ++ bytes_of "PING" ++ [x0d] ++ LF :: bytes_of "GET /")
     = emit [control_log PING; Log debug "Responding to PING with PONG" [];
             RemoteWrite PONG] (onData [] (bytes_of "GET /")).
Proof.
  split; [reflexivity|]. split; [reflexivity|].
  apply (padded_control_lines [x20] [x0d] (bytes_of "GET /")); reflexivity.
Defined.

End WaiterAccounts.

(** ** [tnnlr] and [runPersistentTunnel] *)

Section TnnlrFacts.

Import Tnnlr Retry.
Local Open Scope Z_scope.

Lemma spawn_body o e i :
  Pool.spawn o e i
  = if i <? maxConnections o
    then (i + 1, tunnel_opts o e) :: Pool.spawn o e (i + 1)
    else [].
Proof.
  funelim (Pool.spawn o e i);
    repeat match goal with H : (_ <? _) = _ |- _ => rewrite H end; reflexivity.
Qed.

Lemma spawn_spec n : forall o e i,
  n = Z.to_nat (maxConnections o - i) ->
  map fst (Pool.spawn o e i) = ids_from i n
  /\ Forall (fun t => snd t = tunnel_opts o e) (Pool.spawn o e i).
Proof.
  induction n as [|n IH]; intros o e i Hn; rewrite spawn_body.
  - replace (i <? maxConnections o) with false
      by (symmetry; apply Z.ltb_ge; lia).
    split; [reflexivity|constructor].
  - replace (i <? maxConnections o) with true
      by (symmetry; apply Z.ltb_lt; lia).
    destruct (IH o e (i + 1) ltac:(lia)) as [H1 H2].
    cbn [map fst ids_from]. rewrite H1. split; [reflexivity|].
    constructor; [reflexivity|exact H2].
Qed.

Lemma ids_from_length n : forall first,
  List.length (ids_from first n) = n.
Proof.
  induction n as [|k IHk]; intros first; [reflexivity|].
  cbn [ids_from List.length]. now rewrite IHk.
Qed.

(** X11. [tnnlr] starts [maxConnections] persistent tunnels, none if the
    number is zero or negative; they are numbered from 1 and all get the
    same options. *)
Theorem pool_size o e :
  map fst (Pool.tunnels o e) = ids_from 0 (Z.to_nat (maxConnections o))
  /\ List.length (Pool.tunnels o e) = Z.to_nat (maxConnections o)
  /\ Forall (fun t => snd t = tunnel_opts o e) (Pool.tunnels o e).
Proof.
  destruct (spawn_spec (Z.to_nat (maxConnections o)) o e 0
              ltac:(now rewrite Z.sub_0_r)) as [H1 H2].
  unfold Pool.tunnels. split; [exact H1|]. split; [|exact H2].
  rewrite <- (length_map fst), H1. apply ids_from_length.
Qed.

Variable W : Type.
Variable getTunnelEndpoint : W -> (TunnelEndpoint + Thrown) * W.

Lemma calls_endpoint_log r :
  calls (snd (match fst r with
              | Returned e =>
                  (r, [Log debug
                         "Obtained tunnel endpoint: ${JSON.stringify(tunnelEndpoint)}"
                         [LStr (stringify_endpoint e)]])
              | Threw _ => (r, [])
              end : (Outcome TunnelEndpoint * W) * Trace)) = 0%nat.
Proof. now destruct (fst r). Qed.

Lemma acquire_calls o w :
  calls (snd (acquire getTunnelEndpoint o w))
  = calls (snd (retryAsync getTunnelEndpoint (retries_of o) (delay_of o) w)).
Proof.
  unfold acquire. rewrite snd_emit, calls_app, snd_andThen, calls_app.
  rewrite calls_endpoint_log. cbn. lia.
Qed.

Lemma acquire_result o w :
  fst (acquire getTunnelEndpoint o w)
  = fst (retryAsync getTunnelEndpoint (retries_of o) (delay_of o) w).
Proof.
  unfold acquire. rewrite fst_emit, fst_andThen.
  now destruct (fst (fst (retryAsync getTunnelEndpoint (retries_of o) (delay_of o) w))).
Qed.

(** X12. An unset [retry] option, and the value 0, still allow one retry:
    if the first request for the endpoint fails, [tnnlr] makes exactly one
    more, and the outcome of that one is the outcome; if the first request
    succeeds, it is the only one. *)
Theorem unset_retry_still_retries_once o w :
  retry o = None \/ retry o = Some 0 ->
  calls (snd (acquire getTunnelEndpoint o w))
  = match fst (getTunnelEndpoint w) with
    | inl _ => 1%nat
    | inr _ => 2%nat
    end
  /\ fst (fst (acquire getTunnelEndpoint o w))
     = match fst (getTunnelEndpoint w) with
       | inl e => Returned e
       | inr _ =>
           outcome_of (fst (getTunnelEndpoint (snd (getTunnelEndpoint w))))
       end.
Proof.
  intros Hr. rewrite acquire_calls, acquire_result.
  assert (H1 : retries_of o = 1).
  { unfold retries_of. destruct Hr as [-> | ->]; reflexivity. }
  rewrite H1. unfold retryAsync. rewrite loop_body. cbn [Z.leb Z.compare].
  destruct (getTunnelEndpoint w) as [[e|err] w1] eqn:E1; [split; reflexivity|].
  cbn [Z.add Z.gtb Z.compare Pos.compare Pos.compare_cont fst snd].
  rewrite snd_emit, fst_emit, calls_app, loop_body.
  cbn [Z.leb Z.add Z.compare Pos.compare Pos.compare_cont Pos.add].
  destruct (getTunnelEndpoint w1) as [[e|err2] w2] eqn:E2; split; reflexivity.
Qed.

(** X13. With a negative [retry] option [tnnlr] never asks for the
    endpoint: it logs its first line and fails with the error of the
    unreachable statement. *)
Theorem negative_retry_never_asks o w r :
  retry o = Some r -> r < 0 ->
  acquire getTunnelEndpoint o w
  = ((Threw (newError "Unreachable code"), w),
     [Log info "Tunneling to ${options.apiUrl}:${options.port}"
          [LStr (apiUrl o); LNum (opt_port o)]]).
Proof.
  intros Hr Hneg. unfold acquire.
  assert (H1 : retries_of o = r).
  { unfold retries_of. rewrite Hr.
    replace (r =? 0) with false; [reflexivity|].
    symmetry. apply Z.eqb_neq. lia. }
  rewrite H1, (retry_negative getTunnelEndpoint r (delay_of o) w Hneg).
  reflexivity.
Qed.

End TnnlrFacts.

Lemma unset_retry_still_retries_once_witness :
  (Tnnlr.retry (options_with_retry None) = None
   \/ Tnnlr.retry (options_with_retry None) = Some 0%Z)
  /\ calls (snd (Tnnlr.acquire answering_late (options_with_retry None) 0%nat))
     = match fst (answering_late 0%nat) with
       | inl _ => 1%nat
       | inr _ => 2%nat
       end
  /\ fst (fst (Tnnlr.acquire answering_late (options_with_retry None) 0%nat))
     = match fst (answering_late 0%nat) with
       | inl e => Retry.Returned e
       | inr _ =>
           outcome_of (fst (answering_late (snd (answering_late 0%nat))))
       end.
Proof.
  split; [now left|].
  apply (unset_retry_still_retries_once nat answering_late
           (options_with_retry None) 0%nat).
  now left.
Defined.

Lemma negative_retry_never_asks_witness :
  Tnnlr.retry (options_with_retry (Some (-1)%Z)) = Some (-1)%Z
  /\ (-1 < 0)%Z
  /\ Tnnlr.acquire answering_late (options_with_retry (Some (-1)%Z)) 0%nat
     = ((Retry.Threw (newError "Unreachable code"), 0%nat),
        [Log info "Tunneling to ${options.apiUrl}:${options.port}"
             [LStr (Tnnlr.apiUrl (options_with_retry (Some (-1)%Z)));
              LNum (Tnnlr.opt_port (options_with_retry (Some (-1)%Z)))]]).
Proof.
  split; [reflexivity|]. split; [lia|].
  apply (negative_retry_never_asks nat answering_late
           (options_with_retry (Some (-1)%Z)) 0%nat (-1)%Z); [reflexivity|lia].
Defined.

Section PersistentFacts.

Import Tunnel Session Persistent.
Local Open Scope Z_scope.

Lemma started_app t1 t2 : started (t1 ++ t2) = started t1 ++ started t2.
Proof. unfold started. apply flat_map_app. Qed.

Lemma loop_restarts id opts sessions : forall attempt,
  forallb remote_closed sessions = true ->
  started (loop id opts attempt sessions)
  = ids_from attempt (S (List.length sessions))
  /\ sleeps (loop id opts attempt sessions) = [].
Proof.
  induction sessions as [|evs rest IH]; intros attempt Hall.
  - split; reflexivity.
  - cbn [forallb] in Hall. apply andb_true_iff in Hall.
    destruct Hall as [Hc Hrest].
    destruct (IH (attempt + 1) Hrest) as [I1 I2].
    pose proof (settle_invariant opts evs) as Hs. unfold settle_inv in Hs.
    cbn [loop List.length].
    destruct (settled (fst (createTunnel opts evs))) as [|u|err].
    + congruence.
    + cbn [started sleeps flat_map app]. fold (started (loop id opts (attempt + 1) rest)).
      fold (sleeps (loop id opts (attempt + 1) rest)).
      rewrite I1, I2. split; reflexivity.
    + cbn [started sleeps flat_map app]. fold (started (loop id opts (attempt + 1) rest)).
      fold (sleeps (loop id opts (attempt + 1) rest)).
      rewrite I1, I2. split; reflexivity.
Qed.

(** X14. [runPersistentTunnel] neither gives up nor waits: if the remote
    socket of each of [n] successive sessions closes, then whether those
    sessions were fulfilled or rejected, attempts 1 to [n+1] are started,
    and the loop never sleeps between them. *)
Theorem persistent_tunnel_restarts_at_once id opts sessions :
  forallb remote_closed sessions = true ->
  started (runPersistentTunnel id opts sessions)
  = ids_from 0 (S (List.length sessions))
  /\ sleeps (runPersistentTunnel id opts sessions) = [].
Proof. apply loop_restarts. Qed.

End PersistentFacts.

Lemma persistent_tunnel_restarts_at_once_witness :
  forallb Session.remote_closed
          [[Tunnel.RemoteConnect; Tunnel.RemoteClose];
           [Tunnel.RemoteError (ErrorObj "refused" (Some "ECONNREFUSED"%string));
            Tunnel.RemoteClose]] = true
  /\ started
       (Persistent.runPersistentTunnel 1
          (Tnnlr.tunnel_opts example_options example_endpoint)
          [[Tunnel.RemoteConnect; Tunnel.RemoteClose];
           [Tunnel.RemoteError (ErrorObj "refused" (Some "ECONNREFUSED"%string));
            Tunnel.RemoteClose]])
     = ids_from 0 (S (List.length
                        [[Tunnel.RemoteConnect; Tunnel.RemoteClose];
                         [Tunnel.RemoteError
                            (ErrorObj "refused" (Some "ECONNREFUSED"%string));
                          Tunnel.RemoteClose]]))
  /\ sleeps
       (Persistent.runPersistentTunnel 1
          (Tnnlr.tunnel_opts example_options example_endpoint)
          [[Tunnel.RemoteConnect; Tunnel.RemoteClose];
           [Tunnel.RemoteError (ErrorObj "refused" (Some "ECONNREFUSED"%string));
            Tunnel.RemoteClose]])
     = [].
Proof.
  split; [reflexivity|].
  apply (persistent_tunnel_restarts_at_once 1
           (Tnnlr.tunnel_opts example_options example_endpoint)
           [[Tunnel.RemoteConnect; Tunnel.RemoteClose];
            [Tunnel.RemoteError (ErrorObj "refused" (Some "ECONNREFUSED"%string));
             Tunnel.RemoteClose]]).
  reflexivity.
Defined.

(** ** UTF-8: decoding undoes encoding *)

Section Utf8Facts.
Import Text.
Local Open Scope N_scope.

Ltac dlia := zify; Z.to_euclidean_division_equations; lia.

Lemma land_shiftl_low hi lo k : lo < 2 ^ k -> N.land (N.shiftl hi k) lo = 0.
Proof.
  intros H. apply N.bits_inj_0. intros n. rewrite N.land_spec.
  destruct (N.ltb_spec n k) as [Hn|Hn].
  - now rewrite N.shiftl_spec_low.
  - destruct (N.eq_dec lo 0) as [->|Hz]; [now rewrite N.bits_0, andb_false_r|].
    rewrite (N.bits_above_log2 lo n), andb_false_r; [reflexivity|].
    apply N.log2_lt_pow2; [lia|].
    eapply N.lt_le_trans; [exact H|]. apply N.pow_le_mono_r; lia.
Qed.

Lemma lor_add hi lo k :
  lo < 2 ^ k -> N.lor (N.shiftl hi k) lo = hi * 2 ^ k + lo.
Proof.
  intros H. rewrite <- N.lxor_lor by now apply land_shiftl_low.
  rewrite <- N.add_nocarry_lxor by now apply land_shiftl_low.
  now rewrite N.shiftl_mul_pow2.
Qed.

Lemma lead2 x : x < 32 -> N.lor 0xC0 x = 192 + x.
Proof. intros H. change 0xC0 with (N.shiftl 6 5). now rewrite lor_add. Qed.

Lemma lead3 x : x < 16 -> N.lor 0xE0 x = 224 + x.
Proof. intros H. change 0xE0 with (N.shiftl 14 4). now rewrite lor_add. Qed.

Lemma lead4 x : x < 8 -> N.lor 0xF0 x = 240 + x.
Proof. intros H. change 0xF0 with (N.shiftl 30 3). now rewrite lor_add. Qed.

Lemma continuation x : x < 64 -> N.lor 0x80 x = 128 + x.
Proof. intros H. change 0x80 with (N.shiftl 2 6). now rewrite lor_add. Qed.

Lemma low6 x : N.land x 0x3F = x mod 64.
Proof. change 0x3F with (N.ones 6). now rewrite N.land_ones. Qed.

Lemma low5 x : N.land x 0x1F = x mod 32.
Proof. change 0x1F with (N.ones 5). now rewrite N.land_ones. Qed.

Lemma low4 x : N.land x 0xF = x mod 16.
Proof. change 0xF with (N.ones 4). now rewrite N.land_ones. Qed.

Lemma low3 x : N.land x 0x7 = x mod 8.
Proof. change 0x7 with (N.ones 3). now rewrite N.land_ones. Qed.

Lemma join6 x y : N.lor (N.shiftl x 6) (N.land y 0x3F) = x * 64 + y mod 64.
Proof.
  rewrite low6, lor_add; [reflexivity|]. change (2 ^ 6) with 64. dlia.
Qed.

Lemma encode_cp_arith c :
  scalar c = true ->
  encode_cp c
  = if c <? 0x80 then [byte_of_N c]
    else if c <? 0x800 then
      [byte_of_N (192 + c / 64); byte_of_N (128 + c mod 64)]
    else if c <? 0x10000 then
      [byte_of_N (224 + c / 4096); byte_of_N (128 + (c / 64) mod 64);
       byte_of_N (128 + c mod 64)]
    else
      [byte_of_N (240 + c / 262144); byte_of_N (128 + (c / 4096) mod 64);
       byte_of_N (128 + (c / 64) mod 64); byte_of_N (128 + c mod 64)].
Proof.
  unfold scalar, encode_cp. intros H. apply andb_true_iff in H.
  destruct H as [Hmax Hs]. apply N.ltb_lt in Hmax.
  apply negb_true_iff in Hs. rewrite Hs.
  rewrite !low6, !N.shiftr_div_pow2.
  change (2 ^ 6) with 64. change (2 ^ 12) with 4096.
  change (2 ^ 18) with 262144.
  destruct (N.ltb_spec c 0x80); [reflexivity|].
  destruct (N.ltb_spec c 0x800).
  { rewrite lead2, continuation by dlia. reflexivity. }
  destruct (N.ltb_spec c 0x10000).
  { rewrite lead3, !continuation by dlia. reflexivity. }
  rewrite lead4, !continuation by dlia. reflexivity.
Qed.

Lemma decode_from_cons st b rest :
  decode_from st (b :: rest)
  = fst (decode_step st b) ++ decode_from (snd (decode_step st b)) rest.
Proof. cbn [decode_from]. now destruct (decode_step st b). Qed.

Lemma decode_ascii_byte v :
  v <= 0x7F -> decode_step None (byte_of_N v) = ([v], None).
Proof.
  intros H. unfold decode_step, decode_lead. rewrite to_N_byte_of_N.
  replace (v mod 256) with v by dlia.
  now replace (v <=? 0x7F) with true by (symmetry; now apply N.leb_le).
Qed.

Lemma decode_lead2 v :
  0xC2 <= v <= 0xDF ->
  decode_step None (byte_of_N v) = ([], Some (1%nat, v mod 32, 0x80, 0xBF)).
Proof.
  intros H. unfold decode_step, decode_lead. rewrite to_N_byte_of_N.
  replace (v mod 256) with v by dlia. rewrite low5.
  destruct (N.leb_spec v 0x7F); [lia|].
  destruct (N.leb_spec 0xC2 v); [|lia].
  destruct (N.leb_spec v 0xDF); [|lia]. reflexivity.
Qed.

Lemma decode_lead3 v :
  0xE0 <= v <= 0xEF ->
  decode_step None (byte_of_N v)
  = ([], Some (2%nat, v mod 16,
               (if v =? 0xE0 then 0xA0 else 0x80),
               (if v =? 0xED then 0x9F else 0xBF))).
Proof.
  intros H. unfold decode_step, decode_lead. rewrite to_N_byte_of_N.
  replace (v mod 256) with v by dlia. rewrite low4.
  destruct (N.leb_spec v 0x7F); [lia|].
  destruct (N.leb_spec 0xC2 v); [|lia].
  destruct (N.leb_spec v 0xDF); [lia|].
  destruct (N.leb_spec 0xE0 v); [|lia].
  destruct (N.leb_spec v 0xEF); [|lia]. reflexivity.
Qed.

Lemma decode_lead4 v :
  0xF0 <= v <= 0xF4 ->
  decode_step None (byte_of_N v)
  = ([], Some (3%nat, v mod 8,
               (if v =? 0xF0 then 0x90 else 0x80),
               (if v =? 0xF4 then 0x8F else 0xBF))).
Proof.
  intros H. unfold decode_step, decode_lead. rewrite to_N_byte_of_N.
  replace (v mod 256) with v by dlia. rewrite low3.
  destruct (N.leb_spec v 0x7F); [lia|].
  destruct (N.leb_spec 0xC2 v); [|lia].
  destruct (N.leb_spec v 0xDF); [lia|].
  destruct (N.leb_spec 0xE0 v); [|lia].
  destruct (N.leb_spec v 0xEF); [lia|].
  destruct (N.leb_spec 0xF0 v); [|lia].
  destruct (N.leb_spec v 0xF4); [|lia]. reflexivity.
Qed.

Lemma decode_continuation needed cp lower upper v :
  v < 256 -> lower <= v <= upper ->
  decode_step (Some (needed, cp, lower, upper)) (byte_of_N v)
  = match needed with
    | S (S k) => ([], Some (S k, cp * 64 + v mod 64, 0x80, 0xBF))
    | _ => ([cp * 64 + v mod 64], None)
    end.
Proof.
  intros Hv H. unfold decode_step. rewrite to_N_byte_of_N.
  replace (v mod 256) with v by dlia. rewrite join6.
  destruct (N.leb_spec lower v); [|lia].
  destruct (N.leb_spec v upper); [|lia]. reflexivity.
Qed.

(** Decoding undoes encoding, one scalar value at a time. *)
Lemma decode_encode_cp c rest :
  scalar c = true ->
  decode_from None (encode_cp c ++ rest) = c :: decode_from None rest.
Proof.
  intros Hc. rewrite (encode_cp_arith c Hc).
  unfold scalar, is_surrogate in Hc. apply andb_true_iff in Hc.
  destruct Hc as [Hmax Hs]. apply N.ltb_lt in Hmax.
  apply negb_true_iff, andb_false_iff in Hs.
  assert (Hsur : c < 0xD800 \/ 0xDFFF < c).
  { destruct Hs as [Hs|Hs]; [left; now apply N.leb_gt|right; now apply N.leb_gt]. }
  clear Hs.
  destruct (N.ltb_spec c 0x80).
  { cbn [app]. rewrite decode_from_cons, decode_ascii_byte by lia.
    reflexivity. }
  destruct (N.ltb_spec c 0x800).
  { cbn [app]. rewrite decode_from_cons, decode_lead2 by dlia.
    cbn [fst snd app]. rewrite decode_from_cons.
    rewrite decode_continuation by dlia. cbn [fst snd app].
    f_equal. dlia. }
  destruct (N.ltb_spec c 0x10000).
  { cbn [app]. rewrite decode_from_cons, decode_lead3 by dlia.
    cbn [fst snd app]. rewrite decode_from_cons.
    rewrite decode_continuation;
      [|dlia|destruct (N.eqb_spec (224 + c / 4096) 0xE0);
             destruct (N.eqb_spec (224 + c / 4096) 0xED); dlia].
    cbn [fst snd app]. rewrite decode_from_cons.
    rewrite decode_continuation by dlia. cbn [fst snd app].
    f_equal. dlia. }
  cbn [app]. rewrite decode_from_cons, decode_lead4 by dlia.
  cbn [fst snd app]. rewrite decode_from_cons.
  rewrite decode_continuation;
    [|dlia|destruct (N.eqb_spec (240 + c / 262144) 0xF0);
           destruct (N.eqb_spec (240 + c / 262144) 0xF4); dlia].
  cbn [fst snd app]. rewrite decode_from_cons.
  rewrite decode_continuation by dlia. cbn [fst snd app].
  rewrite decode_from_cons.
  rewrite decode_continuation by dlia. cbn [fst snd app].
  f_equal. dlia.
Qed.

Lemma toString_utf8 s : well_formed s = true -> toString (utf8 s) = s.
Proof.
  unfold toString, utf8, well_formed. induction s as [|c s IH]; intros H.
  - reflexivity.
  - cbn [forallb] in H. apply andb_true_iff in H. destruct H as [Hc Hs].
    cbn [flat_map]. rewrite decode_encode_cp by exact Hc. now rewrite IH.
Qed.

End Utf8Facts.

(** ** The transformer on well-formed text *)

Section TransformerFacts.
Import Text HostHeader.
Local Open Scope N_scope.


Lemma span_token tok post :
  forallb non_ws tok = true -> token_end post = true ->
  span non_ws (tok ++ post) = (tok, post).
Proof.
  induction tok as [|c tok IH]; intros Ht Hp.
  - destruct post as [|c post]; [reflexivity|].
    cbn [app span]. unfold non_ws at 1. cbn [token_end] in Hp. now rewrite Hp.
  - cbn [forallb] in Ht. apply andb_true_iff in Ht. destruct Ht as [Hc Ht].
    cbn [app span]. rewrite Hc, (IH Ht Hp). reflexivity.
Qed.

Lemma match_at_host_field h tok post :
  h = 0x48 \/ h = 0x68 -> tok <> [] ->
  forallb non_ws tok = true -> token_end post = true ->
  match_at (host_field h ++ tok ++ post) = Some (host_field h, tok, post).
Proof.
  intros Hh Hne Ht Hp. unfold host_field.
  assert (Hg : (h =? 0x48) || (h =? 0x68) = true).
  { destruct Hh as [-> | ->]; reflexivity. }
  assert (Hs : strip_prefix (lit "ost: ") (lit "ost: " ++ tok ++ post)
               = Some (tok ++ post)) by now apply strip_prefix_spec.
  change (([0x0D; 0x0A; h] ++ lit "ost: ") ++ tok ++ post)
    with (0x0D :: 0x0A :: h :: (lit "ost: " ++ tok ++ post)).
  unfold match_at. rewrite Hg, Hs, (span_token tok post Ht Hp).
  destruct tok; [congruence|reflexivity].
Qed.

Lemma strip_prefix_before_CR p : forall a r,
  forallb (fun c => negb (c =? 0x0D)) p = true ->
  strip_prefix p (a ++ 0x0D :: r)
  = match strip_prefix p a with
    | Some x => Some (x ++ 0x0D :: r)
    | None => None
    end.
Proof.
  induction p as [|c p IH]; intros a r Hp; [reflexivity|].
  cbn [forallb] in Hp. apply andb_true_iff in Hp. destruct Hp as [Hc Hp].
  apply negb_true_iff in Hc.
  destruct a as [|b a]; cbn [app strip_prefix].
  - now rewrite Hc.
  - destruct (c =? b); [now apply IH|reflexivity].
Qed.

Lemma span_before_CR x r :
  fst (span non_ws x) = [] -> fst (span non_ws (x ++ 0x0D :: r)) = [].
Proof.
  destruct x as [|c x]; intros H; [reflexivity|].
  cbn [app span] in *. destruct (non_ws c); [|reflexivity].
  destruct (span non_ws x). discriminate.
Qed.

(** A match cannot begin before a carriage return and reach beyond it. *)
Lemma match_at_before_CR s r :
  s <> [] -> match_at s = None -> match_at (s ++ 0x0D :: r) = None.
Proof.
  intros Hne Hs.
  destruct s as [|c1 [|c2 [|h rest]]]; [congruence| | |].
  - cbn [app]. unfold match_at. destruct r as [|h r]; [reflexivity|].
    cbn [N.eqb Pos.eqb]. now rewrite andb_false_r.
  - cbn [app]. unfold match_at. cbn [N.eqb Pos.eqb orb].
    now rewrite andb_false_r.
  - cbn [app]. unfold match_at in *.
    destruct ((c1 =? 0x0D) && (c2 =? 0x0A) && ((h =? 0x48) || (h =? 0x68)));
      [|reflexivity].
    rewrite strip_prefix_before_CR by reflexivity.
    destruct (strip_prefix (lit "ost: ") rest) as [x|]; [|reflexivity].
    pose proof (span_before_CR x r) as Hx.
    destruct (span non_ws x) as [[|t tok] post]; [|discriminate].
    specialize (Hx eq_refl).
    destruct (span non_ws (x ++ 0x0D :: r)) as [tok' post'].
    cbn [fst] in Hx. now subst tok'.
Qed.

(** The leftmost [Host] header gets the new value; nothing else changes. *)
Lemma replace_host_field host pre h tok post :
  has_host pre = false ->
  h = 0x48 \/ h = 0x68 -> tok <> [] ->
  forallb non_ws tok = true -> token_end post = true ->
  replace host (pre ++ host_field h ++ tok ++ post)
  = (pre ++ host_field h ++ host ++ post, true).
Proof.
  intros Hpre Hh Hne Ht Hp. induction pre as [|c pre IH].
  - cbn [app]. destruct (host_field h ++ tok ++ post) eqn:E;
      pose proof (match_at_host_field h tok post Hh Hne Ht Hp) as Hm;
      rewrite E in Hm; cbn [replace]; rewrite Hm; reflexivity.
  - cbn [has_host] in Hpre.
    destruct (match_at (c :: pre)) eqn:Hm; [discriminate|].
    pose proof (match_at_before_CR (c :: pre)
                  (0x0A :: h :: lit "ost: " ++ tok ++ post)
                  ltac:(discriminate) Hm) as Hx.
    change ((c :: pre) ++ host_field h ++ tok ++ post)
      with (c :: (pre ++ host_field h ++ tok ++ post)).
    change ((c :: pre) ++ 0x0D :: 0x0A :: h :: lit "ost: " ++ tok ++ post)
      with (c :: (pre ++ host_field h ++ tok ++ post)) in Hx.
    cbn [replace]. rewrite Hx, (IH Hpre). reflexivity.
Qed.



Lemma transform_host_field host pre h tok post :
  well_formed (pre ++ host_field h ++ tok ++ post) = true ->
  has_host pre = false ->
  h = 0x48 \/ h = 0x68 -> tok <> [] ->
  forallb non_ws tok = true -> token_end post = true ->
  transform host false (utf8 (pre ++ host_field h ++ tok ++ post))
  = (utf8 (pre ++ host_field h ++ host ++ post), true).
Proof.
  intros Hw Hpre Hh Hne Ht Hp. unfold transform.
  now rewrite (toString_utf8 _ Hw),
    (replace_host_field host pre h tok post Hpre Hh Hne Ht Hp).
Qed.


Lemma token_spec tok :
  token tok = true -> tok <> [] /\ forallb non_ws tok = true.
Proof. destruct tok; [discriminate|]. intros H. now split. Qed.

Lemma host_initial_spec h : host_initial h = true -> h = 0x48 \/ h = 0x68.
Proof.
  unfold host_initial. intros H. apply orb_true_iff in H.
  destruct H as [H|H]; apply N.eqb_eq in H; auto.
Qed.

Lemma token_app_end tok post :
  token tok = true -> token_end (tok ++ post) = false.
Proof.
  destruct tok as [|c tok]; [discriminate|]. cbn [token forallb app token_end].
  intros H. apply andb_true_iff in H. destruct H as [H _].
  now apply negb_true_iff in H.
Qed.



(** X16. The transformer depends on how the stream is cut into chunks.
    When a chunk ends inside the value of the [Host] header, only the part
    of the value in that chunk is replaced, and the rest of the old value,
    at the head of the next chunk, follows the new host; the same bytes in
    one chunk give the new host alone. *)
Theorem transformer_depends_on_chunking host pre h tok1 tok2 post :
  well_formed (pre ++ host_field h ++ tok1 ++ tok2 ++ post) = true ->
  has_host pre = false ->
  host_initial h = true ->
  token tok1 = true ->
  token tok2 = true ->
  token_end post = true ->
  utf8 (pre ++ host_field h ++ tok1) ++ utf8 (tok2 ++ post)
  = utf8 (pre ++ host_field h ++ tok1 ++ tok2 ++ post)
  /\ concat (createHeaderHostTransformer host
               [utf8 (pre ++ host_field h ++ tok1); utf8 (tok2 ++ post)])
     = utf8 (pre ++ host_field h ++ host ++ tok2 ++ post)
  /\ concat (createHeaderHostTransformer host
               [utf8 (pre ++ host_field h ++ tok1 ++ tok2 ++ post)])
     = utf8 (pre ++ host_field h ++ host ++ post).
Proof.
  intros Hw Hpre Hh H1 H2 Hp. unfold createHeaderHostTransformer.
  apply host_initial_spec in Hh.
  destruct (token_spec tok1 H1) as [Hne1 Ht1].
  destruct (token_spec tok2 H2) as [Hne2 Ht2].
  assert (Hw1 : well_formed (pre ++ host_field h ++ tok1) = true).
  { unfold well_formed in *. rewrite !forallb_app in *.
    apply andb_true_iff in Hw. destruct Hw as [Ha Hw].
    apply andb_true_iff in Hw. destruct Hw as [Hb Hw].
    apply andb_true_iff in Hw. destruct Hw as [Hc Hw].
    now rewrite Ha, Hb, Hc. }
  split; [|split].
  - rewrite <- utf8_app, <- !app_assoc. reflexivity.
  - cbn [pipe].
    pose proof (transform_host_field host pre h tok1 []) as Hx.
    rewrite !app_nil_r in Hx. rewrite (Hx Hw1 Hpre Hh Hne1 Ht1 eq_refl).
    rewrite transform_latched. cbn [fst concat]. rewrite app_nil_r.
    rewrite <- utf8_app, <- !app_assoc. reflexivity.
  - cbn [pipe].
    pose proof (transform_host_field host pre h (tok1 ++ tok2) post) as Hx.
    rewrite <- !app_assoc in Hx. rewrite Hx; auto.
    + cbn [fst concat]. now rewrite app_nil_r.
    + destruct tok1; [congruence|discriminate].
    + rewrite forallb_app, Ht1, Ht2. reflexivity.
Qed.

Lemma transformer_depends_on_chunking_witness :
  well_formed (lit "GET / HTTP/1.1" ++ host_field 0x48 ++ lit "public.ex"
               ++ lit "ample" ++ blank_line) = true
  /\ has_host (lit "GET / HTTP/1.1") = false
  /\ host_initial 0x48 = true
  /\ token (lit "public.ex") = true
  /\ token (lit "ample") = true
  /\ token_end blank_line = true
  /\ utf8 (lit "GET / HTTP/1.1" ++ host_field 0x48 ++ lit "public.ex")
     ++ utf8 (lit "ample" ++ blank_line)
     = utf8 (lit "GET / HTTP/1.1" ++ host_field 0x48 ++ lit "public.ex"
             ++ lit "ample" ++ blank_line)
  /\ concat (createHeaderHostTransformer (lit "app.internal")
               [utf8 (lit "GET / HTTP/1.1" ++ host_field 0x48
                      ++ lit "public.ex");
                utf8 (lit "ample" ++ blank_line)])
     = utf8 (lit "GET / HTTP/1.1" ++ host_field 0x48 ++ lit "app.internal"
             ++ lit "ample" ++ blank_line)
  /\ concat (createHeaderHostTransformer (lit "app.internal")
               [utf8 (lit "GET / HTTP/1.1" ++ host_field 0x48
                      ++ lit "public.ex" ++ lit "ample" ++ blank_line)])
     = utf8 (lit "GET / HTTP/1.1" ++ host_field 0x48 ++ lit "app.internal"
             ++ blank_line).
Proof.
  do 6 (split; [reflexivity|]).
  apply (transformer_depends_on_chunking (lit "app.internal")
           (lit "GET / HTTP/1.1") 0x48 (lit "public.ex") (lit "ample")
           blank_line);
    reflexivity.
Defined.

Lemma replace_hit host s : snd (replace host s) = has_host s.
Proof.
  induction s as [|c s IH].
  - reflexivity.
  - cbn [replace has_host]. destruct (match_at (c :: s)) as [[[g1 tok] post]|].
    + reflexivity.
    + destruct (replace host s). exact IH.
Qed.

Lemma transform_miss host c :
  hostless_chunk c = true -> transform host false c = (recoded c, false).
Proof.
  unfold hostless_chunk, transform, recoded. intros H.
  apply negb_true_iff in H. pose proof (replace_hit host (toString c)) as Hh.
  pose proof (replace_spec host (toString c)) as Hs.
  destruct (replace host (toString c)) as [out hit]. cbn [snd] in Hh.
  rewrite H in Hh. subst hit. now subst out.
Qed.

Lemma transform_hit host c :
  hostless_chunk c = false ->
  exists pre g1 tok post,
    toString c = pre ++ g1 ++ tok ++ post
    /\ (g1 = [0x0D; 0x0A] ++ lit "Host: " \/ g1 = [0x0D; 0x0A] ++ lit "host: ")
    /\ tok <> []
    /\ forallb non_ws tok = true
    /\ transform host false c = (utf8 (pre ++ g1 ++ host ++ post), true).
Proof.
  unfold hostless_chunk, transform. intros H.
  apply negb_false_iff in H. pose proof (replace_hit host (toString c)) as Hh.
  pose proof (replace_spec host (toString c)) as Hs.
  destruct (replace host (toString c)) as [out hit]. cbn [snd] in Hh.
  rewrite H in Hh. subst hit.
  destruct Hs as (pre & g1 & tok & post & E & Eo & Hg & Hne & Htok).
  exists pre, g1, tok, post. subst out. repeat split; auto.
Qed.

(** Over the chunks given to a new transformer, at most one is rewritten:
    the first in which the pattern matches. *)
Lemma pipe_fresh_cases host chunks :
  (forallb hostless_chunk chunks = true
   /\ pipe host false chunks = (map recoded chunks, false))
  \/ exists before c after pre g1 tok post,
      chunks = before ++ c :: after
      /\ forallb hostless_chunk before = true
      /\ toString c = pre ++ g1 ++ tok ++ post
      /\ (g1 = [0x0D; 0x0A] ++ lit "Host: "
          \/ g1 = [0x0D; 0x0A] ++ lit "host: ")
      /\ tok <> []
      /\ forallb non_ws tok = true
      /\ pipe host false chunks
         = (map recoded before ++ utf8 (pre ++ g1 ++ host ++ post) :: after,
            true).
Proof.
  induction chunks as [|c chunks IH]; [left; split; reflexivity|].
  destruct (hostless_chunk c) eqn:Hc.
  - cbn [pipe forallb map]. rewrite (transform_miss host c Hc), Hc.
    destruct IH as [[Hall Hp]|(before & c' & after & pre & g1 & tok & post
                               & E & Hb & Ht & Hg & Hne & Htok & Hp)].
    + left. rewrite Hp. split; [exact Hall|reflexivity].
    + right. exists (c :: before), c', after, pre, g1, tok, post.
      rewrite Hp, E. cbn [forallb map app]. rewrite Hc, Hb.
      repeat split; auto.
  - right. destruct (transform_hit host c Hc)
      as (pre & g1 & tok & post & Ht & Hg & Hne & Htok & Htr).
    exists [], c, chunks, pre, g1, tok, post.
    cbn [pipe app forallb map]. rewrite Htr, pipe_latched.
    repeat split; auto.
Qed.

(** C6. The transformer is in the pipeline of a session exactly when
    [localHost] is neither [localhost] nor [127.0.0.1]. Whatever the sockets
    deliver, the writes to the local socket are what one pipe makes of
    chunks of the remote socket. Without the transformer they are those
    chunks. With it, at most one chunk is rewritten: either the pattern
    matches in none of the chunks and each is pushed as its text; or there
    is a first chunk in which it matches, the chunks before it are pushed as
    their text, in that chunk one token, the value of a [Host] header, is
    replaced by [localHost], and every chunk after it passes as it is,
    byte for byte, whatever [Host] headers it holds. *)
Theorem host_rewritten_at_most_once opts evs :
  (Tunnel.wants_transformer opts = true
   <-> Tunnel.localHost opts <> lit "localhost"
       /\ Tunnel.localHost opts <> lit "127.0.0.1")
  /\ transformer_as_configured opts
       (Tunnel.phase (fst (Tunnel.createTunnel opts evs))) = true
  /\ exists chunks,
      Forall (fun c => In (Tunnel.RemoteData c) evs) chunks
      /\ if Tunnel.wants_transformer opts
         then
           (forallb hostless_chunk chunks = true
            /\ local_writes (snd (Tunnel.createTunnel opts evs))
               = map recoded chunks)
           \/ exists before c after pre g1 tok post,
               chunks = before ++ c :: after
               /\ forallb hostless_chunk before = true
               /\ toString c = pre ++ g1 ++ tok ++ post
               /\ (g1 = [0x0D; 0x0A] ++ lit "Host: "
                   \/ g1 = [0x0D; 0x0A] ++ lit "host: ")
               /\ tok <> []
               /\ forallb non_ws tok = true
               /\ local_writes (snd (Tunnel.createTunnel opts evs))
                  = map recoded before
                    ++ utf8 (pre ++ g1 ++ Tunnel.localHost opts ++ post)
                       :: after
         else local_writes (snd (Tunnel.createTunnel opts evs)) = chunks.
Proof.
  split; [apply wants_transformer_spec|].
  split; [now apply run_transformer|].
  destruct (pipes_invariant opts evs) as (chunks & Hin & Hw & _).
  exists chunks. split; [exact Hin|].
  unfold Session.fresh_transformer, Session.through in Hw.
  destruct (Tunnel.wants_transformer opts); [|exact Hw].
  destruct (pipe_fresh_cases (Tunnel.localHost opts) chunks)
    as [[Hall Hp]|(before & c & after & pre & g1 & tok & post
                   & E & Hb & Ht & Hg & Hne & Htok & Hp)];
    rewrite Hp in Hw; cbn [fst] in Hw.
  - left. now split.
  - right. exists before, c, after, pre, g1, tok, post. repeat split; auto.
Qed.

End TransformerFacts.

(** ** [authenticateRemote]: what settles it *)

Section AuthOutcomes.
Import Text Auth.
Local Open Scope N_scope.

Lemma listen_settled p evs : p <> Pending -> listen p evs = (p, []).
Proof. destruct p, evs; intros H; try reflexivity; congruence. Qed.

Lemma listen_app evs1 : forall p evs2,
  listen p (evs1 ++ evs2)
  = andThen (listen p evs1) (fun p' => listen p' evs2).
Proof.
  induction evs1 as [|ev evs1 IH]; intros p evs2.
  - cbn [app]. destruct p; cbn [listen andThen]; try reflexivity.
    + now destruct (listen Pending evs2).
    + now destruct evs2.
    + now destruct evs2.
  - destruct p.
    + cbn [app listen]. rewrite andThen_assoc. apply andThen_ext.
      intros p'. apply IH.
    + cbn [app listen andThen]. now destruct evs2.
    + cbn [app listen andThen]. now destruct evs2.
Qed.

Lemma listen_undecided evs :
  forallb (fun ev => negb (decisive ev)) evs = true ->
  fst (listen Pending evs) = Pending.
Proof.
  induction evs as [|ev evs IH]; intros H; [reflexivity|].
  cbn [forallb] in H. apply andb_true_iff in H. destruct H as [Hev H].
  apply negb_true_iff in Hev. unfold decisive in Hev.
  cbn [listen]. rewrite fst_andThen.
  destruct (fst (handle ev)); try discriminate. now apply IH.
Qed.

Lemma listen_decided ev evs :
  decisive ev = true ->
  listen Pending (ev :: evs) = handle ev.
Proof.
  unfold decisive. intros H. cbn [listen].
  destruct (handle ev) as [p t]. cbn [fst] in H. cbn [andThen].
  rewrite listen_settled by (destruct p; [discriminate|congruence|congruence]).
  now rewrite app_nil_r.
Qed.

(** X17. With a non-empty key, the first event that settles the promise
    of [authenticateRemote] decides its outcome, and the events after it
    are not seen by it: they change neither the outcome nor the trace. *)
Theorem auth_settles_on_first_decisive_event key evs1 ev evs2 :
  nonempty key = true ->
  forallb (fun ev => negb (decisive ev)) evs1 = true ->
  decisive ev = true ->
  fst (run (Some key) (evs1 ++ ev :: evs2)) = fst (handle ev)
  /\ snd (run (Some key) (evs1 ++ ev :: evs2))
     = snd (run (Some key) (evs1 ++ [ev])).
Proof.
  intros Hk H1 Hev. unfold run.
  destruct key as [|c key]; [discriminate|]. cbn [authenticateRemote].
  cbn [andThen]. rewrite !listen_app.
  pose proof (listen_undecided evs1 H1) as Hp.
  destruct (listen Pending evs1) as [p t1]. cbn [fst] in Hp. subst p.
  cbn [andThen]. rewrite !(listen_decided ev) by exact Hev.
  destruct (handle ev) as [p t]. split; reflexivity.
Qed.

Lemma strip_prefix_ci_same p : forall x r,
  map lower x = map lower p -> strip_prefix_ci p (x ++ r) = Some r.
Proof.
  induction p as [|c p IH]; intros x r H; destruct x as [|d x];
    try discriminate; [reflexivity|].
  cbn [map] in H. injection H as Hd Hx.
  cbn [app strip_prefix_ci]. rewrite Hd, N.eqb_refl. now apply IH.
Qed.

Lemma strip_quoted_ci word x r :
  Json.quote word = dq ++ word ++ dq ->
  same_ci x word = true ->
  strip_prefix_ci (Json.quote word) (dq ++ x ++ dq ++ r) = Some r.
Proof.
  intros Hq Hx. apply jseq_spec in Hx. rewrite Hq.
  replace (dq ++ x ++ dq ++ r) with ((dq ++ x ++ dq) ++ r)
    by now rewrite <- !app_assoc.
  apply strip_prefix_ci_same. rewrite !map_app, Hx. reflexivity.
Qed.

Lemma span_ws_run ws c r :
  forallb is_ws ws = true -> is_ws c = false ->
  span is_ws (ws ++ c :: r) = (ws, c :: r).
Proof.
  induction ws as [|w ws IH]; intros Hw Hc.
  - cbn [app span]. now rewrite Hc.
  - cbn [forallb] in Hw. apply andb_true_iff in Hw. destruct Hw as [H1 H2].
    cbn [app span]. now rewrite H1, (IH H2 Hc).
Qed.

Lemma status_at_member word key ws1 ws2 value r :
  Json.quote word = dq ++ word ++ dq ->
  same_ci key (lit "status") = true -> same_ci value word = true ->
  forallb is_ws ws1 = true -> forallb is_ws ws2 = true ->
  status_at word
    (dq ++ key ++ dq ++ ws1 ++ [0x3A] ++ ws2 ++ dq ++ value ++ dq ++ r)
  = true.
Proof.
  intros Hq Hk Hv H1 H2. unfold status_at.
  rewrite (strip_quoted_ci (lit "status") key _ eq_refl Hk).
  change (ws1 ++ [0x3A] ++ ws2 ++ dq ++ value ++ dq ++ r)
    with (ws1 ++ 0x3A :: (ws2 ++ 0x22 :: (value ++ dq ++ r))).
  rewrite (span_ws_run ws1 0x3A) by (assumption || reflexivity). cbn [snd].
  rewrite (span_ws_run ws2 0x22) by (assumption || reflexivity). cbn [snd].
  change (0x22 :: value ++ dq ++ r) with (dq ++ value ++ dq ++ r).
  now rewrite (strip_quoted_ci word value r Hq Hv).
Qed.

Lemma test_status_here word s : status_at word s = true -> test_status word s = true.
Proof. intros H. destruct s; cbn [test_status]; now rewrite H. Qed.

Lemma test_status_skip word pre s :
  test_status word s = true -> test_status word (pre ++ s) = true.
Proof.
  intros H. induction pre as [|c pre IH]; [exact H|].
  cbn [app test_status]. rewrite IH. apply orb_true_r.
Qed.

Lemma trimStart_core pre a r :
  is_ws a = false -> trimStart (pre ++ a :: r) = trimStart pre ++ a :: r.
Proof.
  intros Ha. induction pre as [|c pre IH].
  - cbn [app trimStart]. now rewrite Ha.
  - cbn [app trimStart]. destruct (is_ws c); [exact IH|reflexivity].
Qed.

Lemma trimEnd_core body z post :
  is_ws z = false -> trimEnd (body ++ z :: post) = body ++ z :: trimEnd post.
Proof.
  intros Hz. unfold trimEnd. rewrite rev_app_distr. cbn [rev].
  rewrite <- app_assoc. cbn [app]. rewrite (trimStart_core _ _ _ Hz).
  rewrite rev_app_distr. cbn [rev]. rewrite rev_involutive, <- app_assoc.
  reflexivity.
Qed.

Lemma trim_core pre a body z post :
  is_ws a = false -> is_ws z = false ->
  trim (pre ++ a :: body ++ z :: post)
  = trimStart pre ++ a :: body ++ z :: trimEnd post.
Proof.
  intros Ha Hz. unfold trim. rewrite (trimStart_core _ _ _ Ha).
  change (trimStart pre ++ a :: body ++ z :: post)
    with (trimStart pre ++ (a :: body) ++ z :: post).
  rewrite app_assoc, (trimEnd_core _ _ _ Hz), <- app_assoc. reflexivity.
Qed.

(** X18. A chunk of well-formed text that holds the member
    ["status": "ok"] anywhere, in any letter case and with any white space
    around the colon, authenticates, whatever else the chunk holds: the
    tests for success come first. *)
Theorem auth_accepts_status_ok_anywhere pre key ws1 ws2 value post :
  well_formed (status_message pre key ws1 ws2 value post) = true ->
  same_ci key (lit "status") = true ->
  same_ci value (lit "ok") = true ->
  forallb is_ws ws1 = true -> forallb is_ws ws2 = true ->
  fst (onData (utf8 (status_message pre key ws1 ws2 value post)))
  = Fulfilled tt.
Proof.
  intros Hw Hk Hv H1 H2. unfold onData. rewrite (toString_utf8 _ Hw).
  assert (Ht : test_status (lit "ok")
                 (trim (status_message pre key ws1 ws2 value post)) = true).
  { unfold status_message.
    replace (pre ++ dq ++ key ++ dq ++ ws1 ++ [0x3A] ++ ws2 ++ dq ++ value
             ++ dq ++ post)
      with (pre ++ 0x22
                :: (key ++ dq ++ ws1 ++ [0x3A] ++ ws2 ++ dq ++ value)
                   ++ 0x22 :: post)
      by (rewrite <- !app_assoc; reflexivity).
    rewrite trim_core by reflexivity.
    apply test_status_skip, test_status_here.
    replace (0x22 :: (key ++ dq ++ ws1 ++ [0x3A] ++ ws2 ++ dq ++ value)
                  ++ 0x22 :: trimEnd post)
      with (dq ++ key ++ dq ++ ws1 ++ [0x3A] ++ ws2 ++ dq ++ value ++ dq
            ++ trimEnd post)
      by (rewrite <- !app_assoc; reflexivity).
    now apply status_at_member. }
  rewrite Ht, orb_true_r. reflexivity.
Qed.

End AuthOutcomes.

Lemma auth_settles_on_first_decisive_event_witness :
  nonempty (Text.lit "s3cret") = true
  /\ forallb (fun ev => negb (decisive ev)) [Auth.Data (bytes_of "hello")]
     = true
  /\ decisive (Auth.Data (bytes_of "AUTH_OK")) = true
  /\ fst (Auth.run (Some (Text.lit "s3cret"))
            ([Auth.Data (bytes_of "hello")]
             ++ Auth.Data (bytes_of "AUTH_OK")
                :: [Auth.Data (bytes_of "AUTH_FAIL"); Auth.Close]))
     = fst (Auth.handle (Auth.Data (bytes_of "AUTH_OK")))
  /\ snd (Auth.run (Some (Text.lit "s3cret"))
            ([Auth.Data (bytes_of "hello")]
             ++ Auth.Data (bytes_of "AUTH_OK")
                :: [Auth.Data (bytes_of "AUTH_FAIL"); Auth.Close]))
     = snd (Auth.run (Some (Text.lit "s3cret"))
              ([Auth.Data (bytes_of "hello")]
               ++ [Auth.Data (bytes_of "AUTH_OK")])).
Proof.
  do 3 (split; [reflexivity|]).
  apply (auth_settles_on_first_decisive_event (Text.lit "s3cret")
           [Auth.Data (bytes_of "hello")] (Auth.Data (bytes_of "AUTH_OK"))
           [Auth.Data (bytes_of "AUTH_FAIL"); Auth.Close]);
    reflexivity.
Defined.

Lemma auth_accepts_status_ok_anywhere_witness :
  well_formed (status_message (Text.lit "{") (Text.lit "Status") []
                 [0x20%N] (Text.lit "OK") (Text.lit ", AUTH_FAIL}")) = true
  /\ same_ci (Text.lit "Status") (Text.lit "status") = true
  /\ same_ci (Text.lit "OK") (Text.lit "ok") = true
  /\ forallb Text.is_ws [] = true
  /\ forallb Text.is_ws [0x20%N] = true
  /\ fst (Auth.onData
            (Text.utf8
               (status_message (Text.lit "{") (Text.lit "Status") []
                  [0x20%N] (Text.lit "OK") (Text.lit ", AUTH_FAIL}"))))
     = Fulfilled tt.
Proof.
  do 5 (split; [reflexivity|]).
  apply (auth_accepts_status_ok_anywhere (Text.lit "{") (Text.lit "Status")
           [] [0x20%N] (Text.lit "OK") (Text.lit ", AUTH_FAIL}"));
    reflexivity.
Defined.
